(** * abx2xml: the Android Binary XML decoder of [src/abx2xml.cpp]

    A shallow embedding of [base64_encode], [XMLElement] and [AbxReader]
    (the primitive readers, [read_interned_string], [skip_header_extension]
    and [read]) together with the properties of the decoder.

    Conventions of the embedding.
    - The input file is a list of bytes; [std::ifstream] is a record holding
      the contents, the get position and the two state flags the program can
      observe ([eofbit], [failbit]).  The file is a regular (seekable) file.
    - A [std::string] is a [string]: a sequence of 8-bit characters.
    - The host is little-endian (the code byte-swaps every integer it loads),
      so [__builtin_bswapN] applied to the loaded object yields the big-endian
      value of the bytes read.
    - C++ exceptions are the [Throw] outcome, carrying the exception class and
      its [what()] text as written in the source; undefined behaviour (indexing
      a [std::vector] out of range) is the separate outcome [Undefined].
    - [std::shared_ptr<XMLElement>] is an index into a heap of elements:
      [std::make_shared] allocates at the next free index, and mutation through
      a pointer updates the heap cell, so every alias sees it. *)

From Stdlib Require Import ZArith Lia.
From Stdlib.Strings Require Import Byte Ascii String.
From stdpp Require Import base numbers option list strings gmap pretty.
From Equations Require Import Equations.

Open Scope Z_scope.

(** ** Exceptions and outcomes *)

Inductive exn : Type :=
| runtime_error (what : string)
| AbxDecodeError (what : string).

Inductive outcome (A : Type) : Type :=
| Ok (a : A)
| Throw (e : exn)
| Undefined.

Arguments Ok {A} a.
Arguments Throw {A} e.
Arguments Undefined {A}.

(** ** std::ifstream *)

Record ifstream : Type := mk_ifstream {
  contents : list byte;
  gptr : nat;
  eofbit : bool;
  failbit : bool
}.

Definition good (s : ifstream) : bool := negb (eofbit s) && negb (failbit s).

(** [operator!] of a stream is [fail()]. *)
Definition fail (s : ifstream) : bool := failbit s.

(** [stream.eof()] returns the [eofbit] flag; it is set only by an input
    operation that ran into the end of the file, never by the get position
    merely standing at the end. *)
Definition eof (s : ifstream) : bool := eofbit s.

(** [stream.read(buf, n)]: an unformatted input function.  If the stream is
    not [good] it sets [failbit] and extracts nothing.  Otherwise it extracts
    characters until [n] are stored or the end of file occurs, in which case
    it sets [failbit | eofbit].  Returns the characters stored. *)
Definition istream_read (n : nat) (s : ifstream) : list byte * ifstream :=
  if good s then
    let got := take n (drop (gptr s) (contents s)) in
    if (length got =? n)%nat
    then (got, mk_ifstream (contents s) (gptr s + n)%nat (eofbit s) (failbit s))
    else (got, mk_ifstream (contents s) (gptr s + length got)%nat true true)
  else ([], mk_ifstream (contents s) (gptr s) (eofbit s) true).

(** [stream.seekg(off, std::ios::cur)]: clears [eofbit]; unless [fail()],
    moves the get position by [off].  A position before the start of the file
    is refused ([failbit]); a position beyond its end is accepted by a file
    buffer and the next extraction finds the end of file. *)
Definition seekg_cur (off : Z) (s : ifstream) : ifstream :=
  if failbit s then mk_ifstream (contents s) (gptr s) false true
  else
    let target := Z.of_nat (gptr s) + off in
    if target <? 0 then mk_ifstream (contents s) (gptr s) false true
    else mk_ifstream (contents s) (Z.to_nat target) false false.

Definition open_file (file : list byte) : ifstream := mk_ifstream file 0 false false.

(** ** Integers and text *)

Definition byte_val (b : byte) : Z := Z.of_N (Byte.to_N b).

#[global] Instance byte_eq_decision : EqDecision byte := Byte.byte_eq_dec.

(** The value of an integer object whose representation is [bs] on the
    little-endian host. *)
Fixpoint le_value (bs : list byte) : Z :=
  match bs with
  | [] => 0
  | b :: rest => Z.lor (byte_val b) (Z.shiftl (le_value rest) 8)
  end.

(** [__builtin_bswapN] reverses the bytes of the object. *)
Definition bswap (bs : list byte) : Z := le_value (rev bs).

(** Conversion of an unsigned [w]-bit value to the signed type of that width. *)
Definition to_signed (w : Z) (u : Z) : Z :=
  if u <? 2 ^ (w - 1) then u else u - 2 ^ w.

(** Conversion to the unsigned type of width [w]. *)
Definition to_unsigned (w : Z) (v : Z) : Z := v mod 2 ^ w.

Definition std_string (bs : list byte) : string := String.string_of_list_byte bs.

Definition hex_digit (d : Z) : ascii :=
  match String.get (Z.to_nat d) "0123456789abcdef" with
  | Some c => c
  | None => "?"%char
  end.

(** Digits of [n] in base 16, most significant first; [fuel] bounds the
    number of digits. *)
Fixpoint hex_digits (fuel : nat) (n : Z) (acc : string) : string :=
  match fuel with
  | O => acc
  | S fuel' =>
      let acc' := String (hex_digit (n mod 16)) acc in
      if n / 16 =? 0 then acc' else hex_digits fuel' (n / 16) acc'
  end.

(** [ss << std::hex << v] for an integer [v] of width [w]: the digits of the
    value converted to unsigned, no prefix, no padding. *)
Definition to_hex (w : Z) (v : Z) : string :=
  hex_digits (Z.to_nat w) (to_unsigned w v) "".

(** [std::setw(n) << std::setfill(c)]: pad on the left up to width [n]. *)
Definition pad_left (n : nat) (c : ascii) (s : string) : string :=
  string_of_list_ascii (replicate (n - String.length s) c) +:+ s.

(** [std::to_string] of a signed integer. *)
Definition to_string (v : Z) : string := pretty v.

(** [::isspace] in the "C" locale (the program never calls [setlocale]):
    space, and the controls from tab to carriage return; no byte above 127. *)
Definition isspace (c : ascii) : bool :=
  let n := Z.of_nat (nat_of_ascii c) in
  (n =? 32) || ((9 <=? n) && (n <=? 13)).

(** [std::all_of(s.begin(), s.end(), p)]. *)
Fixpoint all_of (p : ascii → bool) (s : string) : bool :=
  match s with
  | EmptyString => true
  | String c rest => p c && all_of p rest
  end.

(** ** base64_encode *)

Definition base64_chars : string :=
  "ABCDEFGHIJKLMNOPQRSTUVWXYZabcdefghijklmnopqrstuvwxyz0123456789+/".

Definition base64_char (i : Z) : ascii :=
  match String.get (Z.to_nat i) base64_chars with
  | Some c => c
  | None => "?"%char
  end.

(** [data[i]] for [i] below the length of the buffer. *)
Definition at_index (data : list byte) (i : nat) : Z :=
  match data !! i with
  | Some b => byte_val b
  | None => 0
  end.

Definition push_char (s : string) (c : ascii) : string := s +:+ String c EmptyString.

Equations base64_loop (data : list byte) (len i : nat) (encoded : string) : string
  by wf (len - i)%nat lt :=
base64_loop data len i encoded with decide (i < len)%nat := {
  | left _ =>
      let triple :=
        Z.lor (Z.lor (if decide (i + 0 < len)%nat then Z.shiftl (at_index data i) 16 else 0)
                     (if decide (i + 1 < len)%nat then Z.shiftl (at_index data (i + 1)) 8 else 0))
              (if decide (i + 2 < len)%nat then at_index data (i + 2) else 0) in
      let e1 := push_char encoded (base64_char (Z.land (Z.shiftr triple 18) 63)) in
      let e2 := push_char e1 (base64_char (Z.land (Z.shiftr triple 12) 63)) in
      let e3 := push_char e2 (if decide (i + 1 < len)%nat
                              then base64_char (Z.land (Z.shiftr triple 6) 63)
                              else "="%char) in
      let e4 := push_char e3 (if decide (i + 2 < len)%nat
                              then base64_char (Z.land triple 63)
                              else "="%char) in
      base64_loop data len (i + 3) e4
  | right _ => encoded }.
Next Obligation. lia. Qed.

Definition base64_encode (data : list byte) (len : nat) : string :=
  base64_loop data len 0 "".

(** The loop over the buffer in the [TYPE_BYTES_HEX] case of [read]. *)
Definition hex_encode (buffer : list byte) : string :=
  fold_left (fun ss b => ss +:+ pad_left 2 "0"%char (to_hex 32 (byte_val b))) buffer "".

(** ** Floating-point attribute values

    [read_float] and [read_double] assign the byte-swapped unsigned integer
    to the floating-point variable: a value conversion, rounded to the
    precision of the type (round to nearest, ties to even).  The value held
    is therefore an integer, and [std::to_string] prints it with ["%f"]. *)

Definition round_to_precision (p : Z) (n : Z) : Z :=
  if n <? 2 ^ p then n
  else
    let e := Z.log2 n + 1 - p in
    let q := n / 2 ^ e in
    let r := n mod 2 ^ e in
    let half := 2 ^ (e - 1) in
    let q' := if r <? half then q
              else if half <? r then q + 1
              else if Z.even q then q else q + 1 in
    q' * 2 ^ e.

Definition to_string_fp (v : Z) : string := pretty v +:+ ".000000".

(** ** XmlType and DataType *)

Definition START_DOCUMENT : Z := 0.
Definition END_DOCUMENT : Z := 1.
Definition START_TAG : Z := 2.
Definition END_TAG : Z := 3.
Definition TEXT : Z := 4.
Definition ATTRIBUTE : Z := 15.

Definition TYPE_NULL : Z := Z.shiftl 1 4.
Definition TYPE_STRING : Z := Z.shiftl 2 4.
Definition TYPE_STRING_INTERNED : Z := Z.shiftl 3 4.
Definition TYPE_BYTES_HEX : Z := Z.shiftl 4 4.
Definition TYPE_BYTES_BASE64 : Z := Z.shiftl 5 4.
Definition TYPE_INT : Z := Z.shiftl 6 4.
Definition TYPE_INT_HEX : Z := Z.shiftl 7 4.
Definition TYPE_LONG : Z := Z.shiftl 8 4.
Definition TYPE_LONG_HEX : Z := Z.shiftl 9 4.
Definition TYPE_FLOAT : Z := Z.shiftl 10 4.
Definition TYPE_DOUBLE : Z := Z.shiftl 11 4.
Definition TYPE_BOOLEAN_TRUE : Z := Z.shiftl 12 4.
Definition TYPE_BOOLEAN_FALSE : Z := Z.shiftl 13 4.

(** ** AbxReader: the members and the monad of its methods *)

Record AbxReader : Type := mk_AbxReader {
  stream : ifstream;
  interned_strings : list string
}.

Definition M (A : Type) : Type := AbxReader → outcome (A * AbxReader).

Definition ret {A} (a : A) : M A := fun r => Ok (a, r).

Definition bind {A B} (m : M A) (k : A → M B) : M B := fun r =>
  match m r with
  | Ok (a, r') => k a r'
  | Throw e => Throw e
  | Undefined => Undefined
  end.

Definition throw {A} (e : exn) : M A := fun _ => Throw e.

Notation "x <- m ;; k" := (bind m (fun x => k))
  (at level 100, m at next level, right associativity).

(** [if (!stream.read(buf, n)) throw std::runtime_error(what)]. *)
Definition stream_read (n : nat) (what : string) : M (list byte) := fun r =>
  let '(buf, s') := istream_read n (stream r) in
  if fail s' then Throw (runtime_error what)
  else Ok (buf, mk_AbxReader s' (interned_strings r)).

Definition read_byte : M Z :=
  buf <- stream_read 1 "Could not read byte";;
  ret (le_value buf).

Definition read_short : M Z :=
  val <- stream_read 2 "Could not read short";;
  ret (to_signed 16 (bswap val)).

Definition read_unsigned_short : M Z :=
  val <- stream_read 2 "Could not read unsigned short";;
  ret (bswap val).

Definition read_int : M Z :=
  val <- stream_read 4 "Could not read int";;
  ret (to_signed 32 (bswap val)).

Definition read_long : M Z :=
  val <- stream_read 8 "Could not read long";;
  ret (to_signed 64 (bswap val)).

Definition read_float : M Z :=
  val <- stream_read 4 "Could not read float";;
  ret (round_to_precision 24 (bswap val)).

Definition read_double : M Z :=
  val <- stream_read 8 "Could not read double";;
  ret (round_to_precision 53 (bswap val)).

Definition read_string_raw : M string :=
  length <- read_unsigned_short;;
  buffer <- stream_read (Z.to_nat length) "Could not read string";;
  ret (std_string buffer).

(** [interned_strings.push_back(value)]. *)
Definition push_back_interned (value : string) : M unit := fun r =>
  Ok (tt, mk_AbxReader (stream r) (interned_strings r ++ [value])).

(** [interned_strings[reference]]: [operator[]] of [std::vector] makes no
    bounds check; the index is converted to the unsigned [size_type], and an
    index that is not below [size()] is undefined behaviour. *)
Definition index_interned (reference : Z) : M string := fun r =>
  let n := to_unsigned 64 reference in
  if n <? Z.of_nat (length (interned_strings r)) then
    match interned_strings r !! Z.to_nat n with
    | Some value => Ok (value, r)
    | None => Undefined
    end
  else Undefined.

Definition read_interned_string : M string :=
  reference <- read_short;;
  if reference =? -1 then
    value <- read_string_raw;;
    _ <- push_back_interned value;;
    ret value
  else index_interned reference.

Definition seekg (off : Z) : M unit := fun r =>
  Ok (tt, mk_AbxReader (seekg_cur off (stream r)) (interned_strings r)).

Inductive control : Type := Continue | Break.

(** One iteration of the [while (true)] of [skip_header_extension]. *)
Definition skip_header_step : M control :=
  token <- read_byte;;
  if Z.land token 15 =? START_DOCUMENT then
    _ <- seekg (-1);;
    ret Break
  else
    let data_type := Z.land token 240 in
    if data_type =? TYPE_NULL then ret Continue
    else if data_type =? TYPE_INT then _ <- read_int;; ret Continue
    else if data_type =? TYPE_LONG then _ <- read_long;; ret Continue
    else if data_type =? TYPE_FLOAT then _ <- read_float;; ret Continue
    else if data_type =? TYPE_DOUBLE then _ <- read_double;; ret Continue
    else if (data_type =? TYPE_STRING) || (data_type =? TYPE_STRING_INTERNED)
    then _ <- read_string_raw;; ret Continue
    else if (data_type =? TYPE_BYTES_HEX) || (data_type =? TYPE_BYTES_BASE64)
    then
      length <- read_short;;
      _ <- seekg (to_unsigned 16 length);;
      ret Continue
    else
      if 0 <? Z.land token 15
      then _ <- seekg (Z.land token 15);; ret Continue
      else ret Continue.

(** The loop itself; [None] when [fuel] iterations did not reach the [break]
    or an exception. *)
Fixpoint skip_header_extension (fuel : nat) (r : AbxReader) : option (outcome (unit * AbxReader)) :=
  match fuel with
  | O => None
  | S fuel' =>
      match skip_header_step r with
      | Ok (Break, r') => Some (Ok (tt, r'))
      | Ok (Continue, r') => skip_header_extension fuel' r'
      | Throw e => Some (Throw e)
      | Undefined => Some Undefined
      end
  end.

(** ** XMLElement and the heap of elements *)

Record XMLElement : Type := mk_XMLElement {
  tag : string;
  text : string;
  attrib : gmap string string;
  children : list nat
}.

(** [XMLElement(tag_name)]. *)
Definition new_XMLElement (tag_name : string) : XMLElement :=
  mk_XMLElement tag_name "" ∅ [].

Definition add_child (child : nat) (e : XMLElement) : XMLElement :=
  mk_XMLElement (tag e) (text e) (attrib e) (children e ++ [child]).

Definition set_text (value : string) (e : XMLElement) : XMLElement :=
  mk_XMLElement (tag e) value (attrib e) (children e).

Definition set_attrib (key value : string) (e : XMLElement) : XMLElement :=
  mk_XMLElement (tag e) (text e) (<[key := value]> (attrib e)) (children e).

(** The locals of [read] and the heap its [shared_ptr]s point into.  The
    vector [element_stack] is kept in its own order: bottom first,
    [back()] last. *)
Record frame : Type := mk_frame {
  document_opened : bool;
  root_closed : bool;
  element_stack : list nat;
  root : option nat;
  heap : list XMLElement
}.

(** The test [element_stack.empty() || (is_multi_root &&
    element_stack.size() == 1)] of the END_DOCUMENT, END_TAG and ATTRIBUTE
    branches. *)
Definition blocked (is_multi_root : bool) (f : frame) : bool :=
  bool_decide (element_stack f = []) ||
  (is_multi_root && bool_decide (length (element_stack f) = 1%nat)).

Definition with_stack (stack : list nat) (f : frame) : frame :=
  mk_frame (document_opened f) (root_closed f) stack (root f) (heap f).

Definition with_heap (h : list XMLElement) (f : frame) : frame :=
  mk_frame (document_opened f) (root_closed f) (element_stack f) (root f) h.

(** [element_stack.back()->...]: apply [g] to the element the top of the
    stack points to.  Every use in [read] is guarded by a test that the
    stack is not empty. *)
Definition on_back (g : XMLElement → XMLElement) (f : frame) : outcome frame :=
  match last (element_stack f) with
  | Some top => Ok (with_heap (alter g top (heap f)) f)
  | None => Undefined
  end.

Definition back_element (f : frame) : option XMLElement :=
  top ← last (element_stack f); heap f !! top.

Definition lift {A} (o : outcome A) : M A := fun r =>
  match o with
  | Ok a => Ok (a, r)
  | Throw e => Throw e
  | Undefined => Undefined
  end.

(** The [switch] over the data type of an ATTRIBUTE token. *)
Definition attribute_value (data_type : Z) : M string :=
  if data_type =? TYPE_NULL then ret "null"
  else if data_type =? TYPE_BOOLEAN_TRUE then ret "true"
  else if data_type =? TYPE_BOOLEAN_FALSE then ret "false"
  else if data_type =? TYPE_INT then v <- read_int;; ret (to_string v)
  else if data_type =? TYPE_INT_HEX then v <- read_int;; ret (to_hex 32 v)
  else if data_type =? TYPE_LONG then v <- read_long;; ret (to_string v)
  else if data_type =? TYPE_LONG_HEX then v <- read_long;; ret (to_hex 64 v)
  else if data_type =? TYPE_FLOAT then v <- read_float;; ret (to_string_fp v)
  else if data_type =? TYPE_DOUBLE then v <- read_double;; ret (to_string_fp v)
  else if data_type =? TYPE_STRING then read_string_raw
  else if data_type =? TYPE_STRING_INTERNED then read_interned_string
  else if data_type =? TYPE_BYTES_HEX then
    length <- read_short;;
    buffer <- stream_read (Z.to_nat (to_unsigned 16 length)) "Could not read bytes";;
    ret (hex_encode buffer)
  else if data_type =? TYPE_BYTES_BASE64 then
    length <- read_short;;
    buffer <- stream_read (Z.to_nat (to_unsigned 16 length)) "Could not read bytes";;
    ret (base64_encode buffer (List.length buffer))
  else throw (AbxDecodeError "Unexpected attribute data type").

(** The START_TAG branch once the name is resolved. *)
Definition start_tag (tag_name : string) (f : frame) : outcome frame :=
  let element := List.length (heap f) in
  let h := heap f ++ [new_XMLElement tag_name] in
  if bool_decide (element_stack f = []) then
    Ok (mk_frame (document_opened f) (root_closed f) (element_stack f ++ [element])
                 (Some element) h)
  else
    match on_back (add_child element) (with_heap h f) with
    | Ok f' => Ok (with_stack (element_stack f' ++ [element]) f')
    | Throw e => Throw e
    | Undefined => Undefined
    end.

(** The END_TAG branch once the name is resolved. *)
Definition end_tag (tag_name : string) (f : frame) : outcome frame :=
  match back_element f with
  | None => Undefined
  | Some top =>
      if bool_decide (tag top ≠ tag_name)
      then Throw (AbxDecodeError "Mismatched END_TAG")
      else
        let stack := removelast (element_stack f) in
        Ok (mk_frame (document_opened f)
                     (if bool_decide (stack = []) then true else root_closed f)
                     stack (root f) (heap f))
  end.

(** The TEXT branch once the run is read. *)
Definition text_token (value : string) (f : frame) : outcome frame :=
  if all_of isspace value then Ok f
  else if bool_decide (element_stack f = [])
  then Throw (AbxDecodeError "Unexpected TEXT outside of element")
  else
    match back_element f with
    | None => Undefined
    | Some top =>
        if bool_decide (text top = "")
        then on_back (set_text value) f
        else on_back (set_text (text top +:+ value)) f
    end.

(** The final [else] branch: tokens of no known kind. *)
Definition skip_unknown (data_type : Z) : M unit :=
  if negb (data_type =? 0) then
    if data_type =? TYPE_INT then _ <- read_int;; ret tt
    else if (data_type =? TYPE_STRING) || (data_type =? TYPE_STRING_INTERNED)
    then _ <- read_string_raw;; ret tt
    else throw (AbxDecodeError "Unexpected XML type")
  else ret tt.

(** The dispatch on a token already read. *)
Definition dispatch (is_multi_root : bool) (token : Z) (f : frame) : M (control * frame) :=
  let xml_type := Z.land token 15 in
  let data_type := Z.land token 240 in
  if xml_type =? START_DOCUMENT then
    if negb (data_type =? TYPE_NULL)
    then throw (AbxDecodeError "Invalid START_DOCUMENT data type")
    else ret (Continue, mk_frame true (root_closed f) (element_stack f) (root f) (heap f))
  else if xml_type =? END_DOCUMENT then
    if negb (data_type =? TYPE_NULL)
    then throw (AbxDecodeError "Invalid END_DOCUMENT data type")
    else if negb (blocked is_multi_root f)
    then throw (AbxDecodeError "Unclosed elements at END_DOCUMENT")
    else ret (Break, f)
  else if xml_type =? START_TAG then
    if negb (data_type =? TYPE_STRING_INTERNED)
    then throw (AbxDecodeError "Invalid START_TAG data type")
    else
      tag_name <- read_interned_string;;
      f' <- lift (start_tag tag_name f);;
      ret (Continue, f')
  else if xml_type =? END_TAG then
    if negb (data_type =? TYPE_STRING_INTERNED)
    then throw (AbxDecodeError "Invalid END_TAG data type")
    else if blocked is_multi_root f
    then throw (AbxDecodeError "Unexpected END_TAG")
    else
      tag_name <- read_interned_string;;
      f' <- lift (end_tag tag_name f);;
      ret (Continue, f')
  else if xml_type =? TEXT then
    value <- read_string_raw;;
    f' <- lift (text_token value f);;
    ret (Continue, f')
  else if xml_type =? ATTRIBUTE then
    if blocked is_multi_root f
    then throw (AbxDecodeError "Unexpected ATTRIBUTE")
    else
      attribute_name <- read_interned_string;;
      value <- attribute_value data_type;;
      f' <- lift (on_back (set_attrib attribute_name value) f);;
      ret (Continue, f')
  else
    _ <- skip_unknown data_type;;
    ret (Continue, f).

(** One iteration of the [while (true)] of [read]. *)
Definition loop_body (is_multi_root : bool) (f : frame) : M (control * frame) := fun r =>
  if eof (stream r) then Ok ((Break, f), r)
  else (token <- read_byte;; dispatch is_multi_root token f) r.

Fixpoint read_loop (fuel : nat) (is_multi_root : bool) (f : frame) (r : AbxReader) : option (outcome (frame * AbxReader)) :=
  match fuel with
  | O => None
  | S fuel' =>
      match loop_body is_multi_root f r with
      | Ok ((Break, f'), r') => Some (Ok (f', r'))
      | Ok ((Continue, f'), r') => read_loop fuel' is_multi_root f' r'
      | Throw e => Some (Throw e)
      | Undefined => Some Undefined
      end
  end.

Definition MAGIC : list byte := [x41; x42; x58; x00].

(** The locals of [read] when the loop is entered. *)
Definition initial_frame (is_multi_root : bool) : frame :=
  if is_multi_root
  then mk_frame true false [0%nat] (Some 0%nat) [new_XMLElement "root"]
  else mk_frame true false [] None [].

(** The result of [read]: the root pointer and the heap it points into. *)
Definition document : Type := nat * list XMLElement.

(** [AbxReader::read]; both loops get as many iterations as the file has
    bytes, plus one (see [read_returns]). *)
Definition read (is_multi_root : bool) (r : AbxReader) : option (outcome document) :=
  let fuel := S (List.length (contents (stream r))) in
  let '(magic_check, s) := istream_read 4 (stream r) in
  if fail s || negb (bool_decide (magic_check = MAGIC))
  then Some (Throw (AbxDecodeError "Invalid magic number"))
  else
    match skip_header_extension fuel (mk_AbxReader s (interned_strings r)) with
    | None => None
    | Some (Throw e) => Some (Throw e)
    | Some Undefined => Some Undefined
    | Some (Ok (_, r1)) =>
        match read_loop fuel is_multi_root (initial_frame is_multi_root) r1 with
        | None => None
        | Some (Throw e) => Some (Throw e)
        | Some Undefined => Some Undefined
        | Some (Ok (f, _)) =>
            match root f with
            | None => Some (Throw (AbxDecodeError "No root element found"))
            | Some p => Some (Ok (p, heap f))
            end
        end
    end.

(** [AbxReader reader(input_path)]. *)
Definition new_AbxReader (file : list byte) : AbxReader :=
  mk_AbxReader (open_file file) [].

(** The tree a [shared_ptr] denotes, for reading results. *)
#[local] Unset Elimination Schemes.
Inductive tree : Type :=
| Node (tag text : string) (attrib : list (string * string)) (children : list tree).
#[local] Set Elimination Schemes.

Fixpoint tree_of (fuel : nat) (h : list XMLElement) (p : nat) : option tree :=
  match fuel with
  | O => None
  | S fuel' =>
      e ← h !! p;
      kids ← mapM (tree_of fuel' h) (children e);
      Some (Node (tag e) (text e) (map_to_list (attrib e)) kids)
  end.

Definition decode (is_multi_root : bool) (file : list byte) : option (outcome (option tree)) :=
  match read is_multi_root (new_AbxReader file) with
  | None => None
  | Some (Ok (p, h)) => Some (Ok (tree_of (S (List.length h)) h p))
  | Some (Throw e) => Some (Throw e)
  | Some Undefined => Some Undefined
  end.

(** ** print_xml

    [std::cout] is the text written so far.  The order in which the loop
    over [element->attrib] visits an [std::unordered_map] is not specified:
    it is the parameter [order]. *)

Definition endl : string := String "010" "".

Definition dquote : string := String "034" "".

Definition xml_declaration : string :=
  "<?xml version='1.0' encoding='UTF-8' standalone='yes' ?>" +:+ endl.

(** [std::string indentation(indent, ' ')]. *)
Definition spaces (indent : nat) : string :=
  string_of_list_ascii (replicate indent " "%char).

(** The body of the loop over the attributes. *)
Definition print_attribute (cout : string) (kv : string * string) : string :=
  cout +:+ " " +:+ kv.1 +:+ "=" +:+ dquote +:+ kv.2 +:+ dquote.

(** The loop over the children, [print] being the recursive call. *)
Fixpoint print_children (print : nat → string → option string) (kids : list nat) (cout : string) : option string :=
  match kids with
  | [] => Some cout
  | child :: rest =>
      cout ← print child cout;
      print_children print rest cout
  end.

(** [None] when [fuel] nested calls did not reach the leaves, or when a
    pointer is not in the heap. *)
Fixpoint print_xml (order : gmap string string → list (string * string)) (fuel : nat) (h : list XMLElement) (element : nat) (indent : nat) (cout : string) : option string :=
  match fuel with
  | O => None
  | S fuel' =>
      e ← h !! element;
      let cout := if bool_decide (indent = 0%nat) then cout +:+ xml_declaration else cout in
      let indentation := spaces indent in
      let cout := cout +:+ indentation +:+ "<" +:+ tag e in
      let cout := fold_left print_attribute (order (attrib e)) cout in
      if bool_decide (children e = []) && bool_decide (text e = "")
      then Some (cout +:+ "/>" +:+ endl)
      else
        let cout := cout +:+ ">" in
        let cout := if negb (bool_decide (text e = "")) then cout +:+ text e else cout in
        cout ←
          (if negb (bool_decide (children e = [])) then
             cout ← print_children
                      (λ child cout, print_xml order fuel' h child (indent + 2) cout)
                      (children e) (cout +:+ endl);
             Some (cout +:+ indentation)
           else Some cout);
        Some (cout +:+ "</" +:+ tag e +:+ ">" +:+ endl)
  end.

(** ** main

    The arguments are [argv] without the program name.  The file system is
    the contents of the files that exist (opening for reading succeeds on
    exactly those) and the set of paths that can be opened for writing. *)

Definition usage : string :=
  "usage: abx2xml [-mr] [-i] input [output]" +:+ endl +:+ endl +:+
  "Converts between human-readable XML and Android Binary XML." +:+ endl +:+ endl +:+
  " [-mr] : Enable Multi-Root Processing." +:+ endl +:+ endl +:+
  "When invoked with the '-i' argument, the output of a successful conversion" +:+ endl +:+
  "will overwrite the original input file. output can be '-' to use stdout" +:+ endl +:+ endl.

Record options : Type := mk_options {
  multi_root : bool;
  input_path : string;
  output_path : string;
  explicit_input : bool
}.

(** The loop over the arguments; [None] at a third positional argument. *)
Fixpoint parse_arguments (args : list string) (o : options) : option options :=
  match args with
  | [] => Some o
  | arg :: rest =>
      if bool_decide (arg = "-mr")
      then parse_arguments rest
             (mk_options true (input_path o) (output_path o) (explicit_input o))
      else if bool_decide (arg = "-i")
      then parse_arguments rest
             (mk_options (multi_root o) (input_path o) (output_path o) true)
      else if bool_decide (input_path o = "")
      then parse_arguments rest
             (mk_options (multi_root o) arg (output_path o) (explicit_input o))
      else if bool_decide (output_path o = "")
      then parse_arguments rest
             (mk_options (multi_root o) (input_path o) arg (explicit_input o))
      else None
  end.

(** [s.find_last_of(c)]. *)
Fixpoint find_last_of (c : ascii) (s : string) : option nat :=
  match s with
  | EmptyString => None
  | String x rest =>
      match find_last_of c rest with
      | Some i => Some (S i)
      | None => if Ascii.eqb x c then Some 0%nat else None
      end
  end.

(** The output path when none is given and [-i] is absent. *)
Definition default_output (input : string) : string :=
  match find_last_of "." input with
  | Some dot_pos => String.substring 0 dot_pos input +:+ ".xml"
  | None => input +:+ ".xml"
  end.

Record filesystem : Type := mk_filesystem {
  files : gmap string (list byte);
  writable : string → bool
}.

(** What a run leaves behind. *)
Record run : Type := mk_run {
  exit_code : Z;
  cout_text : string;
  cerr_text : string;
  files_after : gmap string (list byte)
}.

Definition what (e : exn) : string :=
  match e with
  | runtime_error w => w
  | AbxDecodeError w => w
  end.

(** The [try] block of [main], once the paths are settled.  [None]: [read]
    ran into undefined behaviour. *)
Definition convert (order : gmap string string → list (string * string)) (multi_root : bool) (input output : string) (output_to_stdout : bool) (fs : filesystem) : option run :=
  let failed (e : exn) := mk_run 1 "" ("Error: " +:+ what e +:+ endl) (files fs) in
  match files fs !! input with
  | None => Some (failed (runtime_error "Could not open file"))
  | Some file =>
      match read multi_root (new_AbxReader file) with
      | None | Some Undefined => None
      | Some (Throw e) => Some (failed e)
      | Some (Ok (doc, h)) =>
          let done := "Successfully converted " +:+ input +:+ " to " +:+ output +:+
                      (if multi_root then " (multi-root mode)" else "") +:+ endl in
          if output_to_stdout then
            text ← print_xml order (S (length h)) h doc 0 "";
            Some (mk_run 0 text done (files fs))
          else if negb (writable fs output) then
            Some (mk_run 1 ""
                    ("Error: Could not open output file '" +:+ output +:+ "'" +:+ endl)
                    (files fs))
          else
            text ← print_xml order (S (length h)) h doc 0 "";
            Some (mk_run 0 "" done
                    (<[output := String.list_byte_of_string text]> (files fs)))
      end
  end.

Definition main (order : gmap string string → list (string * string)) (args : list string) (fs : filesystem) : option run :=
  if bool_decide (args = []) then Some (mk_run 1 "" usage (files fs))
  else
    match parse_arguments args (mk_options false "" "" false) with
    | None =>
        Some (mk_run 1 "" ("Error: Too many arguments" +:+ endl +:+ usage) (files fs))
    | Some o =>
        if bool_decide (input_path o = "")
        then Some (mk_run 1 "" ("Error: No input file specified" +:+ endl +:+ usage)
                          (files fs))
        else
          let output :=
            if bool_decide (output_path o = "")
            then if explicit_input o then input_path o else default_output (input_path o)
            else output_path o in
          let output_to_stdout := bool_decide (output = "-") in
          let output := if output_to_stdout then input_path o else output in
          convert order (multi_root o) (input_path o) output output_to_stdout fs
    end.

(** * Specification-level definitions *)

(** ** The two encodings of a byte run, as the specification words them *)

(** Hex: per byte two lowercase digits, the high nibble first, nothing
    between bytes. *)
Definition lowercase_hex_digit (d : Z) : ascii :=
  match String.get (Z.to_nat d) "0123456789abcdef" with
  | Some c => c
  | None => "?"%char
  end.

Definition hex_pair (b : byte) : string :=
  String (lowercase_hex_digit (byte_val b / 16))
         (String (lowercase_hex_digit (byte_val b mod 16)) "").

Fixpoint spec_hex (bs : list byte) : string :=
  match bs with
  | [] => ""
  | b :: rest => hex_pair b +:+ spec_hex rest
  end.

(** Base 64 as RFC 4648 section 4 words it: three input bytes concatenated
    into a 24-bit group, read as four 6-bit groups, each an index into the
    alphabet; a final group of one byte gives two characters and "==", of
    two bytes three characters and "=", the missing bits being zero. *)
Definition rfc4648_alphabet : string :=
  "ABCDEFGHIJKLMNOPQRSTUVWXYZabcdefghijklmnopqrstuvwxyz0123456789+/".

Definition sextet (group : Z) (k : Z) : ascii :=
  match String.get (Z.to_nat ((group / 64 ^ k) mod 64)) rfc4648_alphabet with
  | Some c => c
  | None => "="%char
  end.

Fixpoint rfc4648_base64 (bs : list byte) : string :=
  match bs with
  | [] => ""
  | [a] =>
      let group := byte_val a * 2 ^ 16 in
      String (sextet group 3) (String (sextet group 2) "==")
  | [a; b] =>
      let group := byte_val a * 2 ^ 16 + byte_val b * 2 ^ 8 in
      String (sextet group 3) (String (sextet group 2) (String (sextet group 1) "="))
  | a :: b :: c :: rest =>
      let group := byte_val a * 2 ^ 16 + byte_val b * 2 ^ 8 + byte_val c in
      String (sextet group 3) (String (sextet group 2)
        (String (sextet group 1) (String (sextet group 0) (rfc4648_base64 rest))))
  end.

(** ** Predicates on the methods of the reader *)

(** [steady_at r r']: same file, get position not moved back, a [good]
    stream still [good], and the intern table extended at its end only. *)
Record steady_at (r r' : AbxReader) : Prop := mk_steady {
  steady_contents : contents (stream r') = contents (stream r);
  steady_gptr : (gptr (stream r) ≤ gptr (stream r'))%nat;
  steady_good : good (stream r) = true → good (stream r') = true;
  steady_table : interned_strings r `prefix_of` interned_strings r'
}.

(** A method is [steady] when every call that returns is. *)
Definition steady {A} (m : M A) : Prop :=
  ∀ r a r', m r = Ok (a, r') → steady_at r r'.

(** A method that leaves the intern table alone. *)
Definition keeps_table {A} (m : M A) : Prop :=
  ∀ r a r', m r = Ok (a, r') → interned_strings r' = interned_strings r.

(** A method that never throws [e0]. *)
Definition never_throws {A} (e0 : exn) (m : M A) : Prop := ∀ r, m r ≠ Throw e0.

Definition no_root : exn := AbxDecodeError "No root element found".

(** The token kinds [read] has a branch for. *)
Definition known_kind (xml_type : Z) : bool :=
  (xml_type =? START_DOCUMENT) || (xml_type =? END_DOCUMENT) ||
  (xml_type =? START_TAG) || (xml_type =? END_TAG) ||
  (xml_type =? TEXT) || (xml_type =? ATTRIBUTE).

(** ** The states of a decode *)

(** The frame and the reader [n] iterations later, when none of them left
    the loop. *)
Fixpoint after (n : nat) (mr : bool) (f : frame) (r : AbxReader) : option (frame * AbxReader) :=
  match n with
  | O => Some (f, r)
  | S n' =>
      match loop_body mr f r with
      | Ok ((Continue, f'), r') => after n' mr f' r'
      | _ => None
      end
  end.

(** What one iteration of the loop can do to the locals and the heap. *)
Inductive frame_step (mr : bool) (f : frame) : control → frame → Prop :=
| step_eof : frame_step mr f Break f
| step_start_document :
    frame_step mr f Continue
      (mk_frame true (root_closed f) (element_stack f) (root f) (heap f))
| step_end_document :
    blocked mr f = true → frame_step mr f Break f
| step_start_tag tag_name f' :
    start_tag tag_name f = Ok f' → frame_step mr f Continue f'
| step_end_tag tag_name f' :
    blocked mr f = false → end_tag tag_name f = Ok f' → frame_step mr f Continue f'
| step_text value f' :
    text_token value f = Ok f' → frame_step mr f Continue f'
| step_attribute name value f' :
    blocked mr f = false → on_back (set_attrib name value) f = Ok f' →
    frame_step mr f Continue f'
| step_skip : frame_step mr f Continue f.

(** ** Trees in the heap *)

(** [chain h p stack]: the first element of [stack] is the last child of
    [p], and each further one the last child of the one before it. *)
Fixpoint chain (h : list XMLElement) (p : nat) (stack : list nat) : Prop :=
  match stack with
  | [] => True
  | c :: rest => (∃ e, h !! p = Some e ∧ last (children e) = Some c) ∧ chain h c rest
  end.

(** The stack, bottom to top, is the path from the root to the innermost
    open element. *)
Definition ancestor_chain (f : frame) : Prop :=
  match element_stack f with
  | [] => True
  | b :: rest => root f = Some b ∧ chain (heap f) b rest
  end.

(** Children are allocated after their parent, inside the heap. *)
Definition heap_ordered (h : list XMLElement) : Prop :=
  ∀ p e c, h !! p = Some e → c ∈ children e → (p < c < length h)%nat.

Record frame_wf (f : frame) : Prop := mk_frame_wf {
  wf_heap : heap_ordered (heap f);
  wf_root : ∀ b, root f = Some b → (b < length (heap f))%nat;
  wf_chain : ancestor_chain f
}.

(** [descendant h p q]: the element [q] is in the tree rooted at [p]. *)
Inductive descendant (h : list XMLElement) : nat → nat → Prop :=
| descendant_self p : descendant h p p
| descendant_child p e c q :
    h !! p = Some e → c ∈ children e → descendant h c q → descendant h p q.

(** In multi-root mode: the wrapper (element 0) is the bottom of the stack
    and the root. *)
Definition wrapper_held (f : frame) : Prop :=
  (∃ rest, element_stack f = 0%nat :: rest) ∧ root f = Some 0%nat.

(** The reader [r] with its get position at [n]. *)
Definition at_gptr (n : nat) (r : AbxReader) : AbxReader :=
  mk_AbxReader (mk_ifstream (contents (stream r)) n (eofbit (stream r)) (failbit (stream r)))
               (interned_strings r).

(** ** Reading the texts of byte runs and integers back *)

(** The position of [c] in [s]. *)
Fixpoint index_of (c : ascii) (s : string) : option Z :=
  match s with
  | EmptyString => None
  | String x rest => if Ascii.eqb c x then Some 0 else Z.succ <$> index_of c rest
  end.

Definition byte_of (z : Z) : option byte := Byte.of_N (Z.to_N z).

(** RFC 4648 decoding: four characters give three bytes; a last group
    ending in "=" gives two, in "==" one. *)
Fixpoint base64_decode (s : string) : option (list byte) :=
  match s with
  | EmptyString => Some []
  | String c1 (String c2 (String c3 (String c4 rest))) =>
      i1 ← index_of c1 rfc4648_alphabet;
      i2 ← index_of c2 rfc4648_alphabet;
      a ← byte_of (i1 * 4 + i2 / 16);
      if Ascii.eqb c3 "=" then
        if Ascii.eqb c4 "=" && bool_decide (rest = "") then Some [a] else None
      else
        i3 ← index_of c3 rfc4648_alphabet;
        b ← byte_of ((i2 mod 16) * 16 + i3 / 4);
        if Ascii.eqb c4 "=" then
          if bool_decide (rest = "") then Some [a; b] else None
        else
          i4 ← index_of c4 rfc4648_alphabet;
          c ← byte_of ((i3 mod 4) * 64 + i4);
          tail ← base64_decode rest;
          Some (a :: b :: c :: tail)
  | _ => None
  end.

(** Two lowercase hex digits give a byte. *)
Fixpoint hex_decode (s : string) : option (list byte) :=
  match s with
  | EmptyString => Some []
  | String c1 (String c2 rest) =>
      hi ← index_of c1 "0123456789abcdef";
      lo ← index_of c2 "0123456789abcdef";
      b ← byte_of (hi * 16 + lo);
      tail ← hex_decode rest;
      Some (b :: tail)
  | _ => None
  end.

(** The number a string of lowercase hex digits denotes, continuing from
    [acc]. *)
Fixpoint hex_parse (acc : Z) (s : string) : option Z :=
  match s with
  | EmptyString => Some acc
  | String c rest =>
      d ← index_of c "0123456789abcdef";
      hex_parse (acc * 16 + d) rest
  end.

(** ** The bytes a reader has in front of it *)

(** The big-endian value of a byte sequence. *)
Definition be_value (bs : list byte) : Z :=
  fold_left (λ acc b, acc * 256 + byte_val b) bs 0.

(** The bytes from the get position to the end of the file. *)
Definition pending (r : AbxReader) : list byte :=
  drop (gptr (stream r)) (contents (stream r)).

(** The reader with its get position moved forward by [n]. *)
Definition advance (n : nat) (r : AbxReader) : AbxReader :=
  at_gptr (gptr (stream r) + n) r.

(** What a fixed-width read of [n] bytes does: with the stream [good] and
    [n] bytes pending it returns [value] of them and moves on by [n];
    otherwise it throws. *)
Definition fixed_read (n : nat) (value : list byte → Z) (what : string) (r : AbxReader) : outcome (Z * AbxReader) :=
  if good (stream r) && bool_decide (n ≤ length (pending r))%nat
  then Ok (value (take n (pending r)), advance n r)
  else Throw (runtime_error what).

(** ** How the heap of elements may change *)

(** [grows h h']: every element of [h] is still in [h'] at the same place,
    with the same tag, its children and its text extended at the end only,
    and every attribute name it had still present. *)
Definition grows (h h' : list XMLElement) : Prop :=
  ∀ p e, h !! p = Some e →
    ∃ e', h' !! p = Some e' ∧
          tag e' = tag e ∧
          children e `prefix_of` children e' ∧
          (∃ more, text e' = text e +:+ more) ∧
          (∀ k, is_Some (attrib e !! k) → is_Some (attrib e' !! k)).

(** The frame [f] with [g] applied to the element [top]. *)
Definition update_element (g : XMLElement → XMLElement) (top : nat) (f : frame) : frame :=
  with_heap (alter g top (heap f)) f.

(** ** Bytes behind the document *)

(** The reader [r] on a file that has [extra] appended. *)
Definition widen (extra : list byte) (r : AbxReader) : AbxReader :=
  mk_AbxReader (mk_ifstream (contents (stream r) ++ extra) (gptr (stream r))
                            (eofbit (stream r)) (failbit (stream r)))
               (interned_strings r).

(** A method whose successful calls do not depend on what follows the bytes
    they read. *)
Definition prefix_local {A} (m : M A) : Prop :=
  ∀ extra r a r', m r = Ok (a, r') → m (widen extra r) = Ok (a, widen extra r').

(** ** The exceptions of [read] *)

#[global] Instance exn_eq_decision : EqDecision exn.
Proof. solve_decision. Defined.

(** The exceptions the two loops of [read] throw. *)
Definition loop_exceptions : list exn :=
  [ runtime_error "Could not read byte";
    runtime_error "Could not read short";
    runtime_error "Could not read unsigned short";
    runtime_error "Could not read int";
    runtime_error "Could not read long";
    runtime_error "Could not read float";
    runtime_error "Could not read double";
    runtime_error "Could not read string";
    runtime_error "Could not read bytes";
    AbxDecodeError "Invalid START_DOCUMENT data type";
    AbxDecodeError "Invalid END_DOCUMENT data type";
    AbxDecodeError "Unclosed elements at END_DOCUMENT";
    AbxDecodeError "Invalid START_TAG data type";
    AbxDecodeError "Invalid END_TAG data type";
    AbxDecodeError "Unexpected END_TAG";
    AbxDecodeError "Mismatched END_TAG";
    AbxDecodeError "Unexpected TEXT outside of element";
    AbxDecodeError "Unexpected ATTRIBUTE";
    AbxDecodeError "Unexpected attribute data type";
    AbxDecodeError "Unexpected XML type" ].

(** Those of [read] as a whole. *)
Definition read_exceptions : list exn :=
  AbxDecodeError "Invalid magic number" :: loop_exceptions ++
  [AbxDecodeError "No root element found"].

(** A method that throws exceptions of [allowed] only. *)
Definition throws_only {A} (allowed : list exn) (m : M A) : Prop :=
  ∀ r e, m r = Throw e → e ∈ allowed.

(** ** The options of [main] *)

Definition set_multi_root (o : options) : options :=
  mk_options true (input_path o) (output_path o) (explicit_input o).

Definition set_explicit_input (o : options) : options :=
  mk_options (multi_root o) (input_path o) (output_path o) true.

(** No option given yet. *)
Definition no_options : options := mk_options false "" "" false.

(** * Sample inputs *)

(** magic, START_DOCUMENT, then <a></a> <b></b> as two top-level elements,
    and END_DOCUMENT. *)
Definition two_roots_file : list byte :=
  [x41; x42; x58; x00; x10;
   x32; xff; xff; x00; x01; x61;  x33; x00; x00;
   x32; xff; xff; x00; x01; x62;  x33; x00; x01;
   x11].

(** magic, START_DOCUMENT, <a x=5> with the value as TYPE_INT, </a>,
    END_DOCUMENT. *)
Definition int_attribute_file : list byte :=
  [x41; x42; x58; x00; x10;
   x32; xff; xff; x00; x01; x61;
   x6f; xff; xff; x00; x01; x78; x00; x00; x00; x05;
   x33; x00; x00;  x11].

(** magic, START_DOCUMENT, START_TAG naming entry 5 of an empty table. *)
Definition forward_reference_file : list byte :=
  [x41; x42; x58; x00; x10;  x32; x00; x05].

(** magic, START_DOCUMENT, <a></a>, and the file ends there. *)
Definition no_end_document_file : list byte :=
  [x41; x42; x58; x00; x10;
   x32; xff; xff; x00; x01; x61;  x33; x00; x00].

(** magic, START_DOCUMENT, a token of kind 5 and type TYPE_NULL, <a></a>,
    END_DOCUMENT; and the same file with the type nibble of that token 0. *)
Definition null_unknown_file : list byte :=
  [x41; x42; x58; x00; x10;  x15;
   x32; xff; xff; x00; x01; x61;  x33; x00; x00;  x11].

Definition zero_unknown_file : list byte :=
  [x41; x42; x58; x00; x10;  x05;
   x32; xff; xff; x00; x01; x61;  x33; x00; x00;  x11].

(** <a x="..."> with the bytes DE AD as TYPE_BYTES_HEX and as
    TYPE_BYTES_BASE64. *)
Definition hex_attribute_file : list byte :=
  [x41; x42; x58; x00; x10;
   x32; xff; xff; x00; x01; x61;
   x4f; xff; xff; x00; x01; x78; x00; x02; xde; xad;
   x33; x00; x00;  x11].

Definition base64_attribute_file : list byte :=
  [x41; x42; x58; x00; x10;
   x32; xff; xff; x00; x01; x61;
   x5f; xff; xff; x00; x01; x78; x00; x02; xde; xad;
   x33; x00; x00;  x11].

(** magic, START_DOCUMENT, <a><b>, then an END_TAG naming "a". *)
Definition mismatch_file : list byte :=
  [x41; x42; x58; x00; x10;
   x32; xff; xff; x00; x01; x61;
   x32; xff; xff; x00; x01; x62;
   x33; x00; x00].

(** magic, START_DOCUMENT, <a>, END_TAG "a", and a second END_TAG. *)
Definition stray_end_tag_file : list byte :=
  [x41; x42; x58; x00; x10;
   x32; xff; xff; x00; x01; x61;  x33; x00; x00;  x33; x00; x00].

(** A reader standing on a TEXT token whose run is a space and a newline. *)
Definition whitespace_text_reader : AbxReader :=
  mk_AbxReader (mk_ifstream [x04; x00; x02; x20; x0a] 0 false false) [].

(** A reader with a table of two entries, standing on a reference -1 that
    defines "c". *)
Definition defining_reader : AbxReader :=
  mk_AbxReader (mk_ifstream [xff; xff; x00; x01; x63] 0 false false) ["a"; "b"].

(** The frame of [mismatch_file] with <a><b> open. *)
Definition nested_frame : frame :=
  mk_frame true false [0%nat; 1%nat] (Some 0%nat)
           [mk_XMLElement "a" "" ∅ [1%nat]; mk_XMLElement "b" "" ∅ []].

(** The frame of [two_roots_file] after <a></a>. *)
Definition first_root_closed : frame :=
  mk_frame true true [] (Some 0%nat) [mk_XMLElement "a" "" ∅ []].

(** For each exception of [read], in the order of [read_exceptions], a
    mode and a file on which [read] throws it.  After the magic and
    START_DOCUMENT come: nothing; a START_TAG cut short; a TEXT token cut
    short; tokens and header records whose payload is missing; and the
    tokens that are out of place. *)
Definition error_samples : list (bool * list byte * exn) :=
  [ (false, [], AbxDecodeError "Invalid magic number");
    (false, [x41; x42; x58; x00], runtime_error "Could not read byte");
    (false, [x41; x42; x58; x00; x10; x32], runtime_error "Could not read short");
    (false, [x41; x42; x58; x00; x10; x04],
       runtime_error "Could not read unsigned short");
    (false, [x41; x42; x58; x00; x10; x65], runtime_error "Could not read int");
    (false, [x41; x42; x58; x00; x81], runtime_error "Could not read long");
    (false, [x41; x42; x58; x00; xa1], runtime_error "Could not read float");
    (false, [x41; x42; x58; x00; xb1], runtime_error "Could not read double");
    (false, [x41; x42; x58; x00; x10; x04; x00; x05],
       runtime_error "Could not read string");
    (false, [x41; x42; x58; x00; x10; x32; xff; xff; x00; x01; x61;
             x4f; xff; xff; x00; x01; x78; x00; x02; xde],
       runtime_error "Could not read bytes");
    (false, [x41; x42; x58; x00; x20],
       AbxDecodeError "Invalid START_DOCUMENT data type");
    (false, [x41; x42; x58; x00; x10; x21],
       AbxDecodeError "Invalid END_DOCUMENT data type");
    (false, [x41; x42; x58; x00; x10; x32; xff; xff; x00; x01; x61; x11],
       AbxDecodeError "Unclosed elements at END_DOCUMENT");
    (false, [x41; x42; x58; x00; x10; x22],
       AbxDecodeError "Invalid START_TAG data type");
    (false, [x41; x42; x58; x00; x10; x23],
       AbxDecodeError "Invalid END_TAG data type");
    (true, [x41; x42; x58; x00; x10; x33], AbxDecodeError "Unexpected END_TAG");
    (false, mismatch_file, AbxDecodeError "Mismatched END_TAG");
    (false, [x41; x42; x58; x00; x10; x04; x00; x01; x78],
       AbxDecodeError "Unexpected TEXT outside of element");
    (true, [x41; x42; x58; x00; x10; x2f], AbxDecodeError "Unexpected ATTRIBUTE");
    (false, [x41; x42; x58; x00; x10; x32; xff; xff; x00; x01; x61;
             xef; xff; xff; x00; x01; x78],
       AbxDecodeError "Unexpected attribute data type");
    (false, null_unknown_file, AbxDecodeError "Unexpected XML type");
    (false, [x41; x42; x58; x00; x10; x11],
       AbxDecodeError "No root element found") ].

(** A file system with the one file in.abx, where every path can be opened
    for writing. *)
Definition one_file (file : list byte) : filesystem :=
  mk_filesystem {[ "in.abx" := file ]} (λ _, true).

(** What the run with the arguments -i in.abx leaves behind on
    [one_file int_attribute_file]. *)
Definition converted_in_place : run :=
  mk_run 0 "" ("Successfully converted in.abx to in.abx" +:+ endl)
    {[ "in.abx" := String.list_byte_of_string
         (xml_declaration +:+ "<a x=" +:+ dquote +:+ "5" +:+ dquote +:+ "/>" +:+ endl) ]}.

(** * Properties of the reader *)

(** ** Sample evaluations of the encoders *)

Example hex_dead : hex_encode [xde; xad] = "dead".
Proof. reflexivity. Qed.

Example base64_dead : base64_encode [xde; xad] 2 = "3q0=".
Proof. reflexivity. Qed.

Example to_string_neg : to_string (-15) = "-15".
Proof. reflexivity. Qed.

Example to_hex_neg : to_hex 32 (-1) = "ffffffff".
Proof. reflexivity. Qed.

Example decode_int_attribute :
  decode false int_attribute_file = Some (Ok (Some (Node "a" "" [("x", "5")] []))) ∧
  decode true int_attribute_file
    = Some (Ok (Some (Node "root" "" [] [Node "a" "" [("x", "5")] []]))).
Proof. split; reflexivity. Qed.

(** ** What a successful method call does to the reader *)

Lemma steady_at_refl r : steady_at r r.
Proof. split; auto. Qed.

Lemma steady_at_trans r1 r2 r3 : steady_at r1 r2 → steady_at r2 r3 → steady_at r1 r3.
Proof.
  intros [c1 g1 s1 t1] [c2 g2 s2 t2]. split.
  - congruence.
  - lia.
  - auto.
  - by etrans.
Qed.

Lemma bind_Ok {A B} (m : M A) (k : A → M B) r b r' :
  (x <- m;; k x) r = Ok (b, r') ↔ ∃ a r1, m r = Ok (a, r1) ∧ k a r1 = Ok (b, r').
Proof.
  unfold bind. split.
  - destruct (m r) as [[a r1]| |]; [eauto|done|done].
  - intros (a & r1 & -> & H). done.
Qed.

Lemma steady_ret {A} (a : A) : steady (ret a).
Proof. intros r a' r' [= _ <-]. apply steady_at_refl. Qed.

Lemma steady_throw {A} e : steady (@throw A e).
Proof. intros r a r' [=]. Qed.

Lemma steady_bind {A B} (m : M A) (k : A → M B) :
  steady m → (∀ a, steady (k a)) → steady (x <- m;; k x).
Proof.
  intros Hm Hk r b r' (a & r1 & H1 & H2)%bind_Ok.
  eapply steady_at_trans; [by eapply Hm | by eapply Hk].
Qed.

Lemma steady_lift {A} (o : outcome A) : steady (lift o).
Proof. intros r a r'. destruct o; intros [=]; subst. apply steady_at_refl. Qed.

(** A successful [stream.read] found the stream [good] and all [n] bytes
    present; it moves the get position by [n] and touches nothing else. *)
Lemma stream_read_Ok n what r buf r' :
  stream_read n what r = Ok (buf, r') →
  good (stream r) = true ∧
  buf = take n (drop (gptr (stream r)) (contents (stream r))) ∧
  length buf = n ∧
  r' = mk_AbxReader (mk_ifstream (contents (stream r)) (gptr (stream r) + n)
                                 (eofbit (stream r)) (failbit (stream r)))
                    (interned_strings r).
Proof.
  unfold stream_read, istream_read.
  destruct (good (stream r)) eqn:Hg; simpl; [|done].
  destruct (_ =? n)%nat eqn:Hn; simpl; [|done].
  apply Nat.eqb_eq in Hn.
  destruct (failbit (stream r)) eqn:Hf; [done|].
  intros [= <- <-]. done.
Qed.

Lemma stream_read_fails n what r :
  (length (contents (stream r)) - gptr (stream r) < n)%nat →
  stream_read n what r = Throw (runtime_error what).
Proof.
  intros Hlt. unfold stream_read, istream_read.
  destruct (good (stream r)) eqn:Hg; simpl; [|done].
  destruct (_ =? n)%nat eqn:Hn; simpl; [|done].
  apply Nat.eqb_eq in Hn. rewrite length_take, length_drop in Hn. lia.
Qed.

Lemma steady_stream_read n what : steady (stream_read n what).
Proof.
  intros r buf r' (Hg & _ & _ & ->)%stream_read_Ok. split; simpl; auto with lia.
Qed.

Lemma steady_push_back value : steady (push_back_interned value).
Proof.
  intros r a r' [= _ <-]. split; simpl; auto. by apply prefix_app_r.
Qed.

Lemma steady_index_interned reference : steady (index_interned reference).
Proof.
  intros r a r'. unfold index_interned. destruct (_ <? _); [|done].
  destruct (_ !! _); intros [=]; subst. apply steady_at_refl.
Qed.

Create HintDb steady.
#[local] Hint Resolve steady_ret steady_throw steady_lift steady_stream_read
  steady_push_back steady_index_interned : steady.

Ltac steady_step :=
  match goal with
  | |- steady (bind _ _) => apply steady_bind; [|intros ?]
  | |- steady (if ?b then _ else _) => destruct b
  | |- steady _ => solve [auto with steady]
  end.

Ltac steady_auto := repeat steady_step.

Lemma steady_read_byte : steady read_byte.
Proof. unfold read_byte. steady_auto. Qed.

Lemma steady_read_short : steady read_short.
Proof. unfold read_short. steady_auto. Qed.

Lemma steady_read_unsigned_short : steady read_unsigned_short.
Proof. unfold read_unsigned_short. steady_auto. Qed.

Lemma steady_read_int : steady read_int.
Proof. unfold read_int. steady_auto. Qed.

Lemma steady_read_long : steady read_long.
Proof. unfold read_long. steady_auto. Qed.

Lemma steady_read_float : steady read_float.
Proof. unfold read_float. steady_auto. Qed.

Lemma steady_read_double : steady read_double.
Proof. unfold read_double. steady_auto. Qed.

#[local] Hint Resolve steady_read_byte steady_read_short steady_read_unsigned_short
  steady_read_int steady_read_long steady_read_float steady_read_double : steady.

Lemma steady_read_string_raw : steady read_string_raw.
Proof. unfold read_string_raw. steady_auto. Qed.

#[local] Hint Resolve steady_read_string_raw : steady.

Lemma steady_read_interned_string : steady read_interned_string.
Proof. unfold read_interned_string. steady_auto. Qed.

#[local] Hint Resolve steady_read_interned_string : steady.

Lemma steady_attribute_value data_type : steady (attribute_value data_type).
Proof. unfold attribute_value. steady_auto. Qed.

Lemma steady_skip_unknown data_type : steady (skip_unknown data_type).
Proof. unfold skip_unknown. steady_auto. Qed.

#[local] Hint Resolve steady_attribute_value steady_skip_unknown : steady.

Lemma steady_dispatch mr token f : steady (dispatch mr token f).
Proof. unfold dispatch. steady_auto. Qed.

#[local] Hint Resolve steady_dispatch : steady.

Lemma steady_loop_body mr f : steady (loop_body mr f).
Proof.
  intros r a r'. unfold loop_body. destruct (eof (stream r)).
  - intros [= _ <-]. apply steady_at_refl.
  - apply (steady_bind read_byte (fun token => dispatch mr token f)); auto with steady.
Qed.

(** ** Both loops terminate *)

Lemma read_byte_Ok r token r' :
  read_byte r = Ok (token, r') →
  good (stream r) = true ∧
  (gptr (stream r) < length (contents (stream r)))%nat ∧
  gptr (stream r') = S (gptr (stream r)).
Proof.
  unfold read_byte. intros (buf & r1 & H1 & H2)%bind_Ok.
  injection H2 as _ <-.
  apply stream_read_Ok in H1 as (Hg & -> & Hlen & ->). simpl.
  rewrite length_take, length_drop in Hlen. split_and!; [done|lia|lia].
Qed.

Lemma good_not_eof s : good s = true → eof s = false.
Proof. unfold good, eof. by intros [->%negb_true_iff _]%andb_true_iff. Qed.

Lemma read_byte_exhausted r :
  (length (contents (stream r)) ≤ gptr (stream r))%nat →
  read_byte r = Throw (runtime_error "Could not read byte").
Proof.
  intros Hle. unfold read_byte, bind.
  rewrite stream_read_fails; [done|lia].
Qed.

Lemma steady_seekg off : 0 ≤ off → steady (seekg off).
Proof.
  intros Hoff r a r' [= _ <-]. unfold seekg_cur. split; simpl.
  - by repeat case_match.
  - repeat case_match; simpl; lia.
  - unfold good. intros [_ Hf%negb_true_iff]%andb_true_iff. rewrite Hf.
    destruct (Z.ltb_spec (Z.of_nat (gptr (stream r)) + off) 0); [lia|done].
  - done.
Qed.

Ltac use_steady H :=
  match type of H with
  | ?m ?r = Ok _ =>
      let Hs := fresh "Hs" in
      assert (steady m) as Hs; [|apply Hs in H]
  end.

Lemma skip_header_step_progress r c r' :
  skip_header_step r = Ok (c, r') →
  contents (stream r') = contents (stream r) ∧
  (c = Continue → gptr (stream r) < gptr (stream r'))%nat.
Proof.
  unfold skip_header_step. intros (token & r1 & Hb & Hrest)%bind_Ok.
  pose proof (steady_read_byte _ _ _ Hb) as [Hc1 _ _ _].
  apply read_byte_Ok in Hb as (_ & _ & Hp).
  destruct (Z.land token 15 =? START_DOCUMENT) eqn:Hsd.
  - apply bind_Ok in Hrest as ([] & r2 & [= <-] & [= <- <-]). simpl.
    split; [|done]. rewrite <- Hc1. unfold seekg_cur. by repeat case_match.
  - use_steady Hrest.
    { pose proof (Z.land_nonneg token 15).
      assert (0 ≤ to_unsigned 16 0 ∧ ∀ v, 0 ≤ to_unsigned 16 v) as [_ Hu].
      { split; [done|]. intros v. unfold to_unsigned. apply Z.mod_pos_bound. done. }
      repeat first [ steady_step
                   | apply steady_seekg; [auto with lia]
                   | destruct (0 <? Z.land token 15) eqn:? ];
      auto using steady_seekg with lia. }
    destruct Hrest as [Hc2 Hg2 _ _]. split; [congruence|lia].
Qed.

Lemma skip_header_extension_contents fuel r r' :
  skip_header_extension fuel r = Some (Ok (tt, r')) →
  contents (stream r') = contents (stream r).
Proof.
  revert r. induction fuel as [|fuel IH]; intros r; simpl; [done|].
  destruct (skip_header_step r) as [[[] r1]| |] eqn:Hstep; try done.
  - intros H%IH. apply skip_header_step_progress in Hstep as [Hc _]. congruence.
  - intros [= <-]. by apply skip_header_step_progress in Hstep as [Hc _].
Qed.

Lemma skip_header_extension_returns fuel r :
  (length (contents (stream r)) - gptr (stream r) < fuel)%nat →
  is_Some (skip_header_extension fuel r).
Proof.
  revert r. induction fuel as [|fuel IH]; intros r Hfuel; simpl; [lia|].
  destruct (skip_header_step r) as [[[] r1]| |] eqn:Hstep; try done.
  apply IH.
  pose proof Hstep as (token & r0 & Hb & _)%bind_Ok.
  apply read_byte_Ok in Hb as (_ & Hlt & _).
  apply skip_header_step_progress in Hstep as [Hc Hp]. specialize (Hp eq_refl).
  rewrite Hc. lia.
Qed.

Lemma loop_body_progress mr f r f' r' :
  loop_body mr f r = Ok ((Continue, f'), r') →
  contents (stream r') = contents (stream r) ∧
  (gptr (stream r) < length (contents (stream r)))%nat ∧
  (gptr (stream r) < gptr (stream r'))%nat.
Proof.
  intros H. pose proof (steady_loop_body _ _ _ _ _ H) as [Hc _ _ _].
  unfold loop_body in H. destruct (eof (stream r)); [done|].
  apply bind_Ok in H as (token & r1 & Hb & Hd).
  apply steady_dispatch in Hd as [_ Hg _ _].
  apply read_byte_Ok in Hb as (_ & Hlt & Hp). split_and!; [done|done|lia].
Qed.

Lemma read_loop_returns fuel mr f r :
  (length (contents (stream r)) - gptr (stream r) < fuel)%nat →
  is_Some (read_loop fuel mr f r).
Proof.
  revert f r. induction fuel as [|fuel IH]; intros f r Hfuel; simpl; [lia|].
  destruct (loop_body mr f r) as [[[[] f1] r1]| |] eqn:Hstep; try done.
  apply IH. apply loop_body_progress in Hstep as (Hc & Hlt & Hp).
  rewrite Hc. lia.
Qed.

(** [read] returns, throws or runs into undefined behaviour on every file:
    the iteration bound of its two loops is never reached. *)
Theorem read_returns mr r : is_Some (read mr r).
Proof.
  unfold read. destruct (istream_read 4 (stream r)) as [magic_check s] eqn:Hm.
  destruct (fail s || _); [done|].
  assert (contents s = contents (stream r)) as Hs.
  { unfold istream_read in Hm. repeat case_match; by injection Hm as _ <-. }
  destruct (skip_header_extension _ _) as [[[[] r1]| |]|] eqn:Hh; try done.
  - apply skip_header_extension_contents in Hh. simpl in Hh.
    destruct (read_loop_returns (S (length (contents (stream r)))) mr
                (initial_frame mr) r1) as [o Ho].
    { rewrite Hh, Hs. lia. }
    rewrite Ho. destruct o as [[f r2]| |]; try done. by destruct (root f).
  - pose proof (skip_header_extension_returns (S (length (contents (stream r))))
                  (mk_AbxReader s (interned_strings r))) as [o Ho].
    { simpl. rewrite Hs. lia. }
    congruence.
Qed.

(** ** Byte runs as text: hex and base64 *)

Lemma byte_val_range b : 0 ≤ byte_val b < 256.
Proof. unfold byte_val. pose proof (Byte.to_N_bounded b). lia. Qed.

Lemma lor_pack x y k : 0 ≤ k → 0 ≤ y < 2 ^ k → Z.lor (Z.shiftl x k) y = x * 2 ^ k + y.
Proof.
  intros Hk Hy. rewrite Z.shiftl_mul_pow2 by done. symmetry.
  apply Z.add_nocarry_lor. apply Z.bits_inj'. intros n Hn.
  rewrite Z.land_spec, Z.bits_0.
  destruct (Z.lt_ge_cases n k) as [Hlt|Hge].
  - rewrite Z.mul_pow2_bits_low by done. done.
  - replace y with (y mod 2 ^ k) by (apply Z.mod_small; done).
    rewrite Z.mod_pow2_bits_high by lia. apply andb_false_r.
Qed.

Lemma triple_group a b c :
  0 ≤ a < 256 → 0 ≤ b < 256 → 0 ≤ c < 256 →
  Z.lor (Z.lor (Z.shiftl a 16) (Z.shiftl b 8)) c = a * 2 ^ 16 + b * 2 ^ 8 + c.
Proof.
  intros Ha Hb Hc.
  assert (Z.shiftl b 8 = b * 256) as Hb8 by (by rewrite Z.shiftl_mul_pow2).
  rewrite (lor_pack a (Z.shiftl b 8) 16); [|done|rewrite Hb8; lia].
  rewrite Hb8.
  replace (a * 2 ^ 16 + b * 256) with (Z.shiftl (a * 256 + b) 8)
    by (rewrite Z.shiftl_mul_pow2; lia).
  rewrite lor_pack; lia.
Qed.

Lemma sextet_of_triple group k :
  0 ≤ k →
  base64_char (Z.land (Z.shiftr group (6 * k)) 63) = sextet group k.
Proof.
  intros Hk.
  assert (Z.land (Z.shiftr group (6 * k)) 63 = (group / 64 ^ k) mod 64) as Hidx.
  { change 63 with (Z.ones 6). rewrite Z.land_ones by done.
    rewrite Z.shiftr_div_pow2 by lia.
    rewrite Z.pow_mul_r by lia. done. }
  unfold sextet, base64_char. rewrite Hidx.
  pose proof (Z.mod_pos_bound (group / 64 ^ k) 64 eq_refl) as Hr.
  generalize dependent ((group / 64 ^ k) mod 64). intros i _ Hi.
  assert (Z.to_nat i < 64)%nat as Hn by lia.
  generalize dependent (Z.to_nat i). clear. intros n Hn.
  do 64 (destruct n as [|n]; [reflexivity|]). lia.
Qed.

Lemma at_index_app pre bs k : at_index (pre ++ bs) (length pre + k) = at_index bs k.
Proof.
  unfold at_index. rewrite lookup_app_r by lia.
  by replace (length pre + k - length pre)%nat with k by lia.
Qed.

Lemma string_app_cons x (s t : string) : String x s +:+ t = String x (s +:+ t).
Proof. reflexivity. Qed.

Lemma string_app_nil_r (s : string) : s +:+ "" = s.
Proof. induction s as [|x s IH]; [done|]. by rewrite string_app_cons, IH. Qed.

Lemma string_app_assoc (s t u : string) : (s +:+ t) +:+ u = s +:+ (t +:+ u).
Proof. induction s as [|x s IH]; [done|]. by rewrite !string_app_cons, IH. Qed.

Lemma at_index_0 pre b bs : at_index (pre ++ b :: bs) (length pre) = byte_val b.
Proof.
  pose proof (at_index_app pre (b :: bs) 0) as H.
  by rewrite Nat.add_0_r in H.
Qed.

Lemma at_index_1 pre a b bs : at_index (pre ++ a :: b :: bs) (length pre + 1) = byte_val b.
Proof. by rewrite at_index_app. Qed.

Lemma at_index_2 pre a b c bs :
  at_index (pre ++ a :: b :: c :: bs) (length pre + 2) = byte_val c.
Proof. by rewrite at_index_app. Qed.

Lemma sextet_3 group : base64_char (Z.land (Z.shiftr group 18) 63) = sextet group 3.
Proof. by apply (sextet_of_triple group 3). Qed.

Lemma sextet_2 group : base64_char (Z.land (Z.shiftr group 12) 63) = sextet group 2.
Proof. by apply (sextet_of_triple group 2). Qed.

Lemma sextet_1 group : base64_char (Z.land (Z.shiftr group 6) 63) = sextet group 1.
Proof. by apply (sextet_of_triple group 1). Qed.

Lemma sextet_0 group : base64_char (Z.land group 63) = sextet group 0.
Proof. rewrite <- (sextet_of_triple group 0) by done. by rewrite Z.shiftr_0_r. Qed.

Ltac loop_decide :=
  repeat first [ rewrite decide_True by lia | rewrite decide_False by lia ].

(** One iteration of the loop on a full group, and on the two short
    final groups. *)
Lemma base64_loop_three pre a b c rest encoded :
  base64_loop (pre ++ a :: b :: c :: rest) (length (pre ++ a :: b :: c :: rest))
              (length pre) encoded
  = base64_loop (pre ++ a :: b :: c :: rest) (length (pre ++ a :: b :: c :: rest))
                (length pre + 3)
                (let group := byte_val a * 2 ^ 16 + byte_val b * 2 ^ 8 + byte_val c in
                 encoded +:+ String (sextet group 3) (String (sextet group 2)
                   (String (sextet group 1) (String (sextet group 0) "")))).
Proof.
  match goal with |- _ = ?R => set (rhs := R) end.
  simp base64_loop. rewrite length_app. simpl length.
  destruct (decide _) as [Hlt|Hge]; [|lia]. simpl. loop_decide.
  rewrite at_index_0, at_index_1, at_index_2.
  rewrite triple_group by apply byte_val_range.
  rewrite sextet_3, sextet_2, sextet_1, sextet_0.
  subst rhs. rewrite length_app. simpl length.
  unfold push_char. by rewrite !string_app_assoc.
Qed.

Lemma base64_loop_two pre a b encoded :
  base64_loop (pre ++ [a; b]) (length (pre ++ [a; b])) (length pre) encoded
  = let group := byte_val a * 2 ^ 16 + byte_val b * 2 ^ 8 in
    encoded +:+ String (sextet group 3) (String (sextet group 2)
      (String (sextet group 1) "=")).
Proof.
  simp base64_loop. rewrite length_app. simpl length.
  destruct (decide _) as [Hlt|Hge]; [|lia]. simpl. loop_decide.
  rewrite at_index_0, at_index_1, Z.lor_0_r.
  rewrite <- (Z.lor_0_r (Z.lor _ _)).
  rewrite (triple_group _ _ 0), Z.add_0_r by (apply byte_val_range || done).
  rewrite sextet_3, sextet_2, sextet_1.
  simp base64_loop. destruct (decide _) as [Hlt'|Hge']; [lia|]. simpl.
  unfold push_char. by rewrite !string_app_assoc.
Qed.

Lemma base64_loop_one pre a encoded :
  base64_loop (pre ++ [a]) (length (pre ++ [a])) (length pre) encoded
  = let group := byte_val a * 2 ^ 16 in
    encoded +:+ String (sextet group 3) (String (sextet group 2) "==").
Proof.
  simp base64_loop. rewrite length_app. simpl length.
  destruct (decide _) as [Hlt|Hge]; [|lia]. simpl. loop_decide.
  rewrite at_index_0, !Z.lor_0_r, Z.shiftl_mul_pow2 by done.
  rewrite sextet_3, sextet_2.
  simp base64_loop. destruct (decide _) as [Hlt'|Hge']; [lia|]. simpl.
  unfold push_char. by rewrite !string_app_assoc.
Qed.

(** The loop of [base64_encode], entered at index [length pre] with the
    text [encoded] built so far, appends the RFC 4648 text of the bytes
    that remain. *)
Lemma base64_loop_rfc4648 bs : ∀ pre encoded,
  base64_loop (pre ++ bs) (length (pre ++ bs)) (length pre) encoded
  = encoded +:+ rfc4648_base64 bs.
Proof.
  remember (length bs) as n eqn:Hn. revert bs Hn.
  induction (lt_wf n) as [n _ IH]. intros bs Hn pre encoded.
  destruct bs as [|a [|b [|c rest]]].
  - rewrite app_nil_r. simp base64_loop.
    destruct (decide _) as [Hlt|Hge]; [lia|]. simpl. by rewrite string_app_nil_r.
  - by rewrite base64_loop_one.
  - by rewrite base64_loop_two.
  - rewrite base64_loop_three. cbv zeta.
    replace (pre ++ a :: b :: c :: rest) with ((pre ++ [a; b; c]) ++ rest)
      by (by rewrite <- app_assoc).
    replace (length pre + 3)%nat with (length (pre ++ [a; b; c]))
      by (rewrite length_app; simpl; lia).
    rewrite (IH (length rest)); [|simpl in Hn; lia|done].
    by rewrite string_app_assoc.
Qed.

(** [base64_encode] computes the RFC 4648 encoding of the buffer. *)
Lemma base64_encode_rfc4648 bs : base64_encode bs (length bs) = rfc4648_base64 bs.
Proof. apply (base64_loop_rfc4648 bs [] ""). Qed.

Lemma hex_pair_of_stream b : pad_left 2 "0" (to_hex 32 (byte_val b)) = hex_pair b.
Proof. destruct b; reflexivity. Qed.

Lemma hex_encode_loop bs ss :
  fold_left (fun ss b => ss +:+ pad_left 2 "0"%char (to_hex 32 (byte_val b))) bs ss
  = ss +:+ spec_hex bs.
Proof.
  revert ss. induction bs as [|b bs IH]; intros ss; simpl.
  - by rewrite string_app_nil_r.
  - by rewrite IH, hex_pair_of_stream, string_app_assoc.
Qed.

(** The TYPE_BYTES_HEX loop writes two lowercase digits per byte. *)
Lemma hex_encode_spec bs : hex_encode bs = spec_hex bs.
Proof. apply hex_encode_loop. Qed.

Lemma spec_hex_length bs : String.length (spec_hex bs) = (2 * length bs)%nat.
Proof.
  induction bs as [|b bs IH]; [done|].
  cbn [spec_hex]. unfold hex_pair. rewrite !string_app_cons. cbn [String.length].
  simpl length. change ("" +:+ spec_hex bs) with (spec_hex bs). lia.
Qed.

(** ** The transitions of the decoder on its frame *)

Lemma lift_Ok {A} (o : outcome A) r a r' : lift o r = Ok (a, r') ↔ o = Ok a ∧ r' = r.
Proof.
  unfold lift. destruct o as [x| |]; split; intros H; try done.
  - by injection H as -> ->.
  - by destruct H as [[= ->] ->].
  - by destruct H.
  - by destruct H.
Qed.

Ltac inv_M H :=
  repeat match type of H with
  | bind _ _ _ = Ok _ =>
      let a := fresh "a" in let r := fresh "r" in let Ha := fresh "Ha" in
      apply bind_Ok in H as (a & r & Ha & H)
  | (if ?b then _ else _) _ = Ok _ =>
      let Hb := fresh "Hb" in destruct b eqn:Hb
  | throw _ _ = Ok _ => discriminate H
  end.

Lemma dispatch_frame_step mr token f r c f' r' :
  dispatch mr token f r = Ok ((c, f'), r') → frame_step mr f c f'.
Proof.
  unfold dispatch. intros H. inv_M H;
    repeat match goal with
    | H : ret _ _ = Ok _ |- _ => injection H as ? ?; subst
    | H : lift _ _ = Ok _ |- _ => apply lift_Ok in H as [? ?]; subst
    | H : bind _ _ _ = Ok _ |- _ => inv_M H
    | H : negb _ = false |- _ => apply negb_false_iff in H
    end;
    eauto using frame_step.
Qed.

Lemma loop_body_frame_step mr f r c f' r' :
  loop_body mr f r = Ok ((c, f'), r') → frame_step mr f c f'.
Proof.
  unfold loop_body. destruct (eof (stream r)).
  - intros [= <- <- <-]. constructor.
  - intros (token & r1 & _ & H)%bind_Ok. by eapply dispatch_frame_step.
Qed.

(** The loop leaves through [break] with the frame as it found it. *)
Lemma frame_step_break mr f f' : frame_step mr f Break f' → f' = f.
Proof. by inversion 1. Qed.

(** ** The open-element stack is the ancestor chain *)

Lemma chain_bounds h p stack :
  heap_ordered h → chain h p stack → Forall (λ x, (p < x < length h)%nat) stack.
Proof.
  intros Hh. revert p. induction stack as [|c rest IH]; intros p; simpl; [done|].
  intros [(e & He & Hl) Hc]. apply last_Some_elem_of in Hl.
  pose proof (Hh _ _ _ He Hl) as Hpc. constructor; [done|].
  eapply Forall_impl; [by apply IH|]. simpl. lia.
Qed.

Lemma chain_top_ge h p stack top :
  heap_ordered h → chain h p stack → last (p :: stack) = Some top → (p ≤ top)%nat.
Proof.
  intros Hh Hc Hl. apply chain_bounds in Hc; [|done].
  destruct stack as [|c rest]; [by injection Hl as ->|].
  rewrite last_cons_cons in Hl. apply last_Some_elem_of in Hl.
  rewrite Forall_forall in Hc. specialize (Hc _ Hl). lia.
Qed.

Lemma chain_agree h h' p stack :
  (∀ q, (q < length h)%nat → children <$> h' !! q = children <$> h !! q) →
  chain h p stack → chain h' p stack.
Proof.
  intros Hq. revert p. induction stack as [|c rest IH]; intros p; simpl; [done|].
  intros [(e & He & Hl) Hc]. split; [|by apply IH].
  specialize (Hq p (lookup_lt_Some _ _ _ He)). rewrite He in Hq. simpl in Hq.
  destruct (h' !! p) as [e'|]; [|done]. injection Hq as Hq.
  exists e'. by rewrite Hq.
Qed.

Lemma chain_push h p stack top n :
  heap_ordered h → chain h p stack → last (p :: stack) = Some top →
  (top < length h)%nat →
  chain (alter (add_child n) top h) p (stack ++ [n]).
Proof.
  intros Hh. revert p. induction stack as [|c rest IH]; intros p Hc Hl Htop.
  - injection Hl as ->. simpl. split; [|done].
    destruct (lookup_lt_is_Some_2 h top Htop) as [e He].
    exists (add_child n e). rewrite list_lookup_alter_eq, He. split; [done|].
    simpl. apply last_snoc.
  - rewrite last_cons_cons in Hl. destruct Hc as [(e & He & Hlc) Hc].
    simpl. split; [|by apply IH].
    exists e. split; [|done].
    rewrite list_lookup_alter_ne; [done|].
    pose proof (chain_top_ge _ _ _ _ Hh Hc Hl).
    apply last_Some_elem_of in Hlc. pose proof (Hh _ _ _ He Hlc). lia.
Qed.

Lemma chain_removelast h p stack : chain h p stack → chain h p (removelast stack).
Proof.
  revert p. induction stack as [|c rest IH]; intros p; [done|].
  intros [He Hc]. destruct rest as [|c' rest]; [done|].
  change (removelast (c :: c' :: rest)) with (c :: removelast (c' :: rest)).
  split; [done|by apply IH].
Qed.

Lemma heap_ordered_alloc h tag_name :
  heap_ordered h → heap_ordered (h ++ [new_XMLElement tag_name]).
Proof.
  intros Hh p e c He Hc. rewrite length_app. simpl.
  apply lookup_app_Some in He as [He|[_ He]].
  - pose proof (Hh _ _ _ He Hc). lia.
  - apply list_lookup_singleton_Some in He as [_ <-]. simpl in Hc. by apply elem_of_nil in Hc.
Qed.

Lemma heap_ordered_add_child h top n :
  heap_ordered h → (top < n < length h)%nat →
  heap_ordered (alter (add_child n) top h).
Proof.
  intros Hh Hn p e c He Hc. rewrite length_alter.
  destruct (decide (top = p)) as [->|Hne].
  - rewrite list_lookup_alter_eq in He.
    destruct (h !! p) as [e0|] eqn:He0; [|done]. injection He as <-.
    simpl in Hc. apply elem_of_app in Hc as [Hc|Hc].
    + by apply (Hh _ _ _ He0).
    + apply list_elem_of_singleton in Hc as ->. done.
  - rewrite list_lookup_alter_ne in He by done. by apply (Hh _ _ _ He).
Qed.

Lemma heap_ordered_alter h g top :
  (∀ e, children (g e) = children e) →
  heap_ordered h → heap_ordered (alter g top h).
Proof.
  intros Hg Hh p e c He Hc. rewrite length_alter.
  destruct (decide (top = p)) as [->|Hne].
  - rewrite list_lookup_alter_eq in He.
    destruct (h !! p) as [e0|] eqn:He0; [|done]. injection He as <-.
    rewrite Hg in Hc. by apply (Hh _ _ _ He0).
  - rewrite list_lookup_alter_ne in He by done. by apply (Hh _ _ _ He).
Qed.

Lemma children_alter (h : list XMLElement) g (top q : nat) :
  (∀ e, children (g e) = children e) →
  children <$> alter g top h !! q = children <$> h !! q.
Proof.
  intros Hg. destruct (decide (top = q)) as [->|Hne].
  - rewrite list_lookup_alter_eq. destruct (h !! q); simpl; [by rewrite Hg|done].
  - by rewrite list_lookup_alter_ne.
Qed.

(** [element_stack.back()->...] on fields other than [children] keeps the
    frame well formed. *)
Lemma on_back_wf g f f' :
  (∀ e, children (g e) = children e) →
  frame_wf f → on_back g f = Ok f' →
  frame_wf f' ∧ element_stack f' = element_stack f ∧ root f' = root f ∧
  length (heap f') = length (heap f).
Proof.
  intros Hg [Hh Hr Hc]. unfold on_back.
  destruct (last (element_stack f)) as [top|]; [|done]. intros [= <-]. simpl.
  split_and!; [|done|done|by rewrite length_alter].
  split; simpl.
  - by apply heap_ordered_alter.
  - intros b Hb. rewrite length_alter. by apply Hr.
  - unfold ancestor_chain in *. simpl. destruct (element_stack f) as [|b rest]; [done|].
    destruct Hc as [Hb Hc]. split; [done|].
    eapply chain_agree; [|done]. intros q _. by apply children_alter.
Qed.

Lemma start_tag_Ok tag_name f f' :
  start_tag tag_name f = Ok f' →
  element_stack f' = element_stack f ++ [length (heap f)] ∧
  length (heap f') = S (length (heap f)) ∧
  root f' = (if bool_decide (element_stack f = []) then Some (length (heap f)) else root f) ∧
  (frame_wf f → frame_wf f').
Proof.
  unfold start_tag. case_bool_decide as Hs.
  - intros [= <-]. simpl. rewrite length_app. simpl. split_and!; [done|lia|done|].
    intros [Hh Hr Hc]. split; simpl.
    + by apply heap_ordered_alloc.
    + intros b [= <-]. rewrite length_app. simpl. lia.
    + unfold ancestor_chain. simpl. by rewrite Hs.
  - unfold on_back. simpl.
    destruct (last (element_stack f)) as [top|] eqn:Hl; [|done].
    intros [= <-]. simpl. rewrite length_alter, length_app. simpl.
    split_and!; [done|lia|done|].
    intros [Hh Hr Hc]. unfold ancestor_chain in Hc.
    destruct (element_stack f) as [|b rest] eqn:Hst; [done|]. destruct Hc as [Hb Hc].
    assert (top < length (heap f))%nat as Htop.
    { pose proof (chain_bounds _ _ _ Hh Hc) as Hall. specialize (Hr _ Hb).
      destruct rest as [|c rest']; [by injection Hl as <-|].
      rewrite last_cons_cons in Hl. apply last_Some_elem_of in Hl.
      rewrite Forall_forall in Hall. specialize (Hall _ Hl). lia. }
    split; simpl.
    + apply heap_ordered_add_child; [by apply heap_ordered_alloc|].
      rewrite length_app. simpl. lia.
    + intros b' Hb'. rewrite length_alter, length_app. simpl.
      specialize (Hr _ Hb'). lia.
    + unfold ancestor_chain. simpl. split; [done|].
      apply chain_push; [by apply heap_ordered_alloc| |done|].
      * eapply chain_agree; [|done]. intros q Hq. by rewrite lookup_app_l.
      * rewrite length_app. simpl. lia.
Qed.

Lemma end_tag_Ok tag_name f f' :
  end_tag tag_name f = Ok f' →
  (∃ top, back_element f = Some top ∧ tag top = tag_name) ∧
  element_stack f' = removelast (element_stack f) ∧
  heap f' = heap f ∧ root f' = root f.
Proof.
  unfold end_tag. destruct (back_element f) as [top|]; [|done].
  case_bool_decide as Ht; [done|]. intros [= <-]. simpl.
  split_and!; try done. exists top. split; [done|].
  by destruct (decide (tag top = tag_name)).
Qed.

Lemma on_back_Ok g f f' :
  (∀ e, children (g e) = children e) →
  on_back g f = Ok f' →
  element_stack f' = element_stack f ∧ root f' = root f ∧
  length (heap f') = length (heap f) ∧ (frame_wf f → frame_wf f').
Proof.
  intros Hg Hon. split_and!.
  - unfold on_back in Hon. destruct (last _); [|done]. by injection Hon as <-.
  - unfold on_back in Hon. destruct (last _); [|done]. by injection Hon as <-.
  - unfold on_back in Hon. destruct (last _); [|done]. injection Hon as <-.
    simpl. by rewrite length_alter.
  - intros Hwf. by destruct (on_back_wf g f f' Hg Hwf Hon) as [? _].
Qed.

Lemma text_token_Ok value f f' :
  text_token value f = Ok f' →
  element_stack f' = element_stack f ∧ root f' = root f ∧
  length (heap f') = length (heap f) ∧ (frame_wf f → frame_wf f').
Proof.
  unfold text_token. destruct (all_of isspace value); [by intros [= <-]|].
  case_bool_decide; [done|]. destruct (back_element f) as [top|]; [|done].
  case_bool_decide; by apply on_back_Ok.
Qed.

Lemma frame_step_wf mr f c f' : frame_wf f → frame_step mr f c f' → frame_wf f'.
Proof.
  intros Hwf Hstep. inversion Hstep; subst; try done.
  - destruct Hwf as [Hh Hr Hc]. by split.
  - by eapply start_tag_Ok.
  - match goal with H : end_tag _ _ = _ |- _ =>
      apply end_tag_Ok in H as (_ & Hs & Hhp & Hrt) end.
    destruct Hwf as [Hh Hr Hc]. split.
    + by rewrite Hhp.
    + rewrite Hhp, Hrt. done.
    + unfold ancestor_chain in *. rewrite Hs, Hhp, Hrt.
      destruct (element_stack f) as [|b rest]; [done|].
      destruct rest as [|c' rest]; [done|].
      change (removelast (b :: c' :: rest)) with (b :: removelast (c' :: rest)).
      destruct Hc as [Hb Hc]. split; [done|]. by apply chain_removelast.
  - by eapply text_token_Ok.
  - by eapply (on_back_Ok (set_attrib name value)).
Qed.

Lemma frame_step_heap_length mr f c f' :
  frame_step mr f c f' → (length (heap f) ≤ length (heap f'))%nat.
Proof.
  intros Hstep. inversion Hstep; subst; simpl; try done.
  - match goal with H : start_tag _ _ = _ |- _ =>
      apply start_tag_Ok in H as (_ & -> & _) end. lia.
  - match goal with H : end_tag _ _ = _ |- _ =>
      apply end_tag_Ok in H as (_ & _ & -> & _) end. done.
  - match goal with H : text_token _ _ = _ |- _ =>
      apply text_token_Ok in H as (_ & _ & -> & _) end. done.
  - match goal with H : on_back _ _ = _ |- _ =>
      apply (on_back_Ok (set_attrib name value)) in H as (_ & _ & -> & _) end; done.
Qed.

Lemma initial_frame_wf mr : frame_wf (initial_frame mr).
Proof.
  destruct mr; split; simpl; try done.
  - intros p e c He Hc. apply list_lookup_singleton_Some in He as [_ <-].
    by apply elem_of_nil in Hc.
  - intros b [= <-]. lia.
Qed.

(** ** The states of a decode *)

Lemma after_invariant (P : frame → AbxReader → Prop) mr :
  (∀ f r f' r', P f r → loop_body mr f r = Ok ((Continue, f'), r') → P f' r') →
  ∀ n f0 r0 f r, P f0 r0 → after n mr f0 r0 = Some (f, r) → P f r.
Proof.
  intros Hstep. induction n as [|n IH]; intros f0 r0 f r H0; simpl.
  - by intros [= <- <-].
  - destruct (loop_body mr f0 r0) as [[[[] f1] r1]| |] eqn:Hb; try done.
    apply IH. by eapply Hstep.
Qed.

Lemma after_wf n mr f0 r0 f r :
  frame_wf f0 → after n mr f0 r0 = Some (f, r) → frame_wf f.
Proof.
  apply (after_invariant (λ f _, frame_wf f)).
  intros f1 r1 f2 r2 Hwf Hb. eapply frame_step_wf; [done|].
  by eapply loop_body_frame_step.
Qed.

(** The loop of [read] ends in a state it reached by iterating, and leaves
    the frame of that state untouched. *)
Lemma read_loop_after fuel mr f0 r0 f r :
  read_loop fuel mr f0 r0 = Some (Ok (f, r)) →
  ∃ n r1, after n mr f0 r0 = Some (f, r1) ∧ loop_body mr f r1 = Ok ((Break, f), r).
Proof.
  revert f0 r0. induction fuel as [|fuel IH]; intros f0 r0; simpl; [done|].
  destruct (loop_body mr f0 r0) as [[[[] f1] r1]| |] eqn:Hb; try done.
  - intros (n & r2 & Ha & Hl)%IH. exists (S n), r2. simpl. by rewrite Hb.
  - intros [= <- <-].
    pose proof (loop_body_frame_step _ _ _ _ _ _ Hb) as ->%frame_step_break.
    by exists 0%nat, r0.
Qed.

(** What [read] returns is the root and the heap of a state of the loop. *)
Lemma read_result_reachable mr r rt h :
  read mr r = Some (Ok (rt, h)) →
  ∃ n r1 f r2, after n mr (initial_frame mr) r1 = Some (f, r2) ∧
               root f = Some rt ∧ heap f = h.
Proof.
  unfold read. destruct (istream_read 4 (stream r)) as [magic_check s].
  destruct (fail s || _); [done|].
  destruct (skip_header_extension _ _) as [[[[] r1]| |]|]; try done.
  destruct (read_loop _ _ _ _) as [[[f r2]| |]|] eqn:Hl; try done.
  destruct (root f) as [rt'|] eqn:Hr; [|done]. intros [= <- <-].
  apply read_loop_after in Hl as (n & r3 & Ha & _). by exists n, r1, f, r3.
Qed.

(** * The properties of the specification *)

(** ** Whitespace-only text *)

(** C6. A TEXT token whose length-prefixed run is made of whitespace only
    (the empty run included) ends the iteration with the frame exactly as it
    was: no element's text (nor anything else in the heap) changes, and no
    exception is raised, whatever the stack holds, the empty stack included:
    the whitespace test comes before the test of the stack. *)
Theorem whitespace_text_discarded mr f r token r1 value r2 :
  read_byte r = Ok (token, r1) →
  Z.land token 15 = TEXT →
  read_string_raw r1 = Ok (value, r2) →
  all_of isspace value = true →
  loop_body mr f r = Ok ((Continue, f), r2).
Proof.
  intros Hb Hk Hraw Hws. unfold loop_body.
  pose proof (read_byte_Ok _ _ _ Hb) as (Heof%good_not_eof & _). rewrite Heof.
  unfold bind at 1. rewrite Hb. unfold dispatch. rewrite Hk. simpl.
  unfold bind at 1. rewrite Hraw. unfold bind, lift, text_token. by rewrite Hws.
Qed.

Lemma whitespace_text_discarded_witness :
  read_byte whitespace_text_reader = Ok (4, at_gptr 1 whitespace_text_reader) ∧
  Z.land 4 15 = TEXT ∧
  read_string_raw (at_gptr 1 whitespace_text_reader)
    = Ok (String " " (String "010" ""), at_gptr 5 whitespace_text_reader) ∧
  all_of isspace (String " " (String "010" "")) = true ∧
  loop_body false (initial_frame false) whitespace_text_reader
    = Ok ((Continue, initial_frame false), at_gptr 5 whitespace_text_reader).
Proof.
  split_and!; [reflexivity..|].
  apply (whitespace_text_discarded false (initial_frame false) whitespace_text_reader
           4 (at_gptr 1 whitespace_text_reader) (String " " (String "010" ""))
           (at_gptr 5 whitespace_text_reader)); reflexivity.
Defined.

(** Text that is not all whitespace, met with the stack empty, is refused. *)
Lemma text_outside_element mr f r token r1 value r2 :
  read_byte r = Ok (token, r1) →
  Z.land token 15 = TEXT →
  read_string_raw r1 = Ok (value, r2) →
  all_of isspace value = false →
  element_stack f = [] →
  loop_body mr f r = Throw (AbxDecodeError "Unexpected TEXT outside of element").
Proof.
  intros Hb Hk Hraw Hws Hs. unfold loop_body.
  pose proof (read_byte_Ok _ _ _ Hb) as (Heof%good_not_eof & _). rewrite Heof.
  unfold bind at 1. rewrite Hb. unfold dispatch. rewrite Hk. simpl.
  unfold bind at 1. rewrite Hraw. unfold bind, lift, text_token. by rewrite Hws, Hs.
Qed.

(** ** The intern table *)

Lemma keeps_table_ret {A} (a : A) : keeps_table (ret a).
Proof. by intros r a' r' [= _ <-]. Qed.

Lemma keeps_table_bind {A B} (m : M A) (k : A → M B) :
  keeps_table m → (∀ a, keeps_table (k a)) → keeps_table (x <- m;; k x).
Proof.
  intros Hm Hk r b r' (a & r1 & H1 & H2)%bind_Ok.
  rewrite (Hk _ _ _ _ H2). by eapply Hm.
Qed.

Lemma keeps_table_stream_read n what : keeps_table (stream_read n what).
Proof. by intros r buf r' (_ & _ & _ & ->)%stream_read_Ok. Qed.

Lemma keeps_table_read_short : keeps_table read_short.
Proof.
  apply keeps_table_bind; [apply keeps_table_stream_read|intros; apply keeps_table_ret].
Qed.

Lemma keeps_table_read_string_raw : keeps_table read_string_raw.
Proof.
  apply keeps_table_bind; [|intros length; apply keeps_table_bind].
  - apply keeps_table_bind; [apply keeps_table_stream_read|intros; apply keeps_table_ret].
  - apply keeps_table_stream_read.
  - intros; apply keeps_table_ret.
Qed.

(** The two ways [read_interned_string] returns. *)
Lemma read_interned_string_Ok r value r' :
  read_interned_string r = Ok (value, r') →
  ∃ reference r1, read_short r = Ok (reference, r1) ∧
    ((reference = -1 ∧ ∃ r2, read_string_raw r1 = Ok (value, r2) ∧
        r' = mk_AbxReader (stream r2) (interned_strings r ++ [value])) ∨
     (reference ≠ -1 ∧ r' = r1 ∧
        interned_strings r !! Z.to_nat (to_unsigned 64 reference) = Some value)).
Proof.
  unfold read_interned_string. intros (reference & r1 & Hs & H)%bind_Ok.
  exists reference, r1. split; [done|].
  pose proof (keeps_table_read_short _ _ _ Hs) as Ht1.
  destruct (Z.eqb_spec reference (-1)) as [->|Hne].
  - left. split; [done|].
    apply bind_Ok in H as (v & r2 & Hraw & H).
    apply bind_Ok in H as ([] & r3 & [= <-] & [= <- <-]).
    exists r2. split; [done|].
    by rewrite (keeps_table_read_string_raw _ _ _ Hraw), Ht1.
  - right. split; [done|]. unfold index_interned in H. rewrite Ht1 in H.
    destruct (_ <? _); [|done].
    destruct (_ !! _) as [v|]; [|done]. by injection H as -> ->.
Qed.

(** A decode begins with an empty table: [new_AbxReader] creates it empty
    and [skip_header_extension] never interns. *)
Lemma skip_header_extension_table fuel r r' :
  skip_header_extension fuel r = Some (Ok (tt, r')) →
  interned_strings r' = interned_strings r.
Proof.
  revert r. induction fuel as [|fuel IH]; intros r; simpl; [done|].
  assert (∀ c r1, skip_header_step r = Ok (c, r1) →
                  interned_strings r1 = interned_strings r) as Hstep.
  { intros c r1. revert c r1. unfold skip_header_step.
    assert (∀ off, keeps_table (seekg off)) as Hseek by (by intros off r1 a r2 [= _ <-]).
    assert (∀ n what (f : list byte → Z),
              keeps_table (val <- stream_read n what;; ret (f val))) as Hrd.
    { intros. apply keeps_table_bind; [apply keeps_table_stream_read|].
      intros; apply keeps_table_ret. }
    apply keeps_table_bind; [apply Hrd|]. intros token.
    repeat first
      [ apply keeps_table_ret
      | apply keeps_table_read_string_raw
      | apply Hseek
      | apply Hrd
      | apply keeps_table_bind; [|intros ?]
      | match goal with |- keeps_table (if ?b then _ else _) => destruct b end ]. }
  destruct (skip_header_step r) as [[[] r1]| |] eqn:Hs; try done.
  - intros H%IH. rewrite H. by eapply Hstep.
  - intros [= <-]. by eapply Hstep.
Qed.

(** C7. A call of [read_interned_string] that returns either defines
    (reference -1: exactly one entry, the value returned, is appended, at
    the index that is the size of the table before the call) or leaves the
    table as it is; either way every entry already present keeps its index
    and its value.  Over any number of iterations of the decoding loop the
    table therefore only grows at its end.  A decode starts from the empty
    table, which the header skipper does not touch, so the entries get the
    indices 0, 1, 2, ... in the order of their definition. *)
Theorem intern_table_append_only :
  (∀ r value r', read_interned_string r = Ok (value, r') →
     (∃ reference r1, read_short r = Ok (reference, r1) ∧
        (reference = -1 →
           interned_strings r' = interned_strings r ++ [value] ∧
           interned_strings r' !! length (interned_strings r) = Some value) ∧
        (reference ≠ -1 → interned_strings r' = interned_strings r)) ∧
     (∀ i s, interned_strings r !! i = Some s → interned_strings r' !! i = Some s)) ∧
  (∀ n mr f0 r0 f r, after n mr f0 r0 = Some (f, r) →
     interned_strings r0 `prefix_of` interned_strings r) ∧
  (∀ file, interned_strings (new_AbxReader file) = []) ∧
  (∀ fuel r r', skip_header_extension fuel r = Some (Ok (tt, r')) →
     interned_strings r' = interned_strings r).
Proof.
  split_and!.
  - intros r value r' H.
    apply read_interned_string_Ok in H as (reference & r1 & Hs & Hcase).
    split.
    + exists reference, r1. split; [done|].
      destruct Hcase as [[-> (r2 & _ & ->)]|[Hne [-> _]]]; simpl.
      * split; [|done]. intros _. split; [done|].
        by rewrite lookup_app_r, Nat.sub_diag.
      * split; [done|]. intros _. by apply keeps_table_read_short in Hs.
    + intros i s Hi.
      destruct Hcase as [[-> (r2 & _ & ->)]|[Hne [-> _]]]; simpl.
      * by apply lookup_app_l_Some.
      * by rewrite (keeps_table_read_short _ _ _ Hs).
  - intros n mr f0 r0 f r.
    apply (after_invariant (λ _ r, interned_strings r0 `prefix_of` interned_strings r));
      [|done].
    intros f1 r1 f2 r2 Hp Hb. etrans; [done|].
    by apply steady_loop_body in Hb as [_ _ _ Ht].
  - done.
  - apply skip_header_extension_table.
Qed.

Lemma intern_table_append_only_witness :
  read_interned_string defining_reader = Ok ("c", at_gptr 5
    (mk_AbxReader (stream defining_reader) ["a"; "b"; "c"])) ∧
  interned_strings (at_gptr 5 (mk_AbxReader (stream defining_reader) ["a"; "b"; "c"]))
    !! length (interned_strings defining_reader) = Some "c" ∧
  after 5 true (initial_frame true) (at_gptr 4 (new_AbxReader two_roots_file))
    = Some (mk_frame true false [0%nat] (Some 0%nat)
              [mk_XMLElement "root" "" ∅ [1%nat; 2%nat]; mk_XMLElement "a" "" ∅ [];
               mk_XMLElement "b" "" ∅ []],
            mk_AbxReader (mk_ifstream two_roots_file 23 false false) ["a"; "b"]) ∧
  interned_strings (at_gptr 4 (new_AbxReader two_roots_file)) `prefix_of` ["a"; "b"].
Proof.
  destruct intern_table_append_only as (Hop & Hdecode & _ & _).
  split_and!; [reflexivity| |reflexivity|].
  - destruct (Hop defining_reader "c"
                (at_gptr 5 (mk_AbxReader (stream defining_reader) ["a"; "b"; "c"]))
                eq_refl) as [(reference & r1 & Hs & Hdef & _) _].
    apply Hdef. vm_compute in Hs. by injection Hs as <- _.
  - apply (Hdecode 5%nat true (initial_frame true)
             (at_gptr 4 (new_AbxReader two_roots_file))
             (mk_frame true false [0%nat] (Some 0%nat)
                [mk_XMLElement "root" "" ∅ [1%nat; 2%nat]; mk_XMLElement "a" "" ∅ [];
                 mk_XMLElement "b" "" ∅ []])
             (mk_AbxReader (mk_ifstream two_roots_file 23 false false) ["a"; "b"])).
    reflexivity.
Defined.

Example define_third_entry :
  read_interned_string defining_reader
  = Ok ("c", mk_AbxReader (mk_ifstream [xff; xff; x00; x01; x63] 5 false false)
                          ["a"; "b"; "c"]).
Proof. reflexivity. Qed.

(** ** Resolving a reference *)

(** The value of [n] bytes is below [2 ^ (8 n)]. *)
Lemma le_value_range bs : 0 ≤ le_value bs < 2 ^ (8 * Z.of_nat (length bs)).
Proof.
  induction bs as [|b bs IH]; [done|].
  cbn [le_value]. rewrite Z.lor_comm, lor_pack by (done || apply byte_val_range).
  pose proof (byte_val_range b).
  replace (8 * Z.of_nat (length (b :: bs))) with (8 * Z.of_nat (length bs) + 8)
    by (simpl length; lia).
  rewrite Z.pow_add_r by lia. change (2 ^ 8) with 256. nia.
Qed.

Lemma read_short_range r reference r1 :
  read_short r = Ok (reference, r1) → - 2 ^ 15 ≤ reference < 2 ^ 15.
Proof.
  unfold read_short. intros (val & r' & Hval & [= <- _])%bind_Ok.
  apply stream_read_Ok in Hval as (_ & _ & Hlen & _).
  pose proof (le_value_range (rev val)) as Hr. rewrite length_rev, Hlen in Hr.
  unfold to_signed, bswap. change (2 ^ (8 * Z.of_nat 2)) with 65536 in Hr.
  change (2 ^ (16 - 1)) with 32768. change (2 ^ 16) with 65536.
  change (2 ^ 15) with 32768.
  destruct (Z.ltb_spec (le_value (rev val)) 32768); lia.
Qed.

(** Reference -1: the run that follows is read, appended and returned. *)
Lemma read_interned_define r r1 value r2 :
  read_short r = Ok (-1, r1) →
  read_string_raw r1 = Ok (value, r2) →
  read_interned_string r
  = Ok (value, mk_AbxReader (stream r2) (interned_strings r2 ++ [value])).
Proof.
  intros Hs Hraw. unfold read_interned_string, bind at 1. rewrite Hs. simpl.
  unfold bind at 1. by rewrite Hraw.
Qed.

(** A reference below the size of the table: the entry there is returned. *)
Lemma read_interned_lookup r reference r1 value :
  read_short r = Ok (reference, r1) →
  0 ≤ reference →
  interned_strings r !! Z.to_nat reference = Some value →
  read_interned_string r = Ok (value, r1).
Proof.
  intros Hs Hge Hl. unfold read_interned_string, bind at 1. rewrite Hs.
  destruct (Z.eqb_spec reference (-1)) as [->|_]; [lia|].
  unfold index_interned. rewrite (keeps_table_read_short _ _ _ Hs).
  pose proof (read_short_range _ _ _ Hs) as Hlt. change (2 ^ 15) with 32768 in Hlt.
  unfold to_unsigned. rewrite Z.mod_small by (change (2 ^ 64) with 18446744073709551616; lia).
  apply lookup_lt_Some in Hl as Hlen.
  destruct (Z.ltb_spec reference (Z.of_nat (length (interned_strings r)))); [|lia].
  by rewrite Hl.
Qed.

(** A reference that is not -1 and not below the size of the table: the
    code indexes the vector all the same, which is undefined behaviour; no
    exception is thrown. *)
Lemma read_interned_out_of_range r reference r1 :
  read_short r = Ok (reference, r1) →
  0 ≤ reference →
  (length (interned_strings r) ≤ Z.to_nat reference)%nat →
  read_interned_string r = Undefined.
Proof.
  intros Hs Hge Hl. unfold read_interned_string, bind at 1. rewrite Hs.
  destruct (Z.eqb_spec reference (-1)) as [->|_]; [lia|].
  unfold index_interned. rewrite (keeps_table_read_short _ _ _ Hs).
  pose proof (read_short_range _ _ _ Hs) as Hlt. change (2 ^ 15) with 32768 in Hlt.
  unfold to_unsigned. rewrite Z.mod_small by (change (2 ^ 64) with 18446744073709551616; lia).
  destruct (Z.ltb_spec reference (Z.of_nat (length (interned_strings r)))); [lia|done].
Qed.

(** A negative reference other than -1 is out of range as well. *)
Example negative_reference :
  read_interned_string (mk_AbxReader (open_file [xff; xfe]) ["a"]) = Undefined.
Proof. reflexivity. Qed.

(** C2. On a file whose first START_TAG names entry 5 of the still empty
    table, [read] neither returns nor throws: the unchecked
    [interned_strings[reference]] is undefined behaviour. *)
Theorem forward_reference_undefined :
  read false (new_AbxReader forward_reference_file) = Some Undefined ∧
  read true (new_AbxReader forward_reference_file) = Some Undefined ∧
  ∀ e, read false (new_AbxReader forward_reference_file) ≠ Some (Throw e).
Proof. split_and!; [reflexivity|reflexivity|]. intros e. vm_compute. discriminate. Qed.

(** ** Tokens of no known kind *)

Lemma dispatch_unknown mr token f :
  known_kind (Z.land token 15) = false →
  dispatch mr token f = (_ <- skip_unknown (Z.land token 240);; ret (Continue, f)).
Proof.
  unfold known_kind, dispatch. intros H.
  repeat (apply orb_false_iff in H as [H ?]).
  by repeat match goal with Hk : (_ =? _) = false |- _ => rewrite Hk; clear Hk end.
Qed.

(** A token of no known kind with type TYPE_NULL is refused: the guard of
    the skip tests the type against 0, and TYPE_NULL is 16. *)
Lemma unknown_null_refused mr token f r :
  known_kind (Z.land token 15) = false →
  Z.land token 240 = TYPE_NULL →
  dispatch mr token f r = Throw (AbxDecodeError "Unexpected XML type").
Proof. intros Hk Ht. rewrite dispatch_unknown by done. by rewrite Ht. Qed.

(** With the type nibble 0 it is a no-op. *)
Lemma unknown_zero_skipped mr token f r :
  known_kind (Z.land token 15) = false →
  Z.land token 240 = 0 →
  dispatch mr token f r = Ok ((Continue, f), r).
Proof. intros Hk Ht. rewrite dispatch_unknown by done. by rewrite Ht. Qed.

(** With type int, string or interned string the payload (four bytes, or
    a length-prefixed run that is not interned) is read and dropped. *)
Lemma unknown_int_skipped mr token f r v r' :
  known_kind (Z.land token 15) = false →
  Z.land token 240 = TYPE_INT →
  read_int r = Ok (v, r') →
  dispatch mr token f r = Ok ((Continue, f), r').
Proof.
  intros Hk Ht Hr. rewrite dispatch_unknown by done. rewrite Ht.
  unfold skip_unknown. simpl. unfold bind. by rewrite Hr.
Qed.

Lemma unknown_string_skipped mr token f r v r' :
  known_kind (Z.land token 15) = false →
  Z.land token 240 = TYPE_STRING ∨ Z.land token 240 = TYPE_STRING_INTERNED →
  read_string_raw r = Ok (v, r') →
  dispatch mr token f r = Ok ((Continue, f), r').
Proof.
  intros Hk Ht Hr. rewrite dispatch_unknown by done.
  destruct Ht as [-> | ->]; unfold skip_unknown; simpl; unfold bind; by rewrite Hr.
Qed.

(** Every other type is refused. *)
Lemma unknown_other_refused mr token f r :
  known_kind (Z.land token 15) = false →
  Z.land token 240 ≠ 0 →
  Z.land token 240 ≠ TYPE_INT →
  Z.land token 240 ≠ TYPE_STRING →
  Z.land token 240 ≠ TYPE_STRING_INTERNED →
  dispatch mr token f r = Throw (AbxDecodeError "Unexpected XML type").
Proof.
  intros Hk H0 H1 H2 H3. rewrite dispatch_unknown by done.
  unfold skip_unknown, bind.
  destruct (Z.eqb_spec (Z.land token 240) 0); [done|].
  destruct (Z.eqb_spec (Z.land token 240) TYPE_INT); [done|].
  destruct (Z.eqb_spec (Z.land token 240) TYPE_STRING); [done|].
  destruct (Z.eqb_spec (Z.land token 240) TYPE_STRING_INTERNED); [done|].
  done.
Qed.

(** C5. A token of kind 5 and type TYPE_NULL in front of a well-formed
    document makes [read] throw "Unexpected XML type"; the same token with
    the type nibble 0 is skipped and the document is decoded. *)
Theorem unknown_null_token_throws :
  decode false null_unknown_file = Some (Throw (AbxDecodeError "Unexpected XML type")) ∧
  decode true null_unknown_file = Some (Throw (AbxDecodeError "Unexpected XML type")) ∧
  decode false zero_unknown_file = Some (Ok (Some (Node "a" "" [] []))).
Proof. split_and!; reflexivity. Qed.

(** ** The end of the input *)

(** With the stream at the end of the file and [eofbit] clear, the
    iteration fails in [read_byte]. *)
Lemma token_boundary_exhausted mr f r :
  eof (stream r) = false →
  (length (contents (stream r)) ≤ gptr (stream r))%nat →
  loop_body mr f r = Throw (runtime_error "Could not read byte").
Proof.
  intros Heof Hle. unfold loop_body. rewrite Heof. unfold bind.
  by rewrite read_byte_exhausted.
Qed.

Lemma after_good n mr f0 r0 f r :
  good (stream r0) = true → after n mr f0 r0 = Some (f, r) → good (stream r) = true.
Proof.
  apply (after_invariant (λ _ r, good (stream r) = true)).
  intros f1 r1 f2 r2 Hg Hb. by apply steady_loop_body in Hb as [_ _ Hgood _]; auto.
Qed.

Lemma skip_header_step_good r c r' :
  skip_header_step r = Ok (c, r') → good (stream r') = true.
Proof.
  unfold skip_header_step. intros (token & r1 & Hb & Hrest)%bind_Ok.
  pose proof (steady_read_byte _ _ _ Hb) as [_ _ Hg1 _].
  apply read_byte_Ok in Hb as (Hg & _ & Hp). specialize (Hg1 Hg).
  destruct (Z.land token 15 =? START_DOCUMENT) eqn:Hsd.
  - apply bind_Ok in Hrest as ([] & r2 & [= <-] & [= _ <-]). simpl.
    unfold seekg_cur.
    apply andb_true_iff in Hg1 as [_ Hf%negb_true_iff]. rewrite Hf.
    destruct (Z.ltb_spec (Z.of_nat (gptr (stream r1)) + -1) 0); [lia|done].
  - use_steady Hrest.
    { pose proof (Z.land_nonneg token 15).
      assert (∀ v, 0 ≤ to_unsigned 16 v) as Hu.
      { intros v. unfold to_unsigned. by apply Z.mod_pos_bound. }
      repeat first [ steady_step
                   | apply steady_seekg; [auto with lia]
                   | destruct (0 <? Z.land token 15) eqn:? ];
      auto using steady_seekg with lia. }
    destruct Hrest as [_ _ Hg2 _]. auto.
Qed.

Lemma skip_header_extension_good fuel r r' :
  skip_header_extension fuel r = Some (Ok (tt, r')) → good (stream r') = true.
Proof.
  revert r. induction fuel as [|fuel IH]; intros r; simpl; [done|].
  destruct (skip_header_step r) as [[[] r1]| |] eqn:Hs; try done.
  - apply IH.
  - intros [= <-]. by eapply skip_header_step_good.
Qed.

(** The loop is left through [break] only at the [eof()] test or at an
    END_DOCUMENT token. *)
Lemma loop_body_break mr f r f' r' :
  loop_body mr f r = Ok ((Break, f'), r') →
  eof (stream r) = true ∨
  ∃ token, read_byte r = Ok (token, r') ∧ Z.land token 15 = END_DOCUMENT.
Proof.
  unfold loop_body. destruct (eof (stream r)); [by left|]. right.
  apply bind_Ok in H as (token & r1 & Hb & H). exists token.
  unfold dispatch in H.
  destruct (Z.eqb_spec (Z.land token 15) START_DOCUMENT).
  { inv_M H. by injection H. }
  destruct (Z.eqb_spec (Z.land token 15) END_DOCUMENT) as [He|_].
  { inv_M H. by injection H as _ <-. }
  inv_M H;
    repeat match goal with
    | H : ret _ _ = Ok _ |- _ => injection H as ? ?; subst
    | H : lift _ _ = Ok _ |- _ => apply lift_Ok in H as [? ?]; subst
    | H : bind _ _ _ = Ok _ |- _ => inv_M H
    end; done.
Qed.

(** The [eof()] test of the loop never fires in [read]: whenever [read]
    returns, its loop was left at an END_DOCUMENT token. *)
Lemma read_needs_end_document mr r d :
  read mr r = Some (Ok d) →
  ∃ n r1 f r2 token r3,
    after n mr (initial_frame mr) r1 = Some (f, r2) ∧
    read_byte r2 = Ok (token, r3) ∧ Z.land token 15 = END_DOCUMENT.
Proof.
  unfold read. destruct (istream_read 4 (stream r)) as [magic_check s].
  destruct (fail s || _); [done|].
  destruct (skip_header_extension _ _) as [[[[] r1]| |]|] eqn:Hh; try done.
  destruct (read_loop _ _ _ _) as [[[f r2]| |]|] eqn:Hl; try done.
  intros _. apply skip_header_extension_good in Hh.
  apply read_loop_after in Hl as (n & r3 & Ha & Hb).
  pose proof (after_good _ _ _ _ _ _ Hh Ha) as Hg%good_not_eof.
  apply loop_body_break in Hb as [Heof|(token & Hb & Hk)]; [congruence|].
  by exists n, r1, f, r3, token, r2.
Qed.

(** C4. A file that ends right after the END_TAG of its root, with no
    END_DOCUMENT token: [read] does not leave its loop cleanly and return
    the root, it throws the read error of [read_byte].  ([stream.eof()] is
    still false when the last byte has just been read.) *)
Theorem no_end_document_throws :
  read false (new_AbxReader no_end_document_file)
    = Some (Throw (runtime_error "Could not read byte")) ∧
  read true (new_AbxReader no_end_document_file)
    = Some (Throw (runtime_error "Could not read byte")).
Proof. split; reflexivity. Qed.

(** The end of the input inside a token is a read error, too. *)
Example end_inside_token :
  read false (new_AbxReader (take 10 no_end_document_file))
    = Some (Throw (runtime_error "Could not read string")).
Proof. reflexivity. Qed.

(** ** Two top-level elements *)

(** C1. The file with the two top-level elements <a/> and <b/>: with
    [is_multi_root] false [read] does not throw, it returns the element b
    alone; with [is_multi_root] true it returns the wrapper holding both. *)
Theorem two_roots_single_mode_succeeds :
  decode false two_roots_file = Some (Ok (Some (Node "b" "" [] []))) ∧
  decode true two_roots_file
    = Some (Ok (Some (Node "root" "" [] [Node "a" "" [] []; Node "b" "" [] []]))).
Proof. split; reflexivity. Qed.

(** ** Stack discipline *)

Ltac inv_ret :=
  repeat match goal with
  | H : ret _ _ = Ok _ |- _ => injection H as ? ?; subst
  | H : lift _ _ = Ok _ |- _ => apply lift_Ok in H as [? ?]; subst
  end.

(** What an iteration does to the stack: nothing, a push of the element
    just allocated, or, at an END_TAG whose resolved name is the tag of the
    top element, a pop. *)
Lemma dispatch_stack mr token f r c f' r' :
  dispatch mr token f r = Ok ((c, f'), r') →
  element_stack f' = element_stack f ∨
  element_stack f' = element_stack f ++ [length (heap f)] ∨
  (Z.land token 15 = END_TAG ∧
   ∃ top, back_element f = Some top ∧ read_interned_string r = Ok (tag top, r') ∧
          element_stack f' = removelast (element_stack f)).
Proof.
  unfold dispatch. intros H.
  destruct (Z.eqb_spec (Z.land token 15) START_DOCUMENT).
  { inv_M H. inv_ret. by left. }
  destruct (Z.eqb_spec (Z.land token 15) END_DOCUMENT).
  { inv_M H. inv_ret. by left. }
  destruct (Z.eqb_spec (Z.land token 15) START_TAG).
  { inv_M H. inv_ret.
    match goal with Hs : start_tag _ _ = _ |- _ => apply start_tag_Ok in Hs as (Hs & _) end.
    right. by left. }
  destruct (Z.eqb_spec (Z.land token 15) END_TAG).
  { inv_M H. inv_ret.
    match goal with He : end_tag _ _ = _ |- _ =>
      apply end_tag_Ok in He as ((top & Hb' & <-) & Hs & _) end.
    right. right. split; [done|]. by exists top. }
  destruct (Z.eqb_spec (Z.land token 15) TEXT).
  { inv_M H. inv_ret.
    match goal with Ht : text_token _ _ = _ |- _ =>
      apply text_token_Ok in Ht as (Hs & _) end.
    by left. }
  destruct (Z.eqb_spec (Z.land token 15) ATTRIBUTE).
  { inv_M H. inv_ret.
    match goal with Ho : on_back _ _ = _ |- _ =>
      apply on_back_Ok in Ho as (Hs & _); [|done] end.
    by left. }
  inv_M H. inv_ret. by left.
Qed.

(** An END_TAG token that passed the tests of its type and of the stack,
    and whose resolved name is not the tag of the top element. *)
Lemma end_tag_mismatch mr f r token r1 tag_name r2 top :
  read_byte r = Ok (token, r1) →
  Z.land token 15 = END_TAG →
  Z.land token 240 = TYPE_STRING_INTERNED →
  blocked mr f = false →
  read_interned_string r1 = Ok (tag_name, r2) →
  back_element f = Some top →
  tag top ≠ tag_name →
  loop_body mr f r = Throw (AbxDecodeError "Mismatched END_TAG").
Proof.
  intros Hb Hk Ht Hbl Hname Htop Hne. unfold loop_body.
  pose proof (read_byte_Ok _ _ _ Hb) as (Heof%good_not_eof & _). rewrite Heof.
  unfold bind at 1. rewrite Hb. unfold dispatch. rewrite Hk, Ht, Hbl. simpl.
  unfold bind at 1. rewrite Hname. unfold bind, lift, end_tag. rewrite Htop.
  by rewrite bool_decide_eq_true_2.
Qed.

(** C3. At every state of a decode the open-element stack, read from the
    bottom, starts at the root and goes from each element to its last
    child: the path from the root to the innermost open element.  An
    END_TAG token whose name is resolved (it has the interned-string type
    and the stack is neither empty nor down to the wrapper) and differs
    from the tag of the top element makes the iteration throw "Mismatched
    END_TAG"; and an iteration that shortens the stack was an END_TAG whose
    resolved name is the tag of the element popped. *)
Theorem stack_is_ancestor_chain n mr r0 f r :
  after n mr (initial_frame mr) r0 = Some (f, r) →
  ancestor_chain f ∧
  (∀ token r1 tag_name r2 top,
     read_byte r = Ok (token, r1) →
     Z.land token 15 = END_TAG →
     Z.land token 240 = TYPE_STRING_INTERNED →
     blocked mr f = false →
     read_interned_string r1 = Ok (tag_name, r2) →
     back_element f = Some top →
     tag top ≠ tag_name →
     loop_body mr f r = Throw (AbxDecodeError "Mismatched END_TAG")) ∧
  (∀ f' r',
     loop_body mr f r = Ok ((Continue, f'), r') →
     (length (element_stack f') < length (element_stack f))%nat →
     ∃ token r1 top,
       read_byte r = Ok (token, r1) ∧ Z.land token 15 = END_TAG ∧
       back_element f = Some top ∧
       read_interned_string r1 = Ok (tag top, r') ∧
       element_stack f' = removelast (element_stack f)).
Proof.
  intros Hafter. split_and!.
  - by destruct (after_wf _ _ _ _ _ _ (initial_frame_wf mr) Hafter).
  - intros. by eapply end_tag_mismatch.
  - intros f' r' Hbody Hlen. unfold loop_body in Hbody.
    destruct (eof (stream r)); [done|].
    apply bind_Ok in Hbody as (token & r1 & Hb & Hd).
    apply dispatch_stack in Hd as [Hs|[Hs|(Hk & top & Htop & Hname & Hs)]].
    + rewrite Hs in Hlen. lia.
    + rewrite Hs, length_app in Hlen. simpl in Hlen. lia.
    + by exists token, r1, top.
Qed.

Lemma stack_is_ancestor_chain_witness :
  after 3 false (initial_frame false) (at_gptr 4 (new_AbxReader mismatch_file))
    = Some (nested_frame,
            mk_AbxReader (mk_ifstream mismatch_file 17 false false) ["a"; "b"]) ∧
  ancestor_chain nested_frame ∧
  loop_body false nested_frame
    (mk_AbxReader (mk_ifstream mismatch_file 17 false false) ["a"; "b"])
  = Throw (AbxDecodeError "Mismatched END_TAG").
Proof.
  split; [reflexivity|].
  destruct (stack_is_ancestor_chain 3 false (at_gptr 4 (new_AbxReader mismatch_file))
              nested_frame
              (mk_AbxReader (mk_ifstream mismatch_file 17 false false) ["a"; "b"])
              eq_refl) as (Hchain & Hmismatch & _).
  split; [exact Hchain|].
  apply (Hmismatch 51
           (mk_AbxReader (mk_ifstream mismatch_file 18 false false) ["a"; "b"])
           "a"
           (mk_AbxReader (mk_ifstream mismatch_file 20 false false) ["a"; "b"])
           (mk_XMLElement "b" "" ∅ []));
    try reflexivity.
  discriminate.
Defined.

Example mismatched_end_tag :
  read false (new_AbxReader mismatch_file) = Some (Throw (AbxDecodeError "Mismatched END_TAG")).
Proof. reflexivity. Qed.

(** ** The wrapper of multi-root mode *)

Lemma blocked_wrapper rest f :
  element_stack f = 0%nat :: rest → blocked true f = false → rest ≠ [].
Proof.
  intros Hs Hb ->. unfold blocked in Hb. rewrite Hs in Hb. by vm_compute in Hb.
Qed.

Lemma frame_step_wrapper f c f' :
  wrapper_held f → frame_step true f c f' → wrapper_held f'.
Proof.
  intros Hw Hstep. inversion Hstep; subst; try done;
    destruct Hw as [[rest Hs] Hr].
  - match goal with H : start_tag _ _ = _ |- _ =>
      apply start_tag_Ok in H as (Hs' & _ & Hr' & _) end.
    rewrite Hs in Hs', Hr'. rewrite bool_decide_eq_false_2 in Hr' by done.
    split; [|congruence]. exists (rest ++ [length (heap f)]). by rewrite Hs'.
  - match goal with H : end_tag _ _ = _ |- _ =>
      apply end_tag_Ok in H as (_ & Hs' & _ & Hr') end.
    split; [|congruence].
    match goal with H : blocked _ _ = false |- _ =>
      pose proof (blocked_wrapper _ _ Hs H) as Hne end.
    exists (removelast rest). rewrite Hs', Hs. by destruct rest.
  - match goal with H : text_token _ _ = _ |- _ =>
      apply text_token_Ok in H as (Hs' & Hr' & _) end.
    split; [exists rest|]; congruence.
  - match goal with H : on_back _ _ = _ |- _ =>
      apply on_back_Ok in H as (Hs' & Hr' & _); [|done] end.
    split; [exists rest|]; congruence.
Qed.

Lemma after_wrapper n r0 f r :
  after n true (initial_frame true) r0 = Some (f, r) → wrapper_held f.
Proof.
  apply (after_invariant (λ f _, wrapper_held f)).
  - intros f1 r1 f2 r2 Hw Hb. eapply frame_step_wrapper; [done|].
    by eapply loop_body_frame_step.
  - split; [by exists []|done].
Qed.

Lemma never_throws_ret {A} e0 (a : A) : never_throws e0 (ret a).
Proof. intros r. unfold ret. discriminate. Qed.

Lemma never_throws_throw {A} e0 e : e ≠ e0 → never_throws e0 (@throw A e).
Proof. intros Hne r [= ->]. done. Qed.

Lemma never_throws_bind {A B} e0 (m : M A) (k : A → M B) :
  never_throws e0 m → (∀ a, never_throws e0 (k a)) → never_throws e0 (x <- m;; k x).
Proof.
  intros Hm Hk r. unfold bind. specialize (Hm r).
  destruct (m r) as [[a r1]|e|]; simpl; [apply Hk| |discriminate].
  intros [= ->]. by apply Hm.
Qed.

Lemma never_throws_lift {A} e0 (o : outcome A) : o ≠ Throw e0 → never_throws e0 (lift o).
Proof. intros Ho r. unfold lift. destruct o; congruence. Qed.

Lemma never_throws_stream_read what0 n what :
  never_throws (AbxDecodeError what0) (stream_read n what).
Proof.
  intros r. unfold stream_read. destruct (istream_read n (stream r)) as [buf s].
  by destruct (fail s).
Qed.

Lemma never_throws_push_back e0 value : never_throws e0 (push_back_interned value).
Proof. intros r. unfold push_back_interned. discriminate. Qed.

Lemma never_throws_index e0 reference : never_throws e0 (index_interned reference).
Proof.
  intros r. unfold index_interned. destruct (_ <? _); [|done]. by destruct (_ !! _).
Qed.

Lemma never_throws_seekg e0 off : never_throws e0 (seekg off).
Proof. intros r. unfold seekg. discriminate. Qed.

Ltac never_throws_step :=
  match goal with
  | |- never_throws _ (bind _ _) => apply never_throws_bind; [|intros ?]
  | |- never_throws _ (if ?b then _ else _) => destruct b
  | |- never_throws _ (ret _) => apply never_throws_ret
  | |- never_throws _ (throw _) => apply never_throws_throw; discriminate
  | |- never_throws _ (stream_read _ _) => apply never_throws_stream_read
  | |- never_throws _ (push_back_interned _) => apply never_throws_push_back
  | |- never_throws _ (index_interned _) => apply never_throws_index
  | |- never_throws _ (seekg _) => apply never_throws_seekg
  end.

Ltac never_throws_auto := repeat never_throws_step.

Lemma never_no_root_read_string_raw : never_throws no_root read_string_raw.
Proof. unfold read_string_raw, read_unsigned_short, no_root. never_throws_auto. Qed.

Lemma never_no_root_read_interned_string : never_throws no_root read_interned_string.
Proof.
  unfold read_interned_string, read_short. never_throws_auto;
    apply never_no_root_read_string_raw.
Qed.

Lemma never_no_root_on_back g f : on_back g f ≠ Throw no_root.
Proof. unfold on_back. by destruct (last _). Qed.

Lemma never_no_root_dispatch mr token f : never_throws no_root (dispatch mr token f).
Proof.
  unfold dispatch, attribute_value, skip_unknown, read_int, read_long, read_float,
    read_double, read_short.
  never_throws_auto;
    try apply never_no_root_read_string_raw;
    try apply never_no_root_read_interned_string;
    apply never_throws_lift.
  - unfold start_tag. case_bool_decide; [done|].
    pose proof (never_no_root_on_back (add_child (length (heap f)))
      (with_heap (heap f ++ [new_XMLElement a]) f)) as Hb.
    by destruct (on_back _ _).
  - unfold end_tag. destruct (back_element f); [|done]. by case_bool_decide.
  - unfold text_token. destruct (all_of _ _); [done|]. case_bool_decide; [done|].
    destruct (back_element f); [|done]. case_bool_decide; apply never_no_root_on_back.
  - apply never_no_root_on_back.
Qed.

Lemma never_no_root_loop_body mr f r : loop_body mr f r ≠ Throw no_root.
Proof.
  unfold loop_body. destruct (eof (stream r)); [done|].
  apply (never_throws_bind no_root read_byte (λ token, dispatch mr token f)).
  - unfold read_byte, no_root. never_throws_auto.
  - intros token. apply never_no_root_dispatch.
Qed.

Lemma never_no_root_read_loop fuel mr f r : read_loop fuel mr f r ≠ Some (Throw no_root).
Proof.
  revert f r. induction fuel as [|fuel IH]; intros f r; simpl; [done|].
  pose proof (never_no_root_loop_body mr f r) as Hb.
  destruct (loop_body mr f r) as [[[[] f1] r1]| |]; [apply IH|done|congruence|done].
Qed.

Lemma never_no_root_skip_header_step : never_throws no_root skip_header_step.
Proof.
  unfold skip_header_step, read_byte, read_int, read_long, read_float, read_double,
    read_short, no_root.
  never_throws_auto; apply never_no_root_read_string_raw.
Qed.

Lemma never_no_root_skip_header fuel r :
  skip_header_extension fuel r ≠ Some (Throw no_root).
Proof.
  revert r. induction fuel as [|fuel IH]; intros r; simpl; [done|].
  pose proof (never_no_root_skip_header_step r) as Hb.
  destruct (skip_header_step r) as [[[] r1]| |]; [apply IH|done|congruence|done].
Qed.

(** With only the wrapper on the stack an END_TAG token is refused before
    its name is read. *)
Lemma end_tag_at_wrapper f r token r1 :
  element_stack f = [0%nat] →
  read_byte r = Ok (token, r1) →
  Z.land token 15 = END_TAG →
  loop_body true f r
  = Throw (AbxDecodeError (if Z.land token 240 =? TYPE_STRING_INTERNED
                           then "Unexpected END_TAG" else "Invalid END_TAG data type")).
Proof.
  intros Hs Hb Hk. unfold loop_body.
  pose proof (read_byte_Ok _ _ _ Hb) as (Heof%good_not_eof & _). rewrite Heof.
  unfold bind at 1. rewrite Hb.
  unfold dispatch. rewrite Hk. simpl.
  destruct (Z.land token 240 =? TYPE_STRING_INTERNED); [|done]. simpl.
  unfold blocked. by rewrite Hs.
Qed.

(** C10. In multi-root mode the loop is entered with the wrapper "root"
    allocated, pushed and assigned to [root]; at every state of the decode
    it is still the bottom of the stack (so the stack is not empty) and the
    root; an END_TAG token met with only the wrapper on the stack makes the
    iteration throw; and [read] never throws "No root element found". *)
Theorem wrapper_never_popped n r0 f r :
  after n true (initial_frame true) r0 = Some (f, r) →
  initial_frame true
    = mk_frame true false [0%nat] (Some 0%nat) [new_XMLElement "root"] ∧
  (∃ rest, element_stack f = 0%nat :: rest) ∧
  root f = Some 0%nat ∧
  (∀ token r1,
     element_stack f = [0%nat] →
     read_byte r = Ok (token, r1) →
     Z.land token 15 = END_TAG →
     ∃ what, loop_body true f r = Throw (AbxDecodeError what)) ∧
  (∀ rd, read true rd ≠ Some (Throw (AbxDecodeError "No root element found"))).
Proof.
  intros Hafter. pose proof (after_wrapper _ _ _ _ Hafter) as [Hs Hr].
  split_and!; [done|done|done| |].
  - intros token r1 Hst Hb Hk. eexists. by eapply end_tag_at_wrapper.
  - intros rd. unfold read.
    destruct (istream_read 4 (stream rd)) as [magic_check s].
    destruct (fail s || _); [done|].
    pose proof (never_no_root_skip_header (S (length (contents (stream rd))))
                  (mk_AbxReader s (interned_strings rd))) as Hh.
    unfold no_root in Hh.
    destruct (skip_header_extension _ _) as [[[[] r1]| |]|];
      [|by intros [= ->]; apply Hh|done|done].
    pose proof (never_no_root_read_loop (S (length (contents (stream rd)))) true
                  (initial_frame true) r1) as Hl.
    unfold no_root in Hl.
    destruct (read_loop _ _ _ _) as [[[f2 r2]| |]|] eqn:Hloop;
      [|by intros [= ->]; apply Hl|done|done].
    apply read_loop_after in Hloop as (m & r3 & Ha & _).
    apply after_wrapper in Ha as [_ Hroot]. by rewrite Hroot.
Qed.

Lemma wrapper_never_popped_witness :
  after 3 true (initial_frame true) (at_gptr 4 (new_AbxReader stray_end_tag_file))
    = Some (mk_frame true false [0%nat] (Some 0%nat)
              [mk_XMLElement "root" "" ∅ [1%nat]; mk_XMLElement "a" "" ∅ []],
            mk_AbxReader (mk_ifstream stray_end_tag_file 14 false false) ["a"]) ∧
  ∃ what,
    loop_body true
      (mk_frame true false [0%nat] (Some 0%nat)
         [mk_XMLElement "root" "" ∅ [1%nat]; mk_XMLElement "a" "" ∅ []])
      (mk_AbxReader (mk_ifstream stray_end_tag_file 14 false false) ["a"])
    = Throw (AbxDecodeError what).
Proof.
  split; [reflexivity|].
  apply (wrapper_never_popped 3 (at_gptr 4 (new_AbxReader stray_end_tag_file))
           (mk_frame true false [0%nat] (Some 0%nat)
              [mk_XMLElement "root" "" ∅ [1%nat]; mk_XMLElement "a" "" ∅ []])
           (mk_AbxReader (mk_ifstream stray_end_tag_file 14 false false) ["a"])
           eq_refl) with (token := 51) (r1 := at_gptr 15
             (mk_AbxReader (mk_ifstream stray_end_tag_file 14 false false) ["a"]));
    reflexivity.
Defined.

Example stray_end_tag_multi_root :
  read true (new_AbxReader stray_end_tag_file)
    = Some (Throw (AbxDecodeError "Unexpected END_TAG")).
Proof. reflexivity. Qed.

(** ** A second top-level element in single-root mode *)

Lemma descendant_ge h p q : heap_ordered h → descendant h p q → (p ≤ q)%nat.
Proof.
  intros Hh. induction 1 as [|p e c q He Hc _ IH]; [done|].
  pose proof (Hh _ _ _ He Hc). lia.
Qed.

Lemma descendant_lt h p q :
  heap_ordered h → (p < length h)%nat → descendant h p q → (q < length h)%nat.
Proof.
  intros Hh Hp. induction 1 as [|p e c q He Hc _ IH]; [done|].
  apply IH. by apply (Hh _ _ _ He Hc).
Qed.

(** [root] is only ever assigned the element just allocated. *)
Lemma frame_step_root mr f c f' :
  frame_step mr f c f' → root f' = root f ∨ root f' = Some (length (heap f)).
Proof.
  intros Hstep. inversion Hstep; subst; try by left.
  - match goal with H : start_tag _ _ = _ |- _ =>
      apply start_tag_Ok in H as (_ & _ & -> & _) end.
    case_bool_decide; [by right|by left].
  - match goal with H : end_tag _ _ = _ |- _ =>
      apply end_tag_Ok in H as (_ & _ & _ & ->) end. by left.
  - match goal with H : text_token _ _ = _ |- _ =>
      apply text_token_Ok in H as (_ & -> & _) end. by left.
  - match goal with H : on_back _ _ = _ |- _ =>
      apply on_back_Ok in H as (_ & -> & _); [|done] end. by left.
Qed.

(** From a state whose root is at or above [k], in a heap longer than [k],
    every later root is at or above [k]. *)
Lemma after_root_above k m mr f1 r1 f2 r2 :
  (k < length (heap f1))%nat →
  (∀ rt, root f1 = Some rt → (k ≤ rt)%nat) →
  after m mr f1 r1 = Some (f2, r2) →
  ∀ rt, root f2 = Some rt → (k ≤ rt)%nat.
Proof.
  intros Hlen Hroot Hafter.
  cut ((k < length (heap f2))%nat ∧ ∀ rt, root f2 = Some rt → (k ≤ rt)%nat);
    [by intros [_ ?]|].
  revert Hafter.
  apply (after_invariant
           (λ f _, (k < length (heap f))%nat ∧ ∀ rt, root f = Some rt → (k ≤ rt)%nat));
    [|done].
  intros fa ra fb rb [Hl Hr] Hb. apply loop_body_frame_step in Hb.
  pose proof (frame_step_heap_length _ _ _ _ Hb). split; [lia|].
  intros rt Hrt. destruct (frame_step_root _ _ _ _ Hb) as [Heq|Heq].
  - apply Hr. congruence.
  - rewrite Heq in Hrt. injection Hrt as <-. lia.
Qed.

(** C9. Single-root mode, the stack empty and a root already assigned
    (a first top-level element was opened and closed): a START_TAG token
    does not fail.  The element it allocates becomes the only element of
    the stack and the new value of [root], different from the old one; and
    whatever the decode does from there, no element of the tree built under
    the old root is in the tree under the root it ends with. *)
Theorem second_root_replaces_first n r0 f r token r1 tag_name r2 old :
  after n false (initial_frame false) r0 = Some (f, r) →
  element_stack f = [] →
  root f = Some old →
  read_byte r = Ok (token, r1) →
  Z.land token 15 = START_TAG →
  Z.land token 240 = TYPE_STRING_INTERNED →
  read_interned_string r1 = Ok (tag_name, r2) →
  let new := length (heap f) in
  let f' := mk_frame (document_opened f) (root_closed f) [new] (Some new)
                     (heap f ++ [new_XMLElement tag_name]) in
  loop_body false f r = Ok ((Continue, f'), r2) ∧
  new ≠ old ∧
  ∀ m f'' r'' rt,
    after m false f' r2 = Some (f'', r'') →
    root f'' = Some rt →
    ∀ q, descendant (heap f) old q → ¬ descendant (heap f'') rt q.
Proof.
  intros Hafter Hs Hroot Hb Hk Ht Hname new f'.
  pose proof (after_wf _ _ _ _ _ _ (initial_frame_wf false) Hafter) as Hwf.
  assert (loop_body false f r = Ok ((Continue, f'), r2)) as Hbody.
  { unfold loop_body.
    pose proof (read_byte_Ok _ _ _ Hb) as (Hg%good_not_eof & _). rewrite Hg.
    unfold bind at 1. rewrite Hb. unfold dispatch. rewrite Hk, Ht. simpl.
    unfold bind at 1. rewrite Hname. unfold bind, lift, start_tag.
    rewrite Hs. simpl. done. }
  pose proof (wf_root _ Hwf _ Hroot) as Hold.
  split_and!; [done|subst new; lia|].
  intros m f'' r'' rt Hafter' Hrt q Hq Hq'.
  assert (frame_wf f') as Hwf'.
  { eapply frame_step_wf; [exact Hwf|]. by eapply loop_body_frame_step. }
  pose proof (after_wf _ _ _ _ _ _ Hwf' Hafter') as Hwf''.
  assert (new ≤ rt)%nat as Hge.
  { eapply (after_root_above new m false f' r2 f'' r''); [| |done|done].
    - subst f'. simpl. rewrite length_app. simpl. lia.
    - subst f'. simpl. by intros rt' [= <-]. }
  pose proof (descendant_lt _ _ _ (wf_heap _ Hwf) Hold Hq).
  pose proof (descendant_ge _ _ _ (wf_heap _ Hwf'') Hq'). subst new. lia.
Qed.

Lemma second_root_replaces_first_witness :
  after 3 false (initial_frame false) (at_gptr 4 (new_AbxReader two_roots_file))
    = Some (first_root_closed,
            mk_AbxReader (mk_ifstream two_roots_file 14 false false) ["a"]) ∧
  loop_body false first_root_closed
    (mk_AbxReader (mk_ifstream two_roots_file 14 false false) ["a"])
  = Ok ((Continue,
         mk_frame true true [1%nat] (Some 1%nat)
           [mk_XMLElement "a" "" ∅ []; mk_XMLElement "b" "" ∅ []]),
        mk_AbxReader (mk_ifstream two_roots_file 20 false false) ["a"; "b"]).
Proof.
  split; [reflexivity|].
  apply (second_root_replaces_first 3 (at_gptr 4 (new_AbxReader two_roots_file))
           first_root_closed
           (mk_AbxReader (mk_ifstream two_roots_file 14 false false) ["a"])
           50
           (mk_AbxReader (mk_ifstream two_roots_file 15 false false) ["a"])
           "b"
           (mk_AbxReader (mk_ifstream two_roots_file 20 false false) ["a"; "b"])
           0%nat); reflexivity.
Defined.

(** ** Byte-run attribute values *)

(** C8. A byte run of type TYPE_BYTES_HEX becomes two lowercase hex digits
    per byte, high nibble first, nothing between the bytes; a byte run of
    type TYPE_BYTES_BASE64 becomes its RFC 4648 base 64 text, with the "="
    padding of the last group of three.  The bytes DE AD give "dead" and
    "3q0=", in the encoders and as attribute values of a decoded file. *)
Theorem byte_runs_as_text :
  (∀ buffer, hex_encode buffer = spec_hex buffer) ∧
  (∀ buffer, String.length (hex_encode buffer) = (2 * length buffer)%nat) ∧
  (∀ buffer, base64_encode buffer (length buffer) = rfc4648_base64 buffer) ∧
  hex_encode [xde; xad] = "dead" ∧
  base64_encode [xde; xad] 2 = "3q0=" ∧
  decode false hex_attribute_file
    = Some (Ok (Some (Node "a" "" [("x", "dead")] []))) ∧
  decode false base64_attribute_file
    = Some (Ok (Some (Node "a" "" [("x", "3q0=")] []))).
Proof.
  split_and!; try reflexivity.
  - apply hex_encode_spec.
  - intros buffer. rewrite hex_encode_spec. apply spec_hex_length.
  - apply base64_encode_rfc4648.
Qed.

(** * Further properties of the code *)

(** ** The encoders lose nothing *)

Lemma byte_of_byte_val b : byte_of (byte_val b) = Some b.
Proof. unfold byte_of, byte_val. rewrite N2Z.id. apply Byte.of_to_N. Qed.

Lemma index_of_sextet i :
  0 ≤ i < 64 →
  index_of (match String.get (Z.to_nat i) rfc4648_alphabet with
            | Some c => c
            | None => "="%char
            end) rfc4648_alphabet = Some i.
Proof.
  intros Hi. rewrite <- (Z2Nat.id i) at 2 by lia.
  assert (Z.to_nat i < 64)%nat as Hn by lia.
  generalize dependent (Z.to_nat i). clear. intros n Hn.
  do 64 (destruct n as [|n]; [reflexivity|]). lia.
Qed.

Lemma sextet_not_pad group k : Ascii.eqb (sextet group k) "=" = false.
Proof.
  unfold sextet.
  pose proof (Z.mod_pos_bound (group / 64 ^ k) 64 eq_refl) as Hr.
  generalize dependent ((group / 64 ^ k) mod 64). intros i Hi.
  assert (Z.to_nat i < 64)%nat as Hn by lia.
  generalize dependent (Z.to_nat i). clear. intros n Hn.
  do 64 (destruct n as [|n]; [reflexivity|]). lia.
Qed.

Lemma index_of_sextet_group group k :
  index_of (sextet group k) rfc4648_alphabet = Some ((group / 64 ^ k) mod 64).
Proof. apply index_of_sextet. by apply Z.mod_pos_bound. Qed.

Ltac group_arith :=
  change (64 ^ 3) with 262144; change (64 ^ 2) with 4096; change (64 ^ 1) with 64;
  change (64 ^ 0) with 1; change (2 ^ 16) with 65536; change (2 ^ 8) with 256;
  Z.div_mod_to_equations; lia.

(** The three bytes of a group from its four sextets. *)
Lemma group_first a b c :
  0 ≤ a < 256 → 0 ≤ b < 256 → 0 ≤ c < 256 →
  let group := a * 2 ^ 16 + b * 2 ^ 8 + c in
  ((group / 64 ^ 3) mod 64) * 4 + ((group / 64 ^ 2) mod 64) / 16 = a.
Proof. intros Ha Hb Hc group. subst group. group_arith. Qed.

Lemma group_second a b c :
  0 ≤ a < 256 → 0 ≤ b < 256 → 0 ≤ c < 256 →
  let group := a * 2 ^ 16 + b * 2 ^ 8 + c in
  (((group / 64 ^ 2) mod 64) mod 16) * 16 + ((group / 64 ^ 1) mod 64) / 4 = b.
Proof. intros Ha Hb Hc group. subst group. group_arith. Qed.

Lemma group_third a b c :
  0 ≤ a < 256 → 0 ≤ b < 256 → 0 ≤ c < 256 →
  let group := a * 2 ^ 16 + b * 2 ^ 8 + c in
  (((group / 64 ^ 1) mod 64) mod 4) * 64 + (group / 64 ^ 0) mod 64 = c.
Proof. intros Ha Hb Hc group. subst group. group_arith. Qed.

Lemma base64_decode_rfc4648 bs : base64_decode (rfc4648_base64 bs) = Some bs.
Proof.
  remember (length bs) as n eqn:Hn. revert bs Hn.
  induction (lt_wf n) as [n _ IH]. intros bs Hn.
  destruct bs as [|a [|b [|c rest]]]; [done| | |].
  - cbn [rfc4648_base64 base64_decode]. cbv zeta.
    rewrite !index_of_sextet_group. cbn [mbind option_bind].
    pose proof (group_first (byte_val a) 0 0 (byte_val_range a)) as H1.
    rewrite !Z.add_0_r in H1. rewrite H1 by done. by rewrite byte_of_byte_val.
  - cbn [rfc4648_base64 base64_decode]. cbv zeta.
    rewrite !index_of_sextet_group, sextet_not_pad. cbn [mbind option_bind].
    pose proof (group_first (byte_val a) (byte_val b) 0 (byte_val_range a)
                  (byte_val_range b)) as H1.
    pose proof (group_second (byte_val a) (byte_val b) 0 (byte_val_range a)
                  (byte_val_range b)) as H2.
    rewrite !Z.add_0_r in H1, H2. rewrite H1, H2 by done.
    by rewrite !byte_of_byte_val.
  - cbn [rfc4648_base64 base64_decode]. cbv zeta.
    rewrite !index_of_sextet_group, !sextet_not_pad. cbn [mbind option_bind].
    rewrite group_first, group_second, group_third by apply byte_val_range.
    rewrite !byte_of_byte_val. cbn [mbind option_bind].
    rewrite (IH (length rest)); [done|simpl in Hn; lia|done].
Qed.

Lemma rfc4648_base64_length bs :
  Z.of_nat (String.length (rfc4648_base64 bs)) = 4 * ((Z.of_nat (length bs) + 2) / 3).
Proof.
  remember (length bs) as n eqn:Hn. revert bs Hn.
  induction (lt_wf n) as [n _ IH]. intros bs ->.
  destruct bs as [|a [|b [|c rest]]]; [done..|].
  cbn [rfc4648_base64]. cbv zeta. cbn [String.length].
  specialize (IH (length rest) ltac:(simpl; lia) rest eq_refl).
  simpl length. Z.div_mod_to_equations. lia.
Qed.

(** X1. Decoding the text [base64_encode] produces gives the buffer back,
    so two different buffers never get the same text. *)
Theorem base64_encode_round_trip :
  (∀ buffer, base64_decode (base64_encode buffer (length buffer)) = Some buffer) ∧
  (∀ b1 b2, base64_encode b1 (length b1) = base64_encode b2 (length b2) → b1 = b2).
Proof.
  assert (∀ buffer, base64_decode (base64_encode buffer (length buffer)) = Some buffer)
    as Hrt.
  { intros buffer. rewrite base64_encode_rfc4648. apply base64_decode_rfc4648. }
  split; [done|]. intros b1 b2 Heq.
  pose proof (Hrt b1) as H1. rewrite Heq, Hrt in H1. by injection H1.
Qed.

(** X2. The text [base64_encode] returns has exactly the length it
    reserves at its start, ((len + 2) / 3) * 4 characters. *)
Theorem base64_encode_length buffer :
  Z.of_nat (String.length (base64_encode buffer (length buffer)))
  = ((Z.of_nat (length buffer) + 2) / 3) * 4.
Proof. rewrite base64_encode_rfc4648, rfc4648_base64_length. lia. Qed.

Lemma hex_decode_pair b rest :
  hex_decode (hex_pair b +:+ rest) = (b ::.) <$> hex_decode rest.
Proof.
  unfold hex_pair. rewrite !string_app_cons. change ("" +:+ rest) with rest.
  cbn [hex_decode].
  assert (index_of (lowercase_hex_digit (byte_val b / 16)) "0123456789abcdef"
            = Some (byte_val b / 16)) as ->.
  { by destruct b. }
  assert (index_of (lowercase_hex_digit (byte_val b mod 16)) "0123456789abcdef"
            = Some (byte_val b mod 16)) as ->.
  { by destruct b. }
  cbn [mbind option_bind].
  replace (byte_val b / 16 * 16 + byte_val b mod 16) with (byte_val b)
    by (Z.div_mod_to_equations; lia).
  rewrite byte_of_byte_val. cbn [mbind option_bind].
  by destruct (hex_decode rest).
Qed.

(** X3. Decoding the hex text of a byte run gives the bytes back, so two
    different byte runs never get the same text. *)
Theorem hex_encode_round_trip :
  (∀ buffer, hex_decode (hex_encode buffer) = Some buffer) ∧
  (∀ b1 b2, hex_encode b1 = hex_encode b2 → b1 = b2).
Proof.
  assert (∀ buffer, hex_decode (hex_encode buffer) = Some buffer) as Hrt.
  { intros buffer. rewrite hex_encode_spec.
    induction buffer as [|b buffer IH]; [done|].
    cbn [spec_hex]. by rewrite hex_decode_pair, IH. }
  split; [done|]. intros b1 b2 Heq.
  pose proof (Hrt b1) as H1. rewrite Heq, Hrt in H1. by injection H1.
Qed.

Lemma index_of_hex_digit d :
  0 ≤ d < 16 → index_of (hex_digit d) "0123456789abcdef" = Some d.
Proof.
  intros Hd. rewrite <- (Z2Nat.id d) at 2 by lia. unfold hex_digit.
  assert (Z.to_nat d < 16)%nat as Hn by lia.
  generalize dependent (Z.to_nat d). clear. intros n Hn.
  do 16 (destruct n as [|n]; [reflexivity|]). lia.
Qed.

(** The digits [hex_digits] writes in front of [acc] denote [n]. *)
Lemma hex_parse_digits fuel : ∀ n acc,
  0 ≤ n < 16 ^ Z.of_nat fuel →
  hex_parse 0 (hex_digits fuel n acc) = hex_parse n acc.
Proof.
  induction fuel as [|fuel IH]; intros n acc Hn.
  - simpl in Hn. by replace n with 0 by lia.
  - cbn [hex_digits]. cbv zeta.
    assert (0 ≤ n mod 16 < 16) as Hd by (by apply Z.mod_pos_bound).
    assert (n = n / 16 * 16 + n mod 16) as Hdm by (Z.div_mod_to_equations; lia).
    destruct (Z.eqb_spec (n / 16) 0) as [H0|Hne].
    + cbn [hex_parse]. rewrite index_of_hex_digit by done. cbn [mbind option_bind].
      f_equal. lia.
    + rewrite IH.
      * cbn [hex_parse]. rewrite index_of_hex_digit by done. cbn [mbind option_bind].
        f_equal. lia.
      * replace (Z.of_nat (S fuel)) with (Z.of_nat fuel + 1) in Hn by lia.
        rewrite Z.pow_add_r in Hn by lia. change (16 ^ 1) with 16 in Hn.
        Z.div_mod_to_equations. nia.
Qed.

Lemma hex_parse_to_hex w v :
  0 < w → hex_parse 0 (to_hex w v) = Some (to_unsigned w v).
Proof.
  intros Hw. unfold to_hex. rewrite hex_parse_digits; [done|].
  unfold to_unsigned. rewrite Z2Nat.id by lia.
  pose proof (Z.mod_pos_bound v (2 ^ w) ltac:(by apply Z.pow_pos_nonneg; lia)) as Hm.
  split; [lia|]. eapply Z.lt_le_trans; [apply Hm|].
  apply Z.pow_le_mono_l. lia.
Qed.

Lemma to_signed_unsigned w v :
  0 < w → - 2 ^ (w - 1) ≤ v < 2 ^ (w - 1) → to_signed w (to_unsigned w v) = v.
Proof.
  intros Hw Hv. unfold to_signed, to_unsigned.
  assert (2 ^ w = 2 * 2 ^ (w - 1)) as Hp.
  { replace w with (1 + (w - 1)) at 1 by lia. rewrite Z.pow_add_r by lia. done. }
  assert (0 < 2 ^ (w - 1)) by (apply Z.pow_pos_nonneg; lia).
  destruct (Z.le_gt_cases 0 v) as [Hpos|Hneg].
  - rewrite Z.mod_small by lia. destruct (Z.ltb_spec v (2 ^ (w - 1))); lia.
  - replace (v mod 2 ^ w) with (v + 2 ^ w).
    + destruct (Z.ltb_spec (v + 2 ^ w) (2 ^ (w - 1))); lia.
    + apply (Z.mod_unique _ _ (-1)); lia.
Qed.

(** ** The fixed-width readers *)

Lemma le_value_cons b bs : le_value (b :: bs) = byte_val b + 256 * le_value bs.
Proof.
  cbn [le_value]. rewrite Z.lor_comm, lor_pack by (done || apply byte_val_range).
  change (2 ^ 8) with 256. lia.
Qed.

Lemma le_value_snoc bs b :
  le_value (bs ++ [b]) = le_value bs + byte_val b * 256 ^ Z.of_nat (length bs).
Proof.
  induction bs as [|x bs IH].
  - simpl app. rewrite le_value_cons. simpl. lia.
  - change ((x :: bs) ++ [b]) with (x :: (bs ++ [b])).
    rewrite !le_value_cons, IH.
    replace (Z.of_nat (length (x :: bs))) with (Z.of_nat (length bs) + 1)
      by (simpl length; lia).
    rewrite Z.pow_add_r by lia. change (256 ^ 1) with 256. lia.
Qed.

(** Swapping the bytes of what was loaded gives the big-endian value of
    the bytes read. *)
Lemma bswap_be_value bs : bswap bs = be_value bs.
Proof.
  unfold bswap, be_value.
  assert (∀ acc, fold_left (λ acc b, acc * 256 + byte_val b) bs acc
                 = acc * 256 ^ Z.of_nat (length bs) + le_value (rev bs)) as H.
  { induction bs as [|b bs IH]; intros acc.
    - simpl. lia.
    - cbn [fold_left rev]. rewrite IH, le_value_snoc, length_rev.
      replace (Z.of_nat (length (b :: bs))) with (Z.of_nat (length bs) + 1)
        by (simpl length; lia).
      rewrite Z.pow_add_r by lia. change (256 ^ 1) with 256. lia. }
  rewrite H. lia.
Qed.

Lemma stream_read_value {A} n what (g : list byte → A) r :
  (val <- stream_read n what;; ret (g val)) r
  = if good (stream r) && bool_decide (n ≤ length (pending r))%nat
    then Ok (g (take n (pending r)), advance n r)
    else Throw (runtime_error what).
Proof.
  unfold bind, stream_read, istream_read, pending, advance, at_gptr, fail, ret.
  destruct (good (stream r)) eqn:Hg; simpl.
  - pose proof Hg as [_ Hf%negb_true_iff]%andb_true_iff.
    rewrite length_take, length_drop.
    case_bool_decide as Hn.
    + rewrite (proj2 (Nat.eqb_eq _ _)) by lia. simpl. by rewrite Hf.
    + by rewrite (proj2 (Nat.eqb_neq _ _)) by lia.
  - done.
Qed.

Lemma read_unsigned_short_fixed r :
  read_unsigned_short r = fixed_read 2 be_value "Could not read unsigned short" r.
Proof.
  unfold read_unsigned_short, fixed_read. rewrite stream_read_value.
  destruct (_ && _); [|done]. by rewrite bswap_be_value.
Qed.

Lemma read_int_fixed r :
  read_int r = fixed_read 4 (λ bs, to_signed 32 (be_value bs)) "Could not read int" r.
Proof.
  unfold read_int, fixed_read. rewrite stream_read_value.
  destruct (_ && _); [|done]. by rewrite bswap_be_value.
Qed.

Lemma read_long_fixed r :
  read_long r = fixed_read 8 (λ bs, to_signed 64 (be_value bs)) "Could not read long" r.
Proof.
  unfold read_long, fixed_read. rewrite stream_read_value.
  destruct (_ && _); [|done]. by rewrite bswap_be_value.
Qed.

(** X4. The fixed-width readers in full: with the stream good and enough
    bytes pending, [read_byte], [read_short], [read_unsigned_short],
    [read_int] and [read_long] return the big-endian value of the next 1,
    2, 2, 4 and 8 bytes (as a signed number for [read_short], [read_int]
    and [read_long]) and move the get position by exactly that many bytes;
    otherwise they throw their own runtime error and return nothing. *)
Theorem fixed_width_reads r :
  read_byte r = fixed_read 1 be_value "Could not read byte" r ∧
  read_short r = fixed_read 2 (λ bs, to_signed 16 (be_value bs)) "Could not read short" r ∧
  read_unsigned_short r = fixed_read 2 be_value "Could not read unsigned short" r ∧
  read_int r = fixed_read 4 (λ bs, to_signed 32 (be_value bs)) "Could not read int" r ∧
  read_long r = fixed_read 8 (λ bs, to_signed 64 (be_value bs)) "Could not read long" r.
Proof.
  split_and!; [| |apply read_unsigned_short_fixed|apply read_int_fixed
              |apply read_long_fixed];
    unfold read_byte, read_short, fixed_read; rewrite stream_read_value.
  - destruct (_ && _) eqn:Hc; [|done]. do 2 f_equal.
    apply andb_true_iff in Hc as [_ Hn%bool_decide_eq_true].
    destruct (pending r) as [|b rest]; [simpl in Hn; lia|].
    simpl. unfold be_value. simpl. rewrite Z.shiftl_0_l, Z.lor_0_r. done.
  - destruct (_ && _); [|done]. by rewrite bswap_be_value.
Qed.

Lemma std_string_length bs : String.length (std_string bs) = length bs.
Proof.
  unfold std_string, String.string_of_list_byte.
  induction bs as [|b bs IH]; [done|]. simpl. by rewrite IH.
Qed.

Lemma be_value_range bs : 0 ≤ be_value bs < 2 ^ (8 * Z.of_nat (length bs)).
Proof.
  rewrite <- bswap_be_value. unfold bswap.
  pose proof (le_value_range (rev bs)) as H. by rewrite length_rev in H.
Qed.

Lemma fixed_read_Ok n value what r v r' :
  fixed_read n value what r = Ok (v, r') →
  good (stream r) = true ∧ (n ≤ length (pending r))%nat ∧
  v = value (take n (pending r)) ∧ r' = advance n r.
Proof.
  unfold fixed_read. destruct (good (stream r)); [|done]. simpl.
  case_bool_decide; [|done]. by intros [= <- <-].
Qed.

Lemma pending_advance n r : pending (advance n r) = drop n (pending r).
Proof. unfold pending, advance, at_gptr. simpl. by rewrite drop_drop. Qed.

Lemma advance_advance n m r : advance m (advance n r) = advance (n + m) r.
Proof. unfold advance, at_gptr. simpl. do 2 f_equal. lia. Qed.

(** X5. A length-prefixed run that [read_string_raw] returns has the
    length its two-byte big-endian prefix says, read as unsigned (so below
    65536), is made of the bytes that follow the prefix, and the get
    position ends right behind it. *)
Theorem read_string_raw_run r value r' :
  read_string_raw r = Ok (value, r') →
  Z.of_nat (String.length value) < 65536 ∧
  be_value (take 2 (pending r)) = Z.of_nat (String.length value) ∧
  value = std_string (take (String.length value) (drop 2 (pending r))) ∧
  r' = advance (2 + String.length value) r.
Proof.
  unfold read_string_raw. intros (len & r1 & Hlen & H)%bind_Ok.
  apply bind_Ok in H as (buffer & r2 & Hbuf & [= <- <-]).
  pose proof (read_unsigned_short_fixed r) as Hus. rewrite Hus in Hlen.
  apply fixed_read_Ok in Hlen as (_ & H2 & -> & ->).
  pose proof (be_value_range (take 2 (pending r))) as Hr.
  rewrite length_take, Nat.min_l in Hr by done. change (2 ^ (8 * Z.of_nat 2)) with 65536 in Hr.
  apply stream_read_Ok in Hbuf as (_ & -> & Hn & ->).
  rewrite std_string_length, Hn.
  fold (pending (advance 2 r)). rewrite pending_advance.
  clear Hn Hus H2. rewrite Z2Nat.id by lia.
  split_and!; [lia|done|done|].
  unfold advance, at_gptr. simpl. do 2 f_equal. lia.
Qed.

Lemma read_string_raw_run_witness :
  read_string_raw (at_gptr 1 whitespace_text_reader)
    = Ok (String " " (String "010" ""), at_gptr 5 whitespace_text_reader) ∧
  be_value (take 2 (pending (at_gptr 1 whitespace_text_reader))) = 2.
Proof.
  split; [reflexivity|].
  by destruct (read_string_raw_run (at_gptr 1 whitespace_text_reader)
                 (String " " (String "010" "")) (at_gptr 5 whitespace_text_reader)
                 eq_refl) as (_ & -> & _).
Defined.

(** ** Integer attribute values *)

Lemma to_signed_range w u :
  0 < w → 0 ≤ u < 2 ^ w → - 2 ^ (w - 1) ≤ to_signed w u < 2 ^ (w - 1).
Proof.
  intros Hw Hu. unfold to_signed.
  assert (2 ^ w = 2 * 2 ^ (w - 1)) as Hp.
  { replace w with (1 + (w - 1)) at 1 by lia. rewrite Z.pow_add_r by lia. done. }
  destruct (Z.ltb_spec u (2 ^ (w - 1))); lia.
Qed.

Lemma read_int_range r v r' : read_int r = Ok (v, r') → - 2 ^ 31 ≤ v < 2 ^ 31.
Proof.
  rewrite read_int_fixed.
  intros (_ & Hn & -> & _)%fixed_read_Ok.
  apply (to_signed_range 32); [done|].
  pose proof (be_value_range (take 4 (pending r))) as Hr.
  by rewrite length_take, Nat.min_l in Hr.
Qed.

Lemma read_long_range r v r' : read_long r = Ok (v, r') → - 2 ^ 63 ≤ v < 2 ^ 63.
Proof.
  rewrite read_long_fixed.
  intros (_ & Hn & -> & _)%fixed_read_Ok.
  apply (to_signed_range 64); [done|].
  pose proof (be_value_range (take 8 (pending r))) as Hr.
  by rewrite length_take, Nat.min_l in Hr.
Qed.

(** X6. The text of an integer attribute determines the integer that was
    read: the hex text of TYPE_INT_HEX and TYPE_LONG_HEX, parsed as an
    unsigned number and converted to the signed type, is the value (negative
    values are written in two's complement); and two TYPE_INT or TYPE_LONG
    payloads with the same decimal text hold the same value. *)
Theorem integer_attribute_texts :
  (∀ r text r', attribute_value TYPE_INT_HEX r = Ok (text, r') →
     ∃ v, read_int r = Ok (v, r') ∧ to_signed 32 <$> hex_parse 0 text = Some v) ∧
  (∀ r text r', attribute_value TYPE_LONG_HEX r = Ok (text, r') →
     ∃ v, read_long r = Ok (v, r') ∧ to_signed 64 <$> hex_parse 0 text = Some v) ∧
  (∀ r1 r2 text r1' r2',
     attribute_value TYPE_INT r1 = Ok (text, r1') →
     attribute_value TYPE_INT r2 = Ok (text, r2') →
     ∃ v, read_int r1 = Ok (v, r1') ∧ read_int r2 = Ok (v, r2')) ∧
  (∀ r1 r2 text r1' r2',
     attribute_value TYPE_LONG r1 = Ok (text, r1') →
     attribute_value TYPE_LONG r2 = Ok (text, r2') →
     ∃ v, read_long r1 = Ok (v, r1') ∧ read_long r2 = Ok (v, r2')).
Proof.
  split_and!.
  - intros r text r' H. change (attribute_value TYPE_INT_HEX)
      with (v <- read_int;; ret (to_hex 32 v)) in H.
    apply bind_Ok in H as (v & r1 & Hv & [= <- <-]). exists v. split; [done|].
    rewrite hex_parse_to_hex by done. simpl. f_equal.
    apply to_signed_unsigned; [done|]. by eapply read_int_range.
  - intros r text r' H. change (attribute_value TYPE_LONG_HEX)
      with (v <- read_long;; ret (to_hex 64 v)) in H.
    apply bind_Ok in H as (v & r1 & Hv & [= <- <-]). exists v. split; [done|].
    rewrite hex_parse_to_hex by done. simpl. f_equal.
    apply to_signed_unsigned; [done|]. by eapply read_long_range.
  - intros r1 r2 text r1' r2' H1 H2.
    change (attribute_value TYPE_INT) with (v <- read_int;; ret (to_string v)) in H1, H2.
    apply bind_Ok in H1 as (v1 & s1 & Hv1 & [= <- <-]).
    apply bind_Ok in H2 as (v2 & s2 & Hv2 & [= Heq <-]).
    apply (inj pretty) in Heq as ->. by exists v1.
  - intros r1 r2 text r1' r2' H1 H2.
    change (attribute_value TYPE_LONG) with (v <- read_long;; ret (to_string v)) in H1, H2.
    apply bind_Ok in H1 as (v1 & s1 & Hv1 & [= <- <-]).
    apply bind_Ok in H2 as (v2 & s2 & Hv2 & [= Heq <-]).
    apply (inj pretty) in Heq as ->. by exists v1.
Qed.

(** ** After the header *)

Lemma skip_header_step_break r r' :
  skip_header_step r = Ok (Break, r') →
  r' = r ∧ ∃ token r1, read_byte r = Ok (token, r1) ∧ Z.land token 15 = START_DOCUMENT.
Proof.
  unfold skip_header_step. intros (token & r1 & Hb & H)%bind_Ok.
  destruct (Z.eqb_spec (Z.land token 15) START_DOCUMENT) as [Hk|Hk].
  - apply bind_Ok in H as ([] & r2 & [= <-] & [= <-]).
    split; [|by exists token, r1].
    unfold read_byte in Hb. apply bind_Ok in Hb as (buf & r3 & Hbuf & [= _ <-]).
    apply stream_read_Ok in Hbuf as (Hg & _ & _ & ->).
    apply andb_true_iff in Hg as [He%negb_true_iff Hf%negb_true_iff].
    destruct r as [[c g e fl] t]. simpl in *. subst e fl.
    unfold seekg_cur. simpl.
    destruct (Z.ltb_spec (Z.of_nat (g + 1) + -1) 0); [lia|].
    do 2 f_equal. lia.
  - inv_M H; by inv_ret.
Qed.

Lemma skip_header_extension_Ok fuel r r' :
  skip_header_extension fuel r = Some (Ok (tt, r')) →
  ∃ token r1, read_byte r' = Ok (token, r1) ∧ Z.land token 15 = START_DOCUMENT.
Proof.
  revert r. induction fuel as [|fuel IH]; intros r; simpl; [done|].
  destruct (skip_header_step r) as [[[] r1]| |] eqn:Hs; try done.
  - apply IH.
  - intros [= <-]. by apply skip_header_step_break in Hs as [-> ?].
Qed.

(** X7. When [skip_header_extension] returns, the stream is [good] and
    stands on a byte whose low nibble is START_DOCUMENT, the intern table is
    as it was, and the first iteration of the decoding loop either takes
    that byte as START_DOCUMENT and goes on with the frame unchanged but for
    [document_opened], or, its type nibble not being TYPE_NULL, throws
    "Invalid START_DOCUMENT data type". *)
Theorem header_ends_at_start_document fuel r r' mr f :
  skip_header_extension fuel r = Some (Ok (tt, r')) →
  good (stream r') = true ∧
  interned_strings r' = interned_strings r ∧
  ∃ token r1,
    read_byte r' = Ok (token, r1) ∧ Z.land token 15 = START_DOCUMENT ∧
    loop_body mr f r'
    = if Z.land token 240 =? TYPE_NULL
      then Ok ((Continue,
                mk_frame true (root_closed f) (element_stack f) (root f) (heap f)), r1)
      else Throw (AbxDecodeError "Invalid START_DOCUMENT data type").
Proof.
  intros H. split_and!.
  - by eapply skip_header_extension_good.
  - by eapply skip_header_extension_table.
  - pose proof (skip_header_extension_good _ _ _ H) as Hg%good_not_eof.
    apply skip_header_extension_Ok in H as (token & r1 & Hb & Hk).
    exists token, r1. split_and!; [done|done|].
    unfold loop_body. rewrite Hg. unfold bind at 1. rewrite Hb.
    unfold dispatch. rewrite Hk. simpl. by destruct (_ =? _).
Qed.

(** magic, a header record of type TYPE_INT (kind 1), START_DOCUMENT. *)
Lemma header_ends_at_start_document_witness :
  skip_header_extension 8
    (at_gptr 4 (new_AbxReader [x41; x42; x58; x00; x61; x00; x00; x00; x07; x10]))
  = Some (Ok (tt, at_gptr 9
       (new_AbxReader [x41; x42; x58; x00; x61; x00; x00; x00; x07; x10]))) ∧
  good (stream (at_gptr 9
       (new_AbxReader [x41; x42; x58; x00; x61; x00; x00; x00; x07; x10]))) = true.
Proof.
  split; [reflexivity|].
  by destruct (header_ends_at_start_document 8
       (at_gptr 4 (new_AbxReader [x41; x42; x58; x00; x61; x00; x00; x00; x07; x10]))
       (at_gptr 9 (new_AbxReader [x41; x42; x58; x00; x61; x00; x00; x00; x07; x10]))
       false (initial_frame false) eq_refl) as [? _].
Defined.

(** ** What the tokens do to the tree *)

Lemma blocked_false_last mr f :
  blocked mr f = false → is_Some (last (element_stack f)).
Proof.
  unfold blocked. intros [Hs _]%orb_false_iff. apply bool_decide_eq_false in Hs.
  by apply last_is_Some.
Qed.

(** X8. An ATTRIBUTE token met with an element open (below the wrapper, in
    multi-root mode) stores the decoded value under the resolved name in the
    attributes of the top element, replacing a value already stored under
    that name; the other attributes of that element, its tag, text and
    children, every other element, the stack and the root stay as they
    are. *)
Theorem attribute_token_effect mr f r token r1 name r2 value r3 top e :
  read_byte r = Ok (token, r1) →
  Z.land token 15 = ATTRIBUTE →
  blocked mr f = false →
  read_interned_string r1 = Ok (name, r2) →
  attribute_value (Z.land token 240) r2 = Ok (value, r3) →
  last (element_stack f) = Some top →
  heap f !! top = Some e →
  ∃ f' e',
    loop_body mr f r = Ok ((Continue, f'), r3) ∧
    element_stack f' = element_stack f ∧ root f' = root f ∧
    heap f' !! top = Some e' ∧
    attrib e' !! name = Some value ∧
    (∀ k, k ≠ name → attrib e' !! k = attrib e !! k) ∧
    tag e' = tag e ∧ text e' = text e ∧ children e' = children e ∧
    (∀ p, p ≠ top → heap f' !! p = heap f !! p).
Proof.
  intros Hb Hk Hbl Hname Hval Htop He.
  exists (update_element (set_attrib name value) top f), (set_attrib name value e).
  split_and!; try done.
  - unfold loop_body.
    pose proof (read_byte_Ok _ _ _ Hb) as (Heof%good_not_eof & _). rewrite Heof.
    unfold bind at 1. rewrite Hb. unfold dispatch. rewrite Hk, Hbl. simpl.
    unfold bind at 1. rewrite Hname. unfold bind at 1. rewrite Hval.
    unfold bind, lift, on_back. by rewrite Htop.
  - simpl. by rewrite list_lookup_alter_eq, He.
  - simpl. apply lookup_insert_eq.
  - intros k Hne. simpl. by apply lookup_insert_ne.
  - intros p Hne. simpl. by apply list_lookup_alter_ne.
Qed.

(** The element a open with x set to 1, and an ATTRIBUTE token of type
    TYPE_STRING that sets x to 2. *)
Lemma attribute_token_effect_witness :
  ∃ f' e',
    loop_body false
      (mk_frame true false [0%nat] (Some 0%nat)
         [mk_XMLElement "a" "" {[ "x" := "1" ]} []])
      (mk_AbxReader (mk_ifstream [x2f; x00; x01; x00; x01; x32] 0 false false)
                    ["a"; "x"])
    = Ok ((Continue, f'),
          mk_AbxReader (mk_ifstream [x2f; x00; x01; x00; x01; x32] 6 false false)
                       ["a"; "x"]) ∧
    heap f' !! 0%nat = Some e' ∧ attrib e' !! "x" = Some "2".
Proof.
  destruct (attribute_token_effect false
      (mk_frame true false [0%nat] (Some 0%nat)
         [mk_XMLElement "a" "" {[ "x" := "1" ]} []])
      (mk_AbxReader (mk_ifstream [x2f; x00; x01; x00; x01; x32] 0 false false)
                    ["a"; "x"])
      47
      (mk_AbxReader (mk_ifstream [x2f; x00; x01; x00; x01; x32] 1 false false)
                    ["a"; "x"])
      "x"
      (mk_AbxReader (mk_ifstream [x2f; x00; x01; x00; x01; x32] 3 false false)
                    ["a"; "x"])
      "2"
      (mk_AbxReader (mk_ifstream [x2f; x00; x01; x00; x01; x32] 6 false false)
                    ["a"; "x"])
      0%nat (mk_XMLElement "a" "" {[ "x" := "1" ]} [])
      eq_refl eq_refl eq_refl eq_refl eq_refl eq_refl eq_refl)
    as (f' & e' & Hbody & _ & _ & He' & Hx & _).
  by exists f', e'.
Defined.

(** X9. A TEXT token whose run is not all whitespace, met with the stack
    not empty, appends the run to the text of the top element (setting it,
    when that text was empty) and changes nothing else.  The type nibble of
    the token is not looked at, and in multi-root mode the top element may
    be the wrapper itself. *)
Theorem text_token_effect mr f r token r1 value r2 top e :
  read_byte r = Ok (token, r1) →
  Z.land token 15 = TEXT →
  read_string_raw r1 = Ok (value, r2) →
  all_of isspace value = false →
  last (element_stack f) = Some top →
  heap f !! top = Some e →
  ∃ f' e',
    loop_body mr f r = Ok ((Continue, f'), r2) ∧
    element_stack f' = element_stack f ∧ root f' = root f ∧
    heap f' !! top = Some e' ∧
    text e' = text e +:+ value ∧
    tag e' = tag e ∧ attrib e' = attrib e ∧ children e' = children e ∧
    (∀ p, p ≠ top → heap f' !! p = heap f !! p).
Proof.
  intros Hb Hk Hraw Hws Htop He.
  assert (element_stack f ≠ []) as Hne by (intros Hs; by rewrite Hs in Htop).
  assert (back_element f = Some e) as Hback.
  { unfold back_element. rewrite Htop. done. }
  exists (update_element (set_text (text e +:+ value)) top f),
         (set_text (text e +:+ value) e).
  split_and!; try done.
  - unfold loop_body.
    pose proof (read_byte_Ok _ _ _ Hb) as (Heof%good_not_eof & _). rewrite Heof.
    unfold bind at 1. rewrite Hb. unfold dispatch. rewrite Hk. simpl.
    unfold bind at 1. rewrite Hraw. unfold bind, lift, text_token.
    rewrite Hws, bool_decide_eq_false_2, Hback by done.
    case_bool_decide as Ht; unfold on_back; rewrite Htop; [|done].
    by rewrite Ht.
  - simpl. by rewrite list_lookup_alter_eq, He.
  - intros p Hp. simpl. by apply list_lookup_alter_ne.
Qed.

(** Multi-root mode, only the wrapper open, a TEXT token with the run "hi". *)
Lemma text_token_effect_witness :
  ∃ f' e',
    loop_body true (initial_frame true)
      (mk_AbxReader (mk_ifstream [x04; x00; x02; x68; x69] 0 false false) [])
    = Ok ((Continue, f'),
          mk_AbxReader (mk_ifstream [x04; x00; x02; x68; x69] 5 false false) []) ∧
    heap f' !! 0%nat = Some e' ∧ text e' = "hi".
Proof.
  destruct (text_token_effect true (initial_frame true)
      (mk_AbxReader (mk_ifstream [x04; x00; x02; x68; x69] 0 false false) [])
      4
      (mk_AbxReader (mk_ifstream [x04; x00; x02; x68; x69] 1 false false) [])
      "hi"
      (mk_AbxReader (mk_ifstream [x04; x00; x02; x68; x69] 5 false false) [])
      0%nat (new_XMLElement "root")
      eq_refl eq_refl eq_refl eq_refl eq_refl eq_refl)
    as (f' & e' & Hbody & _ & _ & He' & Ht & _).
  by exists f', e'.
Defined.

(** ** Invariants of the loop *)

Lemma on_back_flags g f f' :
  on_back g f = Ok f' →
  document_opened f' = document_opened f ∧ root_closed f' = root_closed f.
Proof. unfold on_back. destruct (last _); [|done]. by intros [= <-]. Qed.

Lemma start_tag_flags tag_name f f' :
  start_tag tag_name f = Ok f' → document_opened f' = document_opened f.
Proof.
  unfold start_tag. case_bool_decide; [by intros [= <-]|].
  destruct (on_back _ _) as [f1| |] eqn:Hon; [|done|done].
  intros [= <-]. simpl. by apply on_back_flags in Hon as [-> _].
Qed.

Lemma end_tag_flags tag_name f f' :
  end_tag tag_name f = Ok f' → document_opened f' = document_opened f.
Proof.
  unfold end_tag. destruct (back_element f); [|done].
  case_bool_decide; [done|]. by intros [= <-].
Qed.

Lemma text_token_flags value f f' :
  text_token value f = Ok f' → document_opened f' = document_opened f.
Proof.
  unfold text_token. destruct (all_of _ _); [by intros [= <-]|].
  case_bool_decide; [done|]. destruct (back_element f); [|done].
  case_bool_decide; by intros [-> _]%on_back_flags.
Qed.

Lemma frame_step_document_opened mr f c f' :
  document_opened f = true → frame_step mr f c f' → document_opened f' = true.
Proof.
  intros Hd Hstep. inversion Hstep; subst; try done.
  - match goal with H : start_tag _ _ = _ |- _ => apply start_tag_flags in H end.
    congruence.
  - match goal with H : end_tag _ _ = _ |- _ => apply end_tag_flags in H end.
    congruence.
  - match goal with H : text_token _ _ = _ |- _ => apply text_token_flags in H end.
    congruence.
  - match goal with H : on_back _ _ = _ |- _ => apply on_back_flags in H as [? _] end.
    congruence.
Qed.

Lemma after_document_opened n mr r0 f r :
  after n mr (initial_frame mr) r0 = Some (f, r) → document_opened f = true.
Proof.
  apply (after_invariant (λ f _, document_opened f = true)).
  - intros f1 r1 f2 r2 Hd Hb. eapply frame_step_document_opened; [done|].
    by eapply loop_body_frame_step.
  - by destruct mr.
Qed.

(** X10. [document_opened] is true from the start of the loop on, so a
    START_DOCUMENT token of type TYPE_NULL is accepted anywhere in the token
    stream, also inside an open element and more than once, and leaves the
    frame exactly as it was. *)
Theorem start_document_anywhere n mr r0 f r token r1 :
  after n mr (initial_frame mr) r0 = Some (f, r) →
  read_byte r = Ok (token, r1) →
  Z.land token 15 = START_DOCUMENT →
  Z.land token 240 = TYPE_NULL →
  document_opened f = true ∧ loop_body mr f r = Ok ((Continue, f), r1).
Proof.
  intros Hafter Hb Hk Ht.
  pose proof (after_document_opened _ _ _ _ _ Hafter) as Hd. split; [done|].
  unfold loop_body.
  pose proof (read_byte_Ok _ _ _ Hb) as (Heof%good_not_eof & _). rewrite Heof.
  unfold bind at 1. rewrite Hb. unfold dispatch. rewrite Hk, Ht. simpl.
  destruct f as [d rc st rt h]. simpl in Hd. by subst d.
Qed.

Lemma start_document_anywhere_witness :
  after 3 false (initial_frame false) (at_gptr 4 (new_AbxReader
      [x41; x42; x58; x00; x10; x32; xff; xff; x00; x01; x61;
       x32; xff; xff; x00; x01; x62; x10]))
    = Some (nested_frame, mk_AbxReader (mk_ifstream
      [x41; x42; x58; x00; x10; x32; xff; xff; x00; x01; x61;
       x32; xff; xff; x00; x01; x62; x10] 17 false false) ["a"; "b"]) ∧
  loop_body false nested_frame (mk_AbxReader (mk_ifstream
      [x41; x42; x58; x00; x10; x32; xff; xff; x00; x01; x61;
       x32; xff; xff; x00; x01; x62; x10] 17 false false) ["a"; "b"])
    = Ok ((Continue, nested_frame), mk_AbxReader (mk_ifstream
      [x41; x42; x58; x00; x10; x32; xff; xff; x00; x01; x61;
       x32; xff; xff; x00; x01; x62; x10] 18 false false) ["a"; "b"]).
Proof.
  split; [reflexivity|].
  by destruct (start_document_anywhere 3 false (at_gptr 4 (new_AbxReader
      [x41; x42; x58; x00; x10; x32; xff; xff; x00; x01; x61;
       x32; xff; xff; x00; x01; x62; x10]))
      nested_frame
      (mk_AbxReader (mk_ifstream
      [x41; x42; x58; x00; x10; x32; xff; xff; x00; x01; x61;
       x32; xff; xff; x00; x01; x62; x10] 17 false false) ["a"; "b"])
      16
      (mk_AbxReader (mk_ifstream
      [x41; x42; x58; x00; x10; x32; xff; xff; x00; x01; x61;
       x32; xff; xff; x00; x01; x62; x10] 18 false false) ["a"; "b"])
      eq_refl eq_refl eq_refl eq_refl) as [_ ?].
Defined.

(** An END_DOCUMENT token in full. *)
Lemma end_document_token mr f r token r1 :
  read_byte r = Ok (token, r1) →
  Z.land token 15 = END_DOCUMENT →
  loop_body mr f r
  = if negb (Z.land token 240 =? TYPE_NULL)
    then Throw (AbxDecodeError "Invalid END_DOCUMENT data type")
    else if blocked mr f then Ok ((Break, f), r1)
    else Throw (AbxDecodeError "Unclosed elements at END_DOCUMENT").
Proof.
  intros Hb Hk. unfold loop_body.
  pose proof (read_byte_Ok _ _ _ Hb) as (Heof%good_not_eof & _). rewrite Heof.
  unfold bind at 1. rewrite Hb. unfold dispatch. rewrite Hk. simpl.
  destruct (negb _); [done|]. by destruct (blocked mr f).
Qed.

(** X11. What [read] returns is the root and the heap of a state of the
    loop in which an END_DOCUMENT token of type TYPE_NULL was read with no
    element open (only the wrapper, in multi-root mode): every element of a
    returned document was closed by its END_TAG. *)
Theorem returned_document_is_closed mr r p h :
  read mr r = Some (Ok (p, h)) →
  ∃ n r1 f r2 token r3,
    after n mr (initial_frame mr) r1 = Some (f, r2) ∧
    read_byte r2 = Ok (token, r3) ∧
    Z.land token 15 = END_DOCUMENT ∧ Z.land token 240 = TYPE_NULL ∧
    blocked mr f = true ∧
    element_stack f = (if mr then [0%nat] else []) ∧
    root f = Some p ∧ heap f = h.
Proof.
  unfold read. destruct (istream_read 4 (stream r)) as [magic_check s].
  destruct (fail s || _); [done|].
  destruct (skip_header_extension _ _) as [[[[] r1]| |]|] eqn:Hh; try done.
  destruct (read_loop _ _ _ _) as [[[f r2]| |]|] eqn:Hl; try done.
  destruct (root f) as [p'|] eqn:Hroot; [|done]. intros [= <- <-].
  apply skip_header_extension_good in Hh.
  apply read_loop_after in Hl as (n & r3 & Ha & Hb).
  pose proof (after_good _ _ _ _ _ _ Hh Ha) as Hg%good_not_eof.
  pose proof Hb as [Heof|(token & Hbyte & Hk)]%loop_body_break; [congruence|].
  rewrite (end_document_token _ _ _ _ _ Hbyte Hk) in Hb.
  destruct (Z.eqb_spec (Z.land token 240) TYPE_NULL) as [Ht|]; [|done]. simpl in Hb.
  destruct (blocked mr f) eqn:Hbl; [|done].
  exists n, r1, f, r3, token, r2. split_and!; try done.
  destruct mr.
  - apply after_wrapper in Ha as [[rest Hs] _]. unfold blocked in Hbl.
    rewrite Hs in *. simpl in Hbl.
    apply bool_decide_eq_true in Hbl. by destruct rest.
  - unfold blocked in Hbl. rewrite orb_false_r in Hbl.
    by apply bool_decide_eq_true in Hbl.
Qed.

Lemma returned_document_is_closed_witness :
  read false (new_AbxReader int_attribute_file)
    = Some (Ok (0%nat, [mk_XMLElement "a" "" {[ "x" := "5" ]} []])) ∧
  ∃ n r1 f r2 token r3,
    after n false (initial_frame false) r1 = Some (f, r2) ∧
    read_byte r2 = Ok (token, r3) ∧
    Z.land token 15 = END_DOCUMENT ∧ Z.land token 240 = TYPE_NULL ∧
    blocked false f = true ∧
    element_stack f = [] ∧
    root f = Some 0%nat ∧ heap f = [mk_XMLElement "a" "" {[ "x" := "5" ]} []].
Proof.
  split; [reflexivity|].
  apply (returned_document_is_closed false (new_AbxReader int_attribute_file)
           0%nat [mk_XMLElement "a" "" {[ "x" := "5" ]} []]).
  reflexivity.
Defined.

(** ** The tree only grows *)

Lemma grows_refl h : grows h h.
Proof.
  intros p e He. exists e. split_and!; try done.
  exists "". by rewrite string_app_nil_r.
Qed.

Lemma grows_trans h1 h2 h3 : grows h1 h2 → grows h2 h3 → grows h1 h3.
Proof.
  intros H12 H23 p e He.
  destruct (H12 _ _ He) as (e2 & He2 & Ht2 & Hc2 & [m2 Hx2] & Ha2).
  destruct (H23 _ _ He2) as (e3 & He3 & Ht3 & Hc3 & [m3 Hx3] & Ha3).
  exists e3. split_and!; [done|congruence|by etrans| |by auto].
  exists (m2 +:+ m3). by rewrite Hx3, Hx2, string_app_assoc.
Qed.

Lemma grows_alloc h e0 : grows h (h ++ [e0]).
Proof.
  intros p e He. exists e. split_and!; try done.
  - by apply lookup_app_l_Some.
  - exists "". by rewrite string_app_nil_r.
Qed.

Lemma grows_alter h g top :
  (∀ e, h !! top = Some e →
     tag (g e) = tag e ∧ children e `prefix_of` children (g e) ∧
     (∃ more, text (g e) = text e +:+ more) ∧
     (∀ k, is_Some (attrib e !! k) → is_Some (attrib (g e) !! k))) →
  grows h (alter g top h).
Proof.
  intros Hg p e He. destruct (decide (top = p)) as [->|Hne].
  - exists (g e). rewrite list_lookup_alter_eq, He. split; [done|]. by apply Hg.
  - rewrite list_lookup_alter_ne by done. by apply grows_refl.
Qed.

Lemma on_back_grows g f f' :
  (∀ e, back_element f = Some e →
     tag (g e) = tag e ∧ children e `prefix_of` children (g e) ∧
     (∃ more, text (g e) = text e +:+ more) ∧
     (∀ k, is_Some (attrib e !! k) → is_Some (attrib (g e) !! k))) →
  on_back g f = Ok f' → grows (heap f) (heap f').
Proof.
  unfold on_back, back_element. intros Hg.
  destruct (last (element_stack f)) as [top|]; [|done]. intros [= <-]. simpl.
  apply grows_alter. intros e He. apply Hg. exact He.
Qed.

Lemma start_tag_grows tag_name f f' :
  start_tag tag_name f = Ok f' → grows (heap f) (heap f').
Proof.
  unfold start_tag. case_bool_decide.
  - intros [= <-]. apply grows_alloc.
  - destruct (on_back _ _) as [f1| |] eqn:Hon; [|done|done].
    intros [= <-]. simpl.
    eapply grows_trans; [apply (grows_alloc _ (new_XMLElement tag_name))|].
    apply (on_back_grows _ _ _) in Hon; [done|].
    intros e _. split_and!; try done.
    + by apply prefix_app_r.
    + exists "". by rewrite string_app_nil_r.
Qed.

Lemma text_token_grows value f f' :
  text_token value f = Ok f' → grows (heap f) (heap f').
Proof.
  unfold text_token. destruct (all_of _ _).
  { intros [= <-]. apply grows_refl. }
  case_bool_decide; [done|]. destruct (back_element f) as [top|] eqn:Hb; [|done].
  case_bool_decide as Ht; intros Hon; apply on_back_grows in Hon; try done;
    intros e He; rewrite Hb in He; injection He as <-; (split_and!; try done).
  - exists value. by rewrite Ht.
  - by exists value.
Qed.

Lemma frame_step_grows mr f c f' : frame_step mr f c f' → grows (heap f) (heap f').
Proof.
  intros Hstep. inversion Hstep; subst; try apply grows_refl.
  - by eapply start_tag_grows.
  - match goal with H : end_tag _ _ = _ |- _ =>
      apply end_tag_Ok in H as (_ & _ & -> & _) end. apply grows_refl.
  - by eapply text_token_grows.
  - match goal with H : on_back _ _ = _ |- _ =>
      apply on_back_grows in H; [done|] end.
    intros e _. split_and!; try done.
    + exists "". by rewrite string_app_nil_r.
    + intros k Hk. simpl. destruct (decide (name = k)) as [->|Hne].
      * rewrite lookup_insert_eq. by eexists.
      * by rewrite lookup_insert_ne.
Qed.



(** ** The returned pointer denotes a tree *)

Lemma tree_of_is_Some h :
  heap_ordered h →
  ∀ fuel p, (p < length h)%nat → (length h - p ≤ fuel)%nat → is_Some (tree_of fuel h p).
Proof.
  intros Hh. induction fuel as [|fuel IH]; intros p Hp Hfuel; [lia|].
  cbn [tree_of]. destruct (lookup_lt_is_Some_2 h p Hp) as [e He]. rewrite He.
  cbn [mbind option_bind].
  destruct (mapM_is_Some_2 (tree_of fuel h) (children e)) as [kids Hk].
  { apply Forall_forall. intros c Hc. pose proof (Hh _ _ _ He Hc).
    apply IH; lia. }
  rewrite Hk. by eexists.
Qed.

(** X13. Whatever [read] returns is a finite tree: the root is an element
    of the heap, every child of an element was allocated after it, so
    following the children from the root ends, and [decode] gives the tree
    under the root. *)
Theorem returned_document_is_tree mr r p h :
  read mr r = Some (Ok (p, h)) →
  (p < length h)%nat ∧ heap_ordered h ∧ is_Some (tree_of (S (length h)) h p).
Proof.
  intros (n & r1 & f & r2 & Ha & Hroot & <-)%read_result_reachable.
  pose proof (after_wf _ _ _ _ _ _ (initial_frame_wf mr) Ha) as [Hh Hr _].
  specialize (Hr _ Hroot). split_and!; [done|done|].
  apply tree_of_is_Some; [done|done|lia].
Qed.

Lemma returned_document_is_tree_witness :
  read true (new_AbxReader two_roots_file)
    = Some (Ok (0%nat, [mk_XMLElement "root" "" ∅ [1%nat; 2%nat];
                        mk_XMLElement "a" "" ∅ []; mk_XMLElement "b" "" ∅ []])) ∧
  is_Some (tree_of 4 [mk_XMLElement "root" "" ∅ [1%nat; 2%nat];
                      mk_XMLElement "a" "" ∅ []; mk_XMLElement "b" "" ∅ []] 0).
Proof.
  split; [reflexivity|].
  apply (returned_document_is_tree true (new_AbxReader two_roots_file) 0%nat
       [mk_XMLElement "root" "" ∅ [1%nat; 2%nat];
        mk_XMLElement "a" "" ∅ []; mk_XMLElement "b" "" ∅ []]).
  reflexivity.
Defined.

(** ** Bytes behind END_DOCUMENT *)

Lemma prefix_local_ret {A} (a : A) : prefix_local (ret a).
Proof. by intros extra r a' r' [= <- <-]. Qed.

Lemma prefix_local_throw {A} e : prefix_local (@throw A e).
Proof. by intros extra r a r'. Qed.

Lemma prefix_local_bind {A B} (m : M A) (k : A → M B) :
  prefix_local m → (∀ a, prefix_local (k a)) → prefix_local (x <- m;; k x).
Proof.
  intros Hm Hk extra r b r' (a & r1 & H1 & H2)%bind_Ok.
  unfold bind. rewrite (Hm extra _ _ _ H1). by apply Hk.
Qed.

Lemma prefix_local_lift {A} (o : outcome A) : prefix_local (lift o).
Proof. intros extra r a r' [-> ->]%lift_Ok. done. Qed.

Lemma prefix_local_stream_read n what : prefix_local (stream_read n what).
Proof.
  intros extra r buf r' H.
  apply stream_read_Ok in H as (Hg & -> & Hlen & ->).
  destruct r as [[c g e fl] tbl]. unfold good in Hg. simpl in *.
  apply andb_true_iff in Hg as [->%negb_true_iff ->%negb_true_iff].
  unfold stream_read, istream_read, widen, good. simpl.
  rewrite length_take, length_drop in Hlen.
  assert (take n (drop g (c ++ extra)) = take n (drop g c)) as ->.
  { destruct (decide (g ≤ length c)%nat) as [Hle|Hgt].
    - rewrite drop_app_le by done. rewrite take_app_le; [done|].
      rewrite length_drop. lia.
    - replace n with 0%nat by lia. done. }
  rewrite length_take, length_drop.
  rewrite (proj2 (Nat.eqb_eq _ _)) by lia. done.
Qed.

Lemma prefix_local_push_back value : prefix_local (push_back_interned value).
Proof. by intros extra r a r' [= <- <-]. Qed.

Lemma prefix_local_index reference : prefix_local (index_interned reference).
Proof.
  intros extra r a r'. unfold index_interned, widen. simpl.
  destruct (_ <? _); [|done]. destruct (_ !! _); [|done]. by intros [= <- <-].
Qed.

Lemma prefix_local_seekg off : prefix_local (seekg off).
Proof.
  intros extra r a r' [= <- <-]. unfold seekg, widen, seekg_cur. simpl.
  by repeat case_match.
Qed.

Ltac prefix_local_step :=
  match goal with
  | |- prefix_local (bind _ _) => apply prefix_local_bind; [|intros ?]
  | |- prefix_local (if ?b then _ else _) => destruct b
  | |- prefix_local (ret _) => apply prefix_local_ret
  | |- prefix_local (throw _) => apply prefix_local_throw
  | |- prefix_local (lift _) => apply prefix_local_lift
  | |- prefix_local (stream_read _ _) => apply prefix_local_stream_read
  | |- prefix_local (push_back_interned _) => apply prefix_local_push_back
  | |- prefix_local (index_interned _) => apply prefix_local_index
  | |- prefix_local (seekg _) => apply prefix_local_seekg
  end.

Lemma prefix_local_skip_header_step : prefix_local skip_header_step.
Proof.
  unfold skip_header_step, read_byte, read_int, read_long, read_float, read_double,
    read_short, read_string_raw, read_unsigned_short.
  repeat prefix_local_step.
Qed.

Lemma prefix_local_dispatch mr token f : prefix_local (dispatch mr token f).
Proof.
  unfold dispatch, attribute_value, skip_unknown, read_interned_string, read_int,
    read_long, read_float, read_double, read_short, read_string_raw,
    read_unsigned_short.
  repeat prefix_local_step.
Qed.

Lemma prefix_local_loop_body mr f : prefix_local (loop_body mr f).
Proof.
  intros extra r a r'. unfold loop_body. change (eof (stream (widen extra r)))
    with (eof (stream r)). destruct (eof (stream r)).
  - by intros [= <- <-].
  - apply (prefix_local_bind read_byte (λ token, dispatch mr token f)).
    + unfold read_byte. repeat prefix_local_step.
    + intros token. apply prefix_local_dispatch.
Qed.

Lemma skip_header_extension_widen extra fuel : ∀ r r' fuel',
  skip_header_extension fuel r = Some (Ok (tt, r')) →
  (fuel ≤ fuel')%nat →
  skip_header_extension fuel' (widen extra r) = Some (Ok (tt, widen extra r')).
Proof.
  induction fuel as [|fuel IH]; intros r r' fuel'; simpl; [done|].
  intros H Hle. destruct fuel' as [|fuel']; [lia|]. simpl.
  destruct (skip_header_step r) as [[[] r1]| |] eqn:Hs; try done.
  - rewrite (prefix_local_skip_header_step extra _ _ _ Hs). apply IH; [done|lia].
  - rewrite (prefix_local_skip_header_step extra _ _ _ Hs). by injection H as <-.
Qed.

Lemma read_loop_widen extra mr fuel : ∀ f r f' r' fuel',
  read_loop fuel mr f r = Some (Ok (f', r')) →
  (fuel ≤ fuel')%nat →
  read_loop fuel' mr f (widen extra r) = Some (Ok (f', widen extra r')).
Proof.
  induction fuel as [|fuel IH]; intros f r f' r' fuel'; simpl; [done|].
  intros H Hle. destruct fuel' as [|fuel']; [lia|]. simpl.
  destruct (loop_body mr f r) as [[[[] f1] r1]| |] eqn:Hs; try done.
  - rewrite (prefix_local_loop_body mr f extra _ _ _ Hs). apply IH; [done|lia].
  - rewrite (prefix_local_loop_body mr f extra _ _ _ Hs). by injection H as <- <-.
Qed.

(** X14. Nothing behind the END_DOCUMENT token is read: when [read]
    returns a document for a file, it returns the same document for that
    file with any bytes appended. *)
Theorem trailing_bytes_ignored mr file extra d :
  read mr (new_AbxReader file) = Some (Ok d) →
  read mr (new_AbxReader (file ++ extra)) = Some (Ok d).
Proof.
  change (new_AbxReader (file ++ extra)) with (widen extra (new_AbxReader file)).
  generalize (new_AbxReader file). intros r. unfold read. cbv zeta.
  destruct (istream_read 4 (stream r)) as [magic_check s] eqn:Hm.
  destruct (fail s) eqn:Hf; [done|].
  destruct (bool_decide (magic_check = MAGIC)) eqn:Hmagic; [|done].
  cbn [orb negb].
  assert (stream_read 4 "" r = Ok (magic_check, mk_AbxReader s (interned_strings r)))
    as Hsr by (unfold stream_read; by rewrite Hm, Hf).
  apply (prefix_local_stream_read 4 "" extra) in Hsr.
  unfold stream_read in Hsr.
  destruct (istream_read 4 (stream (widen extra r))) as [magic_check' s'].
  destruct (fail s') eqn:Hf'; [done|]. injection Hsr as -> ->.
  rewrite Hmagic. cbn [orb negb].
  change (contents (stream (widen extra r))) with (contents (stream r) ++ extra).
  change (interned_strings (widen extra r)) with (interned_strings r).
  change (mk_AbxReader
            (mk_ifstream (contents s ++ extra) (gptr s) (eofbit s) (failbit s))
            (interned_strings r))
    with (widen extra (mk_AbxReader s (interned_strings r))).
  destruct (skip_header_extension _ _) as [[[[] r1]| |]|] eqn:Hh; try done.
  destruct (read_loop _ _ _ _) as [[[f r2]| |]|] eqn:Hl; try done.
  intros Hd.
  rewrite (skip_header_extension_widen extra _ _ _ _ Hh)
    by (rewrite length_app; lia).
  rewrite (read_loop_widen extra mr _ _ _ _ _ _ Hl) by (rewrite length_app; lia).
  done.
Qed.

Lemma trailing_bytes_ignored_witness :
  read false (new_AbxReader int_attribute_file)
    = Some (Ok (0%nat, [mk_XMLElement "a" "" {[ "x" := "5" ]} []])) ∧
  read false (new_AbxReader (int_attribute_file ++ [x33; xff; x00]))
    = Some (Ok (0%nat, [mk_XMLElement "a" "" {[ "x" := "5" ]} []])).
Proof.
  split; [reflexivity|].
  apply (trailing_bytes_ignored false int_attribute_file [x33; xff; x00]).
  reflexivity.
Defined.

(** ** The exceptions of [read] *)

Lemma throws_only_ret {A} allowed (a : A) : throws_only allowed (ret a).
Proof. by intros r e. Qed.

Lemma throws_only_throw {A} allowed e : e ∈ allowed → throws_only allowed (@throw A e).
Proof. by intros He r e' [= <-]. Qed.

Lemma throws_only_bind {A B} allowed (m : M A) (k : A → M B) :
  throws_only allowed m → (∀ a, throws_only allowed (k a)) →
  throws_only allowed (x <- m;; k x).
Proof.
  intros Hm Hk r e. unfold bind. specialize (Hm r).
  destruct (m r) as [[a r1]|e1|]; [apply Hk| |done].
  intros [= <-]. by apply Hm.
Qed.

Lemma throws_only_lift {A} allowed (o : outcome A) :
  (∀ e, o = Throw e → e ∈ allowed) → throws_only allowed (lift o).
Proof. intros Ho r e. unfold lift. destruct o; [done| |done]. intros [= <-]. by apply Ho. Qed.

Lemma throws_only_stream_read allowed n what :
  runtime_error what ∈ allowed → throws_only allowed (stream_read n what).
Proof.
  intros Hw r e. unfold stream_read.
  destruct (istream_read n (stream r)) as [buf s]. destruct (fail s); [|done].
  by intros [= <-].
Qed.

Lemma throws_only_push_back allowed value : throws_only allowed (push_back_interned value).
Proof. by intros r e. Qed.

Lemma throws_only_index allowed reference : throws_only allowed (index_interned reference).
Proof.
  intros r e. unfold index_interned. destruct (_ <? _); [|done]. by destruct (_ !! _).
Qed.

Lemma throws_only_seekg allowed off : throws_only allowed (seekg off).
Proof. by intros r e. Qed.

Lemma on_back_no_throw g f e : on_back g f ≠ Throw e.
Proof. unfold on_back. by destruct (last _). Qed.

Ltac in_list := by repeat constructor.

Ltac throws_only_step :=
  match goal with
  | |- throws_only _ (bind _ _) => apply throws_only_bind; [|intros ?]
  | |- throws_only _ (if ?b then _ else _) => destruct b
  | |- throws_only _ (ret _) => apply throws_only_ret
  | |- throws_only _ (throw _) => apply throws_only_throw; in_list
  | |- throws_only _ (stream_read _ _) => apply throws_only_stream_read; in_list
  | |- throws_only _ (push_back_interned _) => apply throws_only_push_back
  | |- throws_only _ (index_interned _) => apply throws_only_index
  | |- throws_only _ (seekg _) => apply throws_only_seekg
  end.

Lemma throws_only_skip_header_step : throws_only loop_exceptions skip_header_step.
Proof.
  unfold skip_header_step, read_byte, read_int, read_long, read_float, read_double,
    read_short, read_string_raw, read_unsigned_short.
  repeat throws_only_step.
Qed.

Lemma throws_only_dispatch mr token f : throws_only loop_exceptions (dispatch mr token f).
Proof.
  unfold dispatch, attribute_value, skip_unknown, read_interned_string, read_int,
    read_long, read_float, read_double, read_short, read_string_raw,
    read_unsigned_short.
  repeat throws_only_step; apply throws_only_lift; intros e.
  - unfold start_tag. case_bool_decide; [done|].
    pose proof (on_back_no_throw (add_child (length (heap f)))
                  (with_heap (heap f ++ [new_XMLElement a]) f)) as Hb.
    destruct (on_back _ _); [done| |done]. intros [= <-]. by destruct (Hb e0).
  - unfold end_tag. destruct (back_element f); [|done].
    case_bool_decide; [|done]. intros [= <-]. in_list.
  - unfold text_token. destruct (all_of _ _); [done|].
    case_bool_decide; [intros [= <-]; in_list|].
    destruct (back_element f); [|done].
    case_bool_decide; intros Hb; by apply on_back_no_throw in Hb.
  - intros Hb. by apply on_back_no_throw in Hb.
Qed.

Lemma throws_only_loop_body mr f : throws_only loop_exceptions (loop_body mr f).
Proof.
  intros r e. unfold loop_body. destruct (eof (stream r)); [done|].
  apply (throws_only_bind loop_exceptions read_byte (λ token, dispatch mr token f)).
  - unfold read_byte. repeat throws_only_step.
  - intros token. apply throws_only_dispatch.
Qed.

Lemma skip_header_extension_throws fuel r e :
  skip_header_extension fuel r = Some (Throw e) → e ∈ loop_exceptions.
Proof.
  revert r. induction fuel as [|fuel IH]; intros r; simpl; [done|].
  destruct (skip_header_step r) as [[[] r1]|e1|] eqn:Hs; try done.
  - apply IH.
  - intros [= <-]. by eapply throws_only_skip_header_step.
Qed.

Lemma read_loop_throws fuel mr f r e :
  read_loop fuel mr f r = Some (Throw e) → e ∈ loop_exceptions.
Proof.
  revert f r. induction fuel as [|fuel IH]; intros f r; simpl; [done|].
  destruct (loop_body mr f r) as [[[[] f1] r1]|e1|] eqn:Hs; try done.
  - apply IH.
  - intros [= <-]. by eapply throws_only_loop_body.
Qed.

Lemma error_samples_throw :
  Forall (λ s, read s.1.1 (new_AbxReader s.1.2) = Some (Throw s.2)) error_samples.
Proof. repeat constructor. Qed.

(** X15. The exceptions of [read] are the twenty-two of [read_exceptions],
    the nine runtime errors of the readers and thirteen decode errors, and
    no other; and each of them is thrown on some file. *)
Theorem read_throws_exactly :
  (∀ mr r e, read mr r = Some (Throw e) → e ∈ read_exceptions) ∧
  (∀ e, e ∈ read_exceptions →
     ∃ mr file, read mr (new_AbxReader file) = Some (Throw e)).
Proof.
  split.
  - intros mr r e. unfold read.
    destruct (istream_read 4 (stream r)) as [magic_check s].
    destruct (fail s || _); [intros [= <-]; in_list|].
    destruct (skip_header_extension _ _) as [[[[] r1]|e1|]|] eqn:Hh; try done.
    + destruct (read_loop _ _ _ _) as [[[f r2]|e2|]|] eqn:Hl; try done.
      * destruct (root f); [done|]. intros [= <-].
        unfold read_exceptions. apply elem_of_cons. right.
        apply elem_of_app. right. in_list.
      * intros [= <-]. apply read_loop_throws in Hl.
        unfold read_exceptions. apply elem_of_cons. right.
        apply elem_of_app. by left.
    + intros [= <-]. apply skip_header_extension_throws in Hh.
      unfold read_exceptions. apply elem_of_cons. right.
      apply elem_of_app. by left.
  - intros e He.
    change read_exceptions with (error_samples.*2) in He.
    apply list_elem_of_fmap in He as ([[mr file] e'] & -> & Hs).
    pose proof error_samples_throw as Hall. rewrite Forall_forall in Hall.
    exists mr, file. exact (Hall _ Hs).
Qed.

(** X16. [read] throws "Invalid magic number" exactly when the file does
    not begin with the four bytes A B X and zero (files of fewer than four
    bytes included); no later step throws it. *)
Theorem invalid_magic_iff mr file :
  read mr (new_AbxReader file) = Some (Throw (AbxDecodeError "Invalid magic number"))
  ↔ take 4 file ≠ MAGIC.
Proof.
  assert (AbxDecodeError "Invalid magic number" ∉ loop_exceptions) as Hno
    by (by apply (bool_decide_unpack _)).
  unfold read. cbv zeta.
  destruct (istream_read 4 (stream (new_AbxReader file))) as [magic_check s] eqn:Hr.
  assert (fail s || negb (bool_decide (magic_check = MAGIC)) = true
          ↔ take 4 file ≠ MAGIC) as Hiff.
  { unfold new_AbxReader, open_file, istream_read, good in Hr. simpl in Hr.
    rewrite drop_0, length_take in Hr.
    destruct (decide (4 ≤ length file)%nat) as [Hlen|Hlen].
    - rewrite Nat.min_l in Hr by done. injection Hr as <- <-.
      simpl. rewrite negb_true_iff, bool_decide_eq_false. done.
    - rewrite Nat.min_r in Hr by lia.
      rewrite (proj2 (Nat.eqb_neq _ _)) in Hr by lia. injection Hr as <- <-.
      simpl. split; [|done]. intros _ Hm. apply (f_equal length) in Hm.
      rewrite length_take in Hm. change (length MAGIC) with 4%nat in Hm. lia. }
  destruct (fail s || _).
  { split; [intros _; by apply Hiff|done]. }
  split; [|intros Hm; by apply Hiff in Hm].
  intros H. exfalso.
  destruct (skip_header_extension _ _) as [[[[] r1]|e1|]|] eqn:Hh; try done.
  - destruct (read_loop _ _ _ _) as [[[f r2]|e2|]|] eqn:Hl; try done.
    + by destruct (root f).
    + injection H as ->. by apply read_loop_throws in Hl.
  - injection H as ->. by apply skip_header_extension_throws in Hh.
Qed.

(** ** print_xml *)

Example print_two_roots :
  print_xml map_to_list 4
    [mk_XMLElement "root" "" ∅ [1%nat; 2%nat];
     mk_XMLElement "a" "hi" {[ "x" := "5" ]} []; mk_XMLElement "b" "" ∅ []] 0 0 ""
  = Some (xml_declaration +:+
          "<root>" +:+ endl +:+
          "  <a x=" +:+ dquote +:+ "5" +:+ dquote +:+ ">hi</a>" +:+ endl +:+
          "  <b/>" +:+ endl +:+
          "</root>" +:+ endl).
Proof. reflexivity. Qed.

Lemma print_attributes_append attrs a b :
  fold_left print_attribute attrs (a +:+ b) = a +:+ fold_left print_attribute attrs b.
Proof.
  revert b. induction attrs as [|kv attrs IH]; intros b; [done|].
  cbn [fold_left]. unfold print_attribute at 2 4.
  rewrite string_app_assoc. apply IH.
Qed.

Lemma print_children_append print kids a b :
  (∀ child x y, print child (x +:+ y) = (String.append x) <$> print child y) →
  print_children print kids (a +:+ b) = (String.append a) <$> print_children print kids b.
Proof.
  intros Hp. revert b. induction kids as [|child kids IH]; intros b; [done|].
  cbn [print_children]. rewrite Hp. destruct (print child b) as [c|]; [|done].
  simpl. apply IH.
Qed.

(** What [print_xml] writes comes behind what was written before and does
    not depend on it. *)
Lemma print_xml_append order h fuel : ∀ element indent a b,
  print_xml order fuel h element indent (a +:+ b)
  = (String.append a) <$> print_xml order fuel h element indent b.
Proof.
  induction fuel as [|fuel IH]; intros element indent a b; [done|].
  cbn [print_xml]. destruct (h !! element) as [e|]; [|done].
  cbn [mbind option_bind]. cbv zeta.
  set (b1 := if bool_decide (indent = 0%nat) then b +:+ xml_declaration else b).
  assert ((if bool_decide (indent = 0%nat) then (a +:+ b) +:+ xml_declaration
           else a +:+ b) = a +:+ b1) as ->.
  { subst b1. case_bool_decide; [apply string_app_assoc|done]. }
  rewrite (string_app_assoc a), print_attributes_append.
  set (b2 := fold_left print_attribute (order (attrib e))
               (b1 +:+ spaces indent +:+ "<" +:+ tag e)).
  destruct (bool_decide (children e = []) && bool_decide (text e = "")).
  { simpl. by rewrite string_app_assoc. }
  rewrite (string_app_assoc a).
  set (b3 := if negb (bool_decide (text e = "")) then (b2 +:+ ">") +:+ text e
             else b2 +:+ ">").
  assert ((if negb (bool_decide (text e = "")) then (a +:+ b2 +:+ ">") +:+ text e
           else a +:+ b2 +:+ ">") = a +:+ b3) as ->.
  { subst b3. destruct (negb _); [apply string_app_assoc|done]. }
  destruct (negb (bool_decide (children e = []))).
  - rewrite (string_app_assoc a), print_children_append by (intros; apply IH).
    destruct (print_children _ _ _) as [c|]; [|done]. simpl.
    by rewrite !string_app_assoc.
  - simpl. by rewrite string_app_assoc.
Qed.

Lemma print_children_is_Some print kids cout :
  (∀ child x, child ∈ kids → is_Some (print child x)) →
  is_Some (print_children print kids cout).
Proof.
  revert cout. induction kids as [|child kids IH]; intros cout Hp; [by eexists|].
  cbn [print_children]. destruct (Hp child cout) as [c ->]; [by left|].
  simpl. apply IH. intros k x Hk. apply Hp. by right.
Qed.

(** On a heap whose children come after their parents the recursion of
    [print_xml] ends. *)
Lemma print_xml_is_Some order h :
  heap_ordered h →
  ∀ fuel element indent cout,
    (element < length h)%nat → (length h - element ≤ fuel)%nat →
    is_Some (print_xml order fuel h element indent cout).
Proof.
  intros Hh. induction fuel as [|fuel IH]; intros element indent cout Hp Hfuel; [lia|].
  cbn [print_xml]. destruct (lookup_lt_is_Some_2 h element Hp) as [e He]. rewrite He.
  cbn [mbind option_bind]. cbv zeta.
  destruct (_ && _); [by eexists|].
  destruct (negb (bool_decide (children e = []))); [|by eexists].
  match goal with |- context [print_children ?f ?l ?c] =>
    destruct (print_children_is_Some f l c) as [out ->] end; [|by eexists].
  intros child x Hc. pose proof (Hh _ _ _ He Hc). apply IH; lia.
Qed.

(** The first thing [print_xml] writes: the declaration (for the root
    only), the indentation and the opening of the tag. *)
Lemma print_xml_begins order h fuel element indent e out :
  h !! element = Some e →
  print_xml order fuel h element indent "" = Some out →
  ∃ rest, out = (if bool_decide (indent = 0%nat) then xml_declaration else "") +:+
                spaces indent +:+ "<" +:+ tag e +:+ rest.
Proof.
  intros He. destruct fuel as [|fuel]; [done|].
  cbn [print_xml]. rewrite He. cbn [mbind option_bind]. cbv zeta.
  set (start := (if bool_decide (indent = 0%nat) then "" +:+ xml_declaration else "")
                +:+ spaces indent +:+ "<" +:+ tag e).
  assert (∀ rest, start +:+ rest
            = (if bool_decide (indent = 0%nat) then xml_declaration else "") +:+
              spaces indent +:+ "<" +:+ tag e +:+ rest) as Hstart.
  { intros rest. subst start. by rewrite !string_app_assoc. }
  rewrite <- (string_app_nil_r start), print_attributes_append.
  destruct (_ && _).
  { intros [= <-]. eexists. rewrite <- Hstart. by rewrite !string_app_assoc. }
  destruct (negb (bool_decide (text e = ""))), (negb (bool_decide (children e = []))).
  - rewrite !string_app_assoc.
    rewrite print_children_append by (intros; apply print_xml_append).
    destruct (print_children _ _ _) as [c|]; [|done]. simpl.
    intros [= <-]. eexists. rewrite <- Hstart. by rewrite !string_app_assoc.
  - simpl. intros [= <-]. eexists. rewrite <- Hstart. by rewrite !string_app_assoc.
  - rewrite !string_app_assoc.
    rewrite print_children_append by (intros; apply print_xml_append).
    destruct (print_children _ _ _) as [c|]; [|done]. simpl.
    intros [= <-]. eexists. rewrite <- Hstart. by rewrite !string_app_assoc.
  - simpl. intros [= <-]. eexists. rewrite <- Hstart. by rewrite !string_app_assoc.
Qed.

(** ** What [print_xml] writes for a document of [read] *)

(** X17. [print_xml] returns on every document [read] returns, whatever the
    order of the attributes, and what it writes begins with the XML
    declaration and the opening of the root's tag; in multi-root mode that
    tag is "root". *)
Theorem returned_document_prints order mr r p h :
  read mr r = Some (Ok (p, h)) →
  ∃ e rest, h !! p = Some e ∧ (mr = true → tag e = "root") ∧
    print_xml order (S (length h)) h p 0 ""
    = Some (xml_declaration +:+ "<" +:+ tag e +:+ rest).
Proof.
  intros (n & r1 & f & r2 & Ha & Hroot & <-)%read_result_reachable.
  pose proof (after_wf _ _ _ _ _ _ (initial_frame_wf mr) Ha) as [Hh Hr _].
  specialize (Hr _ Hroot).
  destruct (lookup_lt_is_Some_2 _ _ Hr) as [e He].
  destruct (print_xml_is_Some order _ Hh (S (length (heap f))) p 0%nat "" Hr)
    as [out Hout]; [lia|].
  destruct (print_xml_begins _ _ _ _ _ _ _ He Hout) as [rest ->].
  exists e, rest. split_and!; [done| |done].
  intros ->. pose proof (after_wrapper _ _ _ _ Ha) as [_ Hw].
  rewrite Hw in Hroot. injection Hroot as <-.
  assert (grows (heap (initial_frame true)) (heap f)) as Hg.
  { revert Ha.
    apply (after_invariant (λ f _, grows (heap (initial_frame true)) (heap f)));
      [|apply grows_refl].
    intros fa ra fb rb Hg Hb. eapply grows_trans; [done|].
    eapply frame_step_grows. by eapply loop_body_frame_step. }
  destruct (Hg 0%nat (new_XMLElement "root") eq_refl) as (e' & He' & Ht & _).
  rewrite He in He'. by injection He' as <-.
Qed.

Lemma returned_document_prints_witness :
  ∃ e rest,
    [mk_XMLElement "root" "" ∅ [1%nat; 2%nat];
     mk_XMLElement "a" "" ∅ []; mk_XMLElement "b" "" ∅ []] !! 0%nat = Some e ∧
    (true = true → tag e = "root") ∧
    print_xml map_to_list 4
      [mk_XMLElement "root" "" ∅ [1%nat; 2%nat];
       mk_XMLElement "a" "" ∅ []; mk_XMLElement "b" "" ∅ []] 0 0 ""
    = Some (xml_declaration +:+ "<" +:+ tag e +:+ rest).
Proof.
  apply (returned_document_prints map_to_list true (new_AbxReader two_roots_file) 0%nat
           [mk_XMLElement "root" "" ∅ [1%nat; 2%nat];
            mk_XMLElement "a" "" ∅ []; mk_XMLElement "b" "" ∅ []]).
  reflexivity.
Defined.

(** X18. [print_xml] only appends to the output: what was written before
    stays in front, and what is written behind it does not depend on it. *)
Theorem print_xml_only_appends order fuel h element indent cout out :
  print_xml order fuel h element indent cout = Some out →
  ∃ written, out = cout +:+ written ∧
             print_xml order fuel h element indent "" = Some written.
Proof.
  rewrite <- (string_app_nil_r cout) at 1. rewrite print_xml_append.
  destruct (print_xml order fuel h element indent "") as [written|]; [|done].
  intros [= <-]. by exists written.
Qed.

Lemma print_xml_only_appends_witness :
  ∃ written,
    "<!-- -->" +:+ xml_declaration +:+ "<a/>" +:+ endl = "<!-- -->" +:+ written ∧
    print_xml map_to_list 1 [mk_XMLElement "a" "" ∅ []] 0 0 "" = Some written.
Proof.
  apply (print_xml_only_appends map_to_list 1 [mk_XMLElement "a" "" ∅ []] 0 0
           "<!-- -->" ("<!-- -->" +:+ xml_declaration +:+ "<a/>" +:+ endl)).
  reflexivity.
Defined.

(** ** main *)






Lemma parse_arguments_set_multi_root args : ∀ o,
  parse_arguments args (set_multi_root o) = set_multi_root <$> parse_arguments args o.
Proof.
  induction args as [|arg args IH]; intros [m i out e]; [done|].
  cbn [parse_arguments set_multi_root multi_root input_path output_path explicit_input].
  repeat case_bool_decide; try done;
    match goal with |- _ = _ <$> parse_arguments _ ?o' => apply (IH o') end.
Qed.

Lemma parse_arguments_set_explicit_input args : ∀ o,
  parse_arguments args (set_explicit_input o)
  = set_explicit_input <$> parse_arguments args o.
Proof.
  induction args as [|arg args IH]; intros [m i out e]; [done|].
  cbn [parse_arguments set_explicit_input multi_root input_path output_path
       explicit_input].
  repeat case_bool_decide; try done;
    match goal with |- _ = _ <$> parse_arguments _ ?o' => apply (IH o') end.
Qed.

(** X20. The flags -mr and -i are taken wherever they stand among the
    arguments: each sets its option and changes nothing else in what the
    other arguments give, the refusal of a third path included. *)
Theorem flags_anywhere before behind o :
  parse_arguments (before ++ "-mr" :: behind) o
    = set_multi_root <$> parse_arguments (before ++ behind) o ∧
  parse_arguments (before ++ "-i" :: behind) o
    = set_explicit_input <$> parse_arguments (before ++ behind) o.
Proof.
  revert o. induction before as [|arg before IH]; intros o.
  - split.
    + apply parse_arguments_set_multi_root.
    + apply parse_arguments_set_explicit_input.
  - cbn [app parse_arguments]. repeat case_bool_decide; try done; apply IH.
Qed.

(** X21. A run of [main] ends in one of two ways.  With exit code 1:
    nothing was written to the standard output and no file was changed.
    With exit code 0: the arguments were accepted, the input file exists,
    [read] returned a document for it, and the text [print_xml] gives for
    that document went either to the standard output, no file being
    changed, or into one file, replacing what it held, nothing going to the
    standard output. *)
Theorem main_outcomes order args fs result :
  main order args fs = Some result →
  (exit_code result = 1 ∧ cout_text result = "" ∧ files_after result = files fs) ∨
  (exit_code result = 0 ∧
   ∃ o file p h text,
     parse_arguments args no_options = Some o ∧
     files fs !! input_path o = Some file ∧
     read (multi_root o) (new_AbxReader file) = Some (Ok (p, h)) ∧
     print_xml order (S (length h)) h p 0 "" = Some text ∧
     ((cout_text result = text ∧ files_after result = files fs) ∨
      (cout_text result = "" ∧
       ∃ output, writable fs output = true ∧
         files_after result
         = <[output := String.list_byte_of_string text]> (files fs)))).
Proof.
  unfold main. case_bool_decide; [intros [= <-]; by left|].
  fold no_options.
  destruct (parse_arguments args no_options) as [o|] eqn:Hp; [|intros [= <-]; by left].
  case_bool_decide; [intros [= <-]; by left|].
  cbv zeta. unfold convert.
  destruct (files fs !! input_path o) as [file|] eqn:Hfile; [|intros [= <-]; by left].
  destruct (read _ _) as [[[p h]|e|]|] eqn:Hread; try done;
    [|intros [= <-]; by left].
  destruct (bool_decide (_ = "-")).
  - destruct (print_xml _ _ _ _ _ _) as [text|] eqn:Hprint; [|done].
    intros [= <-]. right. split; [done|]. exists o, file, p, h, text.
    split_and!; try done. by left.
  - match goal with |- context [writable fs ?out] =>
      destruct (writable fs out) eqn:Hw; [|intros [= <-]; by left];
      destruct (print_xml _ _ _ _ _ _) as [text|] eqn:Hprint; [|done];
      intros [= <-]; right; split; [done|]; exists o, file, p, h, text;
      split_and!; try done; right; split; [done|]; by exists out
    end.
Qed.

Lemma main_outcomes_witness :
  main map_to_list ["-i"; "in.abx"] (one_file int_attribute_file)
    = Some converted_in_place ∧
  ((exit_code converted_in_place = 1 ∧ cout_text converted_in_place = "" ∧
    files_after converted_in_place = files (one_file int_attribute_file)) ∨
   (exit_code converted_in_place = 0 ∧
    ∃ o file p h text,
      parse_arguments ["-i"; "in.abx"] no_options = Some o ∧
      files (one_file int_attribute_file) !! input_path o = Some file ∧
      read (multi_root o) (new_AbxReader file) = Some (Ok (p, h)) ∧
      print_xml map_to_list (S (length h)) h p 0 "" = Some text ∧
      ((cout_text converted_in_place = text ∧
        files_after converted_in_place = files (one_file int_attribute_file)) ∨
       (cout_text converted_in_place = "" ∧
        ∃ output, writable (one_file int_attribute_file) output = true ∧
          files_after converted_in_place
          = <[output := String.list_byte_of_string text]>
              (files (one_file int_attribute_file)))))).
Proof.
  split; [reflexivity|].
  apply (main_outcomes map_to_list ["-i"; "in.abx"] (one_file int_attribute_file)
           converted_in_place).
  reflexivity.
Defined.

(** X22. [main] always ends, unless [read] runs into undefined behaviour
    on the input file: [print_xml] returns on every document of [read], and
    no other step can fail to. *)
Theorem main_ends_unless_undefined order args fs :
  main order args fs = None →
  ∃ o file,
    parse_arguments args no_options = Some o ∧
    files fs !! input_path o = Some file ∧
    read (multi_root o) (new_AbxReader file) = Some Undefined.
Proof.
  unfold main. case_bool_decide; [done|]. fold no_options.
  destruct (parse_arguments args no_options) as [o|] eqn:Hp; [|done].
  case_bool_decide; [done|]. cbv zeta. unfold convert.
  destruct (files fs !! input_path o) as [file|] eqn:Hfile; [|done].
  destruct (read_returns (multi_root o) (new_AbxReader file)) as [res Hread].
  rewrite Hread. destruct res as [[p h]|e|]; [|done|by exists o, file].
  apply read_result_reachable in Hread as (n & r1 & f & r2 & Ha & Hroot & <-).
  pose proof (after_wf _ _ _ _ _ _ (initial_frame_wf (multi_root o)) Ha) as [Hh Hr _].
  specialize (Hr _ Hroot).
  destruct (print_xml_is_Some order _ Hh (S (length (heap f))) p 0%nat "" Hr)
    as [out Hout]; [lia|].
  rewrite Hout. by repeat case_match.
Qed.

Lemma main_ends_unless_undefined_witness :
  ∃ o file,
    parse_arguments ["in.abx"; "-"] no_options = Some o ∧
    files (one_file forward_reference_file) !! input_path o = Some file ∧
    read (multi_root o) (new_AbxReader file) = Some Undefined.
Proof.
  apply (main_ends_unless_undefined map_to_list ["in.abx"; "-"]
           (one_file forward_reference_file)).
  reflexivity.
Defined.
